(** * Port scanner: a shallow embedding of [scanner.py], [common.py] and
    the logic of [gui.py]

    Definitions come first:
    - [Py]           the pieces of the Python runtime the code relies on
                     (insertion-ordered dictionaries, exceptions, floats
                     and [int()] of a number, results of calls that may
                     raise);
    - [Scanner]      [PortScanner._tcp_probe] and [PortScanner.scan];
    - [Common]       [TOP_PORTS] and [parse_ports];
    - [Worlds]       concrete worlds to run the scanner in;
    - [Observations] what can be read off a run of [scan];
    - [PortLists]    port lists as the user writes them;
    - [RunFacts]     what a future contributes to a run;
    - [Hosts]        [SERVICE_MAP], [parse_hosts] and [validate_host];
    - [Gui]          [PortsValidator.validate], [MainWindow.start_scan],
                     [ScanWorker.run] and [MainWindow._materialize_results];
    - [AiEngine]     the context [LocalAI.analyze] builds;
    - [GuiTable]     [MainWindow._on_result], [_find_row] and
                     [_on_progress].

    Then the proofs: [PyFacts], [ProbeProofs] (the probe), [ScanProofs]
    (the two loops of [scan]), [ScanClaims] (what a scan returns),
    [CommonProofs] ([parse_ports]), [ProbeMore], [ScanMore], [HostProofs],
    [ExportProofs], [GuiProofs] and [TableProofs].

    Everything the code reads from outside (the wall clock, what a
    connection attempt does, the order in which futures complete, when
    another thread calls [stop()]) is an explicit argument. *)

From Stdlib Require Import ZArith QArith Qround List String Ascii Bool Lia.
From Stdlib Require Import Permutation Sorted.
From Stdlib Require Import Qpower Zpower SpecFloat.
Import ListNotations.

Local Open Scope string_scope.
Local Open Scope list_scope.
Local Open Scope Z_scope.

(* ================================================================== *)
(** * Python runtime *)
(* ================================================================== *)

Module Py.

(** ** Exceptions

    The classes that matter for the [try] statement of [_tcp_probe], with
    their place in the hierarchy of the language.  Every class here derives
    from [Exception]: a connection attempt raises nothing else. *)

Inductive exc_class : Type :=
| Exception_
| OSError
| ConnectionError
| ConnectionRefusedError
| ConnectionResetError
| socket_timeout
| socket_gaierror
| ValueError
| UnicodeError
| ArithmeticError
| OverflowError
| TypeError
| MemoryError.

Definition exc_class_eqb (a b : exc_class) : bool :=
  match a, b with
  | Exception_, Exception_ | OSError, OSError
  | ConnectionError, ConnectionError
  | ConnectionRefusedError, ConnectionRefusedError
  | ConnectionResetError, ConnectionResetError
  | socket_timeout, socket_timeout | socket_gaierror, socket_gaierror
  | ValueError, ValueError | UnicodeError, UnicodeError
  | ArithmeticError, ArithmeticError | OverflowError, OverflowError
  | TypeError, TypeError | MemoryError, MemoryError => true
  | _, _ => false
  end.

(** The direct base class; [None] at the root. *)
Definition base (c : exc_class) : option exc_class :=
  match c with
  | Exception_ => None
  | OSError => Some Exception_
  | ConnectionError => Some OSError
  | ConnectionRefusedError => Some ConnectionError
  | ConnectionResetError => Some ConnectionError
  | socket_timeout => Some OSError
  | socket_gaierror => Some OSError
  | ValueError => Some Exception_
  | UnicodeError => Some ValueError
  | ArithmeticError => Some Exception_
  | OverflowError => Some ArithmeticError
  | TypeError => Some Exception_
  | MemoryError => Some Exception_
  end.

(** [issubclass c d], walking up the chain of bases (the hierarchy above
    has depth 4). *)
Fixpoint issubclass_upto (n : nat) (c d : exc_class) : bool :=
  exc_class_eqb c d ||
  match n with
  | O => false
  | S n' => match base c with
            | Some b => issubclass_upto n' b d
            | None => false
            end
  end.

Definition issubclass : exc_class -> exc_class -> bool := issubclass_upto 4.

(** An exception object: its class and what [str(e)] gives. *)
Record exn : Type := mk_exn { cls : exc_class; str : string }.

Definition isinstance (e : exn) (c : exc_class) : bool := issubclass (cls e) c.

(** A call either returns a value or raises. *)
Inductive result (A : Type) : Type :=
| Returned (a : A)
| Raised (e : exn).
Arguments Returned {A} a.
Arguments Raised {A} e.

(** ** [int(x)] of a number: truncation towards zero. *)
Definition int_of (q : Q) : Z := Z.quot (Qnum q) (Z.pos (Qden q)).

(** ** Floats

    A [float] is an IEEE 754 binary64 number, and the arithmetic on floats
    rounds to nearest, ties to even: the operations of the Standard
    Library's [SpecFloat] at precision 53 and maximal exponent 1024. *)
Definition float : Type := spec_float.

(** [x - y] and [x * y] on floats *)
Definition float_sub : float -> float -> float := SFsub 53 1024.
Definition float_mul : float -> float -> float := SFmul 53 1024.

(** The int [1000] as a float (it is one exactly: 1000 = m * 2^-43). *)
Definition float_1000 : float := S754_finite false 8796093022208000 (-43).

(** The float a decimal literal denotes: the float nearest to the
    rational, the quotient of two integers rounded once. *)
Definition float_lit (q : Q) : float :=
  let of_Z (n : Z) : float :=
    match n with
    | 0 => S754_zero false
    | Z.pos p => S754_finite false p 0
    | Z.neg p => S754_finite true p 0
    end in
  SFdiv 53 1024 (of_Z (Qnum q)) (of_Z (Z.pos (Qden q))).

(** Neither an infinity nor a NaN. *)
Definition is_finite (x : float) : bool :=
  match x with
  | S754_zero _ | S754_finite _ _ _ => true
  | S754_infinity _ | S754_nan => false
  end.

(** The number a finite float stands for: [(-1)^s * m * 2^e]. *)
Definition float_value (x : float) : Q :=
  match x with
  | S754_finite s m e => (inject_Z (cond_Zopp s (Z.pos m)) * 2 ^ e)%Q
  | _ => 0%Q
  end.

(** No negative number and no negative infinity. *)
Definition not_negative (x : float) : Prop :=
  match x with
  | S754_finite true _ _ | S754_infinity true => False
  | _ => True
  end.

(** [int(x)] of a float: truncation towards zero ([Z.shiftl] by a negative
    amount shifts to the right); an infinity and a NaN raise. *)
Definition int_of_float (x : float) : result Z :=
  match x with
  | S754_zero _ => Returned 0
  | S754_finite s m e => Returned (cond_Zopp s (Z.shiftl (Z.pos m) e))
  | S754_infinity _ =>
      Raised {| cls := OverflowError;
                str := "cannot convert float infinity to integer" |}
  | S754_nan =>
      Raised {| cls := ValueError;
                str := "cannot convert float NaN to integer" |}
  end.

(** ** Dictionaries

    A [dict] keeps its keys in insertion order, and the comprehensions of
    [scan] iterate in that order, so a dictionary is an association list
    without repeated keys.  Assigning to a key that is present keeps the
    key where it is. *)
Section Dict.
Context {K V : Type} (keq : K -> K -> bool).

Definition dict : Type := list (K * V).

(** [d.get(k)] *)
Fixpoint get (d : dict) (k : K) : option V :=
  match d with
  | [] => None
  | (k', v) :: d' => if keq k' k then Some v else get d' k
  end.

(** [d[k] = v] *)
Fixpoint set (d : dict) (k : K) (v : V) : dict :=
  match d with
  | [] => [(k, v)]
  | (k', v') :: d' =>
      if keq k' k then (k', v) :: d' else (k', v') :: set d' k v
  end.

(** [d.setdefault(k, v)]: the value now stored under [k], and the
    dictionary after the call. *)
Definition setdefault (d : dict) (k : K) (v : V) : V * dict :=
  match get d k with
  | Some v0 => (v0, d)
  | None => (v, set d k v)
  end.

Definition keys (d : dict) : list K := map fst d.
Definition items (d : dict) : list (K * V) := d.
Definition len (d : dict) : Z := Z.of_nat (List.length d).
End Dict.

Arguments dict : clear implicits.

End Py.

(* ================================================================== *)
(** * scanner.py *)
(* ================================================================== *)

Module Scanner.
Import Py.

(** The dictionary [{"proto":..,"state":..,"latency_ms":..,"error":..}]
    built by [_tcp_probe]; its four keys are fixed, so it is a record. *)
Record Info : Type := mk_info {
  proto : string;
  state : string;
  latency_ms : Z;
  error : string
}.

Record PortScanner : Type := mk_scanner {
  timeout : Q;
  max_workers : Z;
  _stop : bool
}.

(** [PortScanner.__init__] *)
Definition __init__ (timeout_ms : Z) (max_workers : Z) : PortScanner :=
  {| timeout := (inject_Z timeout_ms / 1000)%Q;
     max_workers := max_workers;
     _stop := false |}.

(** [PortScanner.stop] *)
Definition stop (self : PortScanner) : PortScanner :=
  {| timeout := timeout self; max_workers := max_workers self; _stop := true |}.

(** What [socket.create_connection((host, port), timeout)] does. *)
Inductive connection : Type :=
| Connected
| Fails (e : exn).

(** The world one probe runs in: the two floats that [time.time()]
    returns (seconds) and the outcome of its connection attempt. *)
Record probe_world : Type := mk_world {
  t_begin : float;
  attempt : string -> Z -> Q -> connection;
  t_end : float
}.

(** [(t1 - t0)*1000], as floats: the difference is rounded, then the
    product with [1000.0] is rounded. *)
Definition elapsed_ms (t0 t1 : float) : float :=
  float_mul (float_sub t1 t0) float_1000.

(** [PortScanner._tcp_probe].  The [except] clauses are tried in the order
    of the source; an exception none of them matches leaves the function,
    and so does what [int()] raises after the [try] statement. *)
Definition _tcp_probe (self : PortScanner) (host : string) (port : Z)
    (w : probe_world) : result (string * Z * Info) :=
  let t0 := t_begin w in
  let try_ : result (string * string) :=
    match attempt w host port (timeout self) with
    | Connected => Returned ("open", "")
    | Fails e =>
        if isinstance e ConnectionRefusedError then Returned ("closed", "")
        else if isinstance e socket_timeout then Returned ("filtered", "")
        else if isinstance e OSError then Returned ("error", str e)
        else Raised e
    end in
  match try_ with
  | Raised e => Raised e
  | Returned (state, err) =>
      match int_of_float (elapsed_ms t0 (t_end w)) with
      | Raised e => Raised e
      | Returned lat =>
          Returned (host, port,
                    {| proto := "tcp"; state := state;
                       latency_ms := lat; error := err |})
      end
  end.

(** ** The orchestrator

    [scan] is modelled with what it leaves behind: the document it returns
    and the trace of what it did.  The two callbacks are known by their
    calls only ([on_result] and [on_progress] say whether one was given);
    a callback that calls [stop()] is a call of [stop()] by the world.
    Callbacks and [pool.submit] themselves are taken not to raise. *)

(** A Probe Unit handed to the pool: [pool.submit(self._tcp_probe, host, p)].
    The future is known by its position in [futs]. *)
Definition unit_ : Type := (string * Z)%type.
Definition future : Type := (nat * unit_)%type.

(** What one call of [scan] reads from outside. *)
Record scan_world : Type := mk_scan_world {
  (** [stop_calls k]: another thread calls [stop()] after the previous
      read of [self._stop] and before read number [k] *)
  stop_calls : nat -> bool;
  (** [completion i]: which of the futures still pending is the [i]-th to
      complete (taken modulo their number) *)
  completion : nat -> nat;
  (** the world in which the probe of the [i]-th submitted future runs *)
  probe_worlds : nat -> probe_world;
  (** the two readings of [time.time()] of [scan] itself *)
  t_started : float;
  t_ended : float
}.

(** What [scan] does that can be seen from outside, in order. *)
Inductive event : Type :=
| Poll (stopped : bool)                       (* [if self._stop] *)
| Submit (host : string) (port : Z)           (* [pool.submit(...)] *)
| LogWorkerFailure                            (* [logging.exception(...)] *)
| Store (host : string) (port : Z) (info : Info) (* [results...["tcp"] = info] *)
| OnResult (host : string) (port : Z) (info : Info)
| OnProgress (done total : Z).

(** The flag [self._stop] as the scanning thread sees it.  Only [stop()]
    writes it, and only [True]. *)
Record flag_state : Type := mk_flag { flag : bool; reads : nat }.

Definition read_stop (W : scan_world) (s : flag_state) : bool * flag_state :=
  let b := flag s || stop_calls W (reads s) in
  (b, {| flag := b; reads := S (reads s) |}).

(** [{t:{} for t in targets}] *)
Definition PortMap : Type := dict Z (dict string Info).
Definition Results : Type := dict string PortMap.

Definition init_results (targets : list string) : Results :=
  fold_left (fun d t => set String.eqb d t []) targets [].

(** [for p in ports: if self._stop: break; if do_tcp: futs.append(...)] *)
Fixpoint submit_ports (W : scan_world) (do_tcp : bool) (host : string)
    (ports : list Z) (s : flag_state)
  : flag_state * list unit_ * list event :=
  match ports with
  | [] => (s, [], [])
  | p :: ps =>
      let (b, s1) := read_stop W s in
      if b then (s1, [], [Poll true])
      else
        let '(s2, us, tr) := submit_ports W do_tcp host ps s1 in
        if do_tcp then (s2, (host, p) :: us, Poll false :: Submit host p :: tr)
        else (s2, us, Poll false :: tr)
  end.

(** [for host in targets: ...] *)
Fixpoint submit_targets (W : scan_world) (do_tcp : bool)
    (targets : list string) (ports : list Z) (s : flag_state)
  : flag_state * list unit_ * list event :=
  match targets with
  | [] => (s, [], [])
  | h :: hs =>
      let '(s1, us1, tr1) := submit_ports W do_tcp h ports s in
      let '(s2, us2, tr2) := submit_targets W do_tcp hs ports s1 in
      (s2, us1 ++ us2, tr1 ++ tr2)
  end.

(** [as_completed(futs)]: the pending futures, each once, in the order the
    world completes them. *)
Fixpoint take_nth {A : Type} (k : nat) (l : list A) : option (A * list A) :=
  match l with
  | [] => None
  | x :: l' =>
      match k with
      | O => Some (x, l')
      | S k' => match take_nth k' l' with
                | Some (y, r) => Some (y, x :: r)
                | None => None
                end
      end
  end.

Fixpoint as_completed_from {A : Type} (n : nat) (choice : nat -> nat)
    (i : nat) (pending : list A) : list A :=
  match n with
  | O => []
  | S n' =>
      match take_nth (choice i mod List.length pending) pending with
      | Some (f, rest) => f :: as_completed_from n' choice (S i) rest
      | None => []
      end
  end.

Definition as_completed {A : Type} (choice : nat -> nat) (futs : list A)
  : list A :=
  as_completed_from (List.length futs) choice 0%nat futs.

(** [fut.result()] *)
Definition fut_result (self : PortScanner) (W : scan_world) (f : future)
  : result (string * Z * Info) :=
  let '(i, (host, port)) := f in
  _tcp_probe self host port (probe_worlds W i).

(** [results.setdefault(host, {}).setdefault(port, {})["tcp"] = info].
    The two dictionaries [setdefault] returns are the stored objects, so
    the assignment shows in [results]: written back here at their keys,
    which keeps every key at its place. *)
Definition record (results : Results) (host : string) (port : Z)
    (info : Info) : Results :=
  let (ports_map, results1) := setdefault String.eqb results host [] in
  let (entry, ports_map1) := setdefault Z.eqb ports_map port [] in
  let entry1 := set String.eqb entry "tcp" info in
  set String.eqb results1 host (set Z.eqb ports_map1 port entry1).

Definition call (supplied : bool) (e : event) : list event :=
  if supplied then [e] else [].

(** [for fut in as_completed(futs): ...] *)
Fixpoint drain (self : PortScanner) (W : scan_world)
    (on_result on_progress : bool) (total : Z)
    (completed : list future) (s : flag_state) (results : Results) (done : Z)
  : result (flag_state * Results * Z * list event) :=
  match completed with
  | [] => Returned (s, results, done, [])
  | fut :: rest =>
      let (b, s1) := read_stop W s in
      if b then Returned (s1, results, done, [Poll true])
      else
        match fut_result self W fut with
        | Raised e =>
            if isinstance e Exception_ then
              match drain self W on_result on_progress total rest s1
                          results done with
              | Raised e' => Raised e'
              | Returned (s2, results2, done2, tr) =>
                  Returned (s2, results2, done2,
                            Poll false :: LogWorkerFailure :: tr)
              end
            else Raised e
        | Returned (host, port, info) =>
            let results1 := record results host port info in
            let done1 := done + 1 in
            match drain self W on_result on_progress total rest s1
                        results1 done1 with
            | Raised e' => Raised e'
            | Returned (s2, results2, done2, tr) =>
                Returned (s2, results2, done2,
                          Poll false
                          :: Store host port info
                          :: call on_result (OnResult host port info)
                          ++ call on_progress (OnProgress done1 total)
                          ++ tr)
            end
        end
  end.

(** ** Per-host summary *)

Record Summary : Type := mk_summary {
  host : string;
  open_tcp : list Z;
  warnings : list string
}.

Definition firewall_advisory : string :=
  "many TCP timeouts/filtered â†’ possible firewall".

(** [v.get("tcp",{}).get("state")] *)
Definition tcp_state (v : dict string Info) : option string :=
  match get String.eqb v "tcp" with
  | Some info => Some (state info)
  | None => None
  end.

(** [v.get("tcp",{}).get("state") == s] *)
Definition state_is (s : string) (pv : Z * dict string Info) : bool :=
  match tcp_state (snd pv) with
  | Some x => String.eqb x s
  | None => false
  end.

(** The body of [for h, ports_map in results.items()]. *)
Definition summarize (entry : string * PortMap) : Summary :=
  let (h, ports_map) := entry in
  let opens := map fst (filter (state_is "open") (items ports_map)) in
  let filtered := map fst (filter (state_is "filtered") (items ports_map)) in
  let warns :=
    if (Z.max 5 (int_of ((1 # 2) * inject_Z (len ports_map))%Q)
        <=? Z.of_nat (List.length filtered))%Z
    then [firewall_advisory] else [] in
  {| host := h; open_tcp := opens; warnings := warns |}.

(** ** [scan] *)

Record Doc : Type := mk_doc {
  started_ms : Z;
  ended_ms : Z;
  targets : list string;
  results : Results;
  summaries : list Summary
}.

(** The document [scan] returns, with what it did on the way and the
    values of its locals [total], [done] and [futs] when it returns. *)
Record Run : Type := mk_run {
  doc : Doc;
  trace : list event;
  total : Z;
  done : Z;
  futs : list future
}.

(** [int(t*1000)] of a reading of the clock: the product is a float,
    rounded as floats are, and [int()] raises when it is no finite
    number. *)
Definition ms_of (t : float) : result Z :=
  int_of_float (float_mul t float_1000).

(** The two readings of the clock by [scan] can be turned into
    milliseconds: their products with 1000 are finite floats. *)
Definition clock_ok (W : scan_world) : Prop :=
  is_finite (float_mul (t_started W) float_1000) = true
  /\ is_finite (float_mul (t_ended W) float_1000) = true.

Definition scan (self : PortScanner) (targets : list string) (ports : list Z)
    (do_tcp do_udp : bool) (on_result on_progress : bool) (W : scan_world)
  : result Run :=
  (* [started = int(time.time()*1000)] *)
  match ms_of (t_started W) with
  | Raised e => Raised e
  | Returned started =>
  let total := Z.max 1 (Z.of_nat (List.length targets)
                        * Z.of_nat (List.length ports)) in
  let done := 0 in
  let results := init_results targets in
  (* [with ThreadPoolExecutor(max_workers=self.max_workers) as pool:] *)
  if max_workers self <=? 0
  then Raised {| cls := ValueError;
                 str := "max_workers must be greater than 0" |}
  else
    let '(s1, units, tr1) :=
      submit_targets W do_tcp targets ports
                     {| flag := _stop self; reads := 0 |} in
    let futs := combine (seq 0 (List.length units)) units in
    match drain self W on_result on_progress total
                (as_completed (completion W) futs) s1 results done with
    | Raised e => Raised e
    | Returned (_, results, done, tr2) =>
        let summaries := map summarize (items results) in
        (* [ended = int(time.time()*1000)] *)
        match ms_of (t_ended W) with
        | Raised e => Raised e
        | Returned ended =>
            Returned
              {| doc := {| started_ms := started; ended_ms := ended;
                           targets := targets; results := results;
                           summaries := summaries |};
                 trace := tr1 ++ tr2;
                 total := total;
                 done := done;
                 futs := futs |}
        end
    end
  end.

End Scanner.

(* ================================================================== *)
(** * common.py *)
(* ================================================================== *)

Module Common.
Import Py.

Definition TOP_PORTS : list Z :=
  [21;22;23;25;53;80;110;135;139;143;389;443;445;587;993;995;
   1433;1521;3306;3389;5432;5900;6379;8080;9000].

(** ** The [str] methods [parse_ports] uses, on the characters of the text
    (ASCII input). *)

Definition text : Type := list ascii.

Definition chr_eqb (a b : ascii) : bool := Ascii.eqb a b.

(** [c.isspace()]: tab, line feed, vertical tab, form feed, carriage
    return, the four separators 0x1c-0x1f, and space. *)
Definition isspace (c : ascii) : bool :=
  let n := nat_of_ascii c in
  ((9 <=? n)%nat && (n <=? 13)%nat)
  || ((28 <=? n)%nat && (n <=? 31)%nat)
  || (n =? 32)%nat.

Fixpoint lstrip (s : text) : text :=
  match s with
  | [] => []
  | c :: s' => if isspace c then lstrip s' else s
  end.

Definition rstrip (s : text) : text := rev (lstrip (rev s)).

(** [s.strip()] *)
Definition strip (s : text) : text := rstrip (lstrip s).

(** [s.lower()] *)
Definition lower_chr (c : ascii) : ascii :=
  let n := nat_of_ascii c in
  if ((65 <=? n)%nat && (n <=? 90)%nat)%bool then ascii_of_nat (n + 32) else c.

Definition lower (s : text) : text := map lower_chr s.

(** [s.split(sep)] for a separator of one character: never empty. *)
Fixpoint split (sep : ascii) (s : text) : list text :=
  match s with
  | [] => [[]]
  | c :: s' =>
      if chr_eqb c sep then [] :: split sep s'
      else match split sep s' with
           | t :: ts => (c :: t) :: ts
           | [] => [[c]]
           end
  end.

(** [sep in s] *)
Definition contains (sep : ascii) (s : text) : bool := existsb (chr_eqb sep) s.

(** [s.split(sep, 1)] when it has two parts, [None] when [sep] is not in
    [s] (the list then has one element). *)
Fixpoint split_once (sep : ascii) (s : text) : option (text * text) :=
  match s with
  | [] => None
  | c :: s' =>
      if chr_eqb c sep then Some ([], s')
      else match split_once sep s' with
           | Some (a, b) => Some (c :: a, b)
           | None => None
           end
  end.

(** ** [int(s)] of a text, base 10: blanks around, an optional sign, then
    digits, where single underscores may stand between two digits.  (The
    interpreter's bound on the length of a literal, 4300 digits unless
    configured otherwise, is left out.) *)

Definition digit (c : ascii) : option Z :=
  let n := nat_of_ascii c in
  if ((48 <=? n)%nat && (n <=? 57)%nat)%bool then Some (Z.of_nat (n - 48))
  else None.

(** [after_digit]: the previous character was a digit. *)
Fixpoint digits (acc : Z) (after_digit : bool) (s : text) : option Z :=
  match s with
  | [] => if after_digit then Some acc else None
  | c :: s' =>
      match digit c with
      | Some d => digits (10 * acc + d) true s'
      | None =>
          if (chr_eqb c "_" && after_digit)%bool then digits acc false s'
          else None
      end
  end.

Definition int_literal (s : text) : option Z :=
  match strip s with
  | [] => None
  | c :: s' =>
      if chr_eqb c "-" then option_map Z.opp (digits 0 false s')
      else if chr_eqb c "+" then digits 0 false s'
      else digits 0 false (c :: s')
  end.

Definition invalid_literal (s : text) : exn :=
  {| cls := ValueError;
     str := ("invalid literal for int() with base 10: '"
             ++ string_of_list_ascii s ++ "'")%string |}.

Definition int (s : text) : result Z :=
  match int_literal s with
  | Some n => Returned n
  | None => Raised (invalid_literal s)
  end.

(** ** [range], [set] and [sorted] *)

(** [range(lo, hi)] *)
Definition range (lo hi : Z) : list Z :=
  map (fun i => lo + Z.of_nat i) (seq 0 (Z.to_nat (hi - lo))).

(** A [set] of integers: its elements, each once.  The order in which a
    set is iterated is not fixed by the language; [parse_ports] only sorts
    what it iterates. *)
Definition set_add (out : list Z) (x : Z) : list Z :=
  if existsb (Z.eqb x) out then out else out ++ [x].

(** [out.update(xs)] *)
Definition set_update (out : list Z) (xs : list Z) : list Z :=
  fold_left set_add xs out.

(** [sorted(l)] *)
Fixpoint insert_sorted (x : Z) (l : list Z) : list Z :=
  match l with
  | [] => [x]
  | y :: l' => if x <=? y then x :: l else y :: insert_sorted x l'
  end.

Definition sorted (l : list Z) : list Z := fold_right insert_sorted [] l.

(** ** [parse_ports] *)

(** [for token in ...: ...] *)
Fixpoint collect (tokens : list text) (out : list Z) : result (list Z) :=
  match tokens with
  | [] => Returned out
  | token :: rest =>
      if contains "-" token then
        match split_once "-" token with
        | None =>
            Raised {| cls := ValueError;
                      str := "not enough values to unpack (expected 2, got 1)" |}
        | Some (a, b) =>
            match int a with
            | Raised e => Raised e
            | Returned a =>
                match int b with
                | Raised e => Raised e
                | Returned b =>
                    collect rest
                      (set_update out (range (Z.min a b) (Z.max a b + 1)))
                end
            end
        end
      else
        match int token with
        | Raised e => Raised e
        | Returned n => collect rest (set_add out n)
        end
  end.

Definition nonblank (t : text) : bool :=
  match strip t with [] => false | _ :: _ => true end.

Definition in_port_range (p : Z) : bool := (1 <=? p) && (p <=? 65535).

Definition parse_ports (mode : string) (custom : string) : result (list Z) :=
  let m := lower (list_ascii_of_string mode) in
  if list_eq_dec ascii_dec m (list_ascii_of_string "quick")
  then Returned TOP_PORTS
  else if list_eq_dec ascii_dec m (list_ascii_of_string "full")
  then Returned (range 1 1025)
  else
    let tokens :=
      map strip (filter nonblank (split "," (list_ascii_of_string custom))) in
    match collect tokens [] with
    | Raised e => Raised e
    | Returned out => Returned (sorted (filter in_port_range out))
    end.

End Common.

(* ================================================================== *)
(** * Concrete worlds *)
(* ================================================================== *)

Module Worlds.
Import Py Scanner.

Definition scanner0 : PortScanner := __init__ 800 200.

Definition refused : exn :=
  mk_exn ConnectionRefusedError "[Errno 111] Connection refused".
Definition timed_out : exn := mk_exn socket_timeout "timed out".
Definition unreachable : exn :=
  mk_exn OSError "[Errno 101] Network is unreachable".
(** What resolving a host name with an empty label raises. *)
Definition idna_failure : exn :=
  mk_exn UnicodeError
    "encoding with 'idna' codec failed (UnicodeError: label empty or too long)".

(** A probe that takes a quarter of a second and ends as [c]. *)
Definition probe_with (c : connection) : probe_world :=
  {| t_begin := float_lit 100; attempt := fun _ _ _ => c;
     t_end := float_lit (401 # 4) |}.

(** The wall clock is set back by one second during the probe. *)
Definition clock_set_back : probe_world :=
  {| t_begin := float_lit 10; attempt := fun _ _ _ => Connected;
     t_end := float_lit 9 |}.

(** The readings [100.0] and [101.122]: the difference, a float, is a
    little below 1.122, and its product with 1000 rounds to 1122. *)
Definition clock_100_101_122 : probe_world :=
  {| t_begin := float_lit 100; attempt := fun _ _ _ => Connected;
     t_end := float_lit (101122 # 1000) |}.

(** The second reading is so large that the product with 1000 is an
    infinity. *)
Definition clock_overflow : probe_world :=
  {| t_begin := float_lit 100; attempt := fun _ _ _ => Connected;
     t_end := S754_finite false 4503599627370496 971 |}.

(** A scanner whose pool cannot be created. *)
Definition scanner_without_workers : PortScanner := __init__ 800 0.

(** Nobody calls [stop()]; futures complete in the order [order] picks;
    the first [n_filtered] probes time out and the others connect. *)
Definition quiet_world (order : nat -> nat) (n_filtered : nat) : scan_world :=
  {| stop_calls := fun _ => false;
     completion := order;
     probe_worlds := fun i =>
       if (i <? n_filtered)%nat then probe_with (Fails timed_out)
       else probe_with Connected;
     t_started := float_lit 1000;
     t_ended := float_lit 1001 |}.

Definition in_submission_order : nat -> nat := fun _ => 0%nat.
Definition last_submitted_first : nat -> nat := fun i =>
  match i with O => 1%nat | _ => 0%nat end.

(** Somebody calls [stop()] just before read number [k] of the flag; every
    probe connects. *)
Definition stopped_before_read (k : nat) : scan_world :=
  {| stop_calls := fun i => (i =? k)%nat;
     completion := in_submission_order;
     probe_worlds := fun _ => probe_with Connected;
     t_started := float_lit 1000;
     t_ended := float_lit 1001 |}.

(** The second probe raises what no [except] clause of the probe catches. *)
Definition second_probe_faults : scan_world :=
  {| stop_calls := fun _ => false;
     completion := in_submission_order;
     probe_worlds := fun i =>
       if (i =? 1)%nat then probe_with (Fails idna_failure)
       else probe_with Connected;
     t_started := float_lit 1000;
     t_ended := float_lit 1001 |}.

Definition ports_1_to (n : nat) : list Z := map Z.of_nat (seq 1 n).

End Worlds.

(* ================================================================== *)
(** * Reading a run *)
(* ================================================================== *)

Module Observations.
Import Py Scanner.

(** The parts of a trace. *)
Definition stores (tr : list event) : list (string * Z * Info) :=
  flat_map (fun e => match e with Store h p i => [(h, p, i)] | _ => [] end) tr.

Definition submits (tr : list event) : list unit_ :=
  flat_map (fun e => match e with Submit h p => [(h, p)] | _ => [] end) tr.

Definition polls (tr : list event) : list bool :=
  flat_map (fun e => match e with Poll b => [b] | _ => [] end) tr.

Definition progress_calls (tr : list event) : list (Z * Z) :=
  flat_map (fun e => match e with OnProgress d t => [(d, t)] | _ => [] end) tr.

Definition result_calls (tr : list event) : list (string * Z * Info) :=
  flat_map (fun e => match e with OnResult h p i => [(h, p, i)] | _ => [] end) tr.

Definition faults (tr : list event) : list event :=
  filter (fun e => match e with LogWorkerFailure => true | _ => false end) tr.

Definition is_stop (e : event) : bool :=
  match e with Poll true => true | _ => false end.

(** After the first poll that sees the flag set, the trace holds nothing
    but polls that see it set. *)
Fixpoint quiet_after_stop (tr : list event) : bool :=
  match tr with
  | [] => true
  | e :: tr' => if is_stop e then forallb is_stop tr' else quiet_after_stop tr'
  end.


(** Adding to the elements seen so far, as [first_occurrences] does. *)
Definition see {A : Type} (eqb : A -> A -> bool) (seen : list A) (x : A)
  : list A :=
  if existsb (eqb x) seen then seen else seen ++ [x].

(** The elements of a list, each once, in the order they first occur. *)
Definition first_occurrences {A : Type} (eqb : A -> A -> bool) (l : list A)
  : list A :=
  fold_left (see eqb) l [].

(** The ports stored for host [h], in the order of the stores. *)
Definition ports_stored_for (h : string) (st : list (string * Z * Info))
  : list Z :=
  map (fun hpi => snd (fst hpi))
      (filter (fun hpi => String.eqb (fst (fst hpi)) h) st).

(** [results] after the stores [st], starting from [r]. *)
Definition replay (st : list (string * Z * Info)) (r : Results) : Results :=
  fold_left (fun r hpi => record r (fst (fst hpi)) (snd (fst hpi)) (snd hpi))
            st r.

(** The state stored for a port in a port map is [s]. *)
Definition stored_state_is (s : string) (pm : PortMap) (p : Z) : bool :=
  match get Z.eqb pm p with
  | Some v => state_is s (p, v)
  | None => false
  end.

(** How many ports of a port map have the stored state [s]. *)
Definition count_state (s : string) (pm : PortMap) : Z :=
  Z.of_nat (List.length (filter (state_is s) (items pm))).

(** The state of the flag after [n] more reads. *)
Definition advance (W : scan_world) (s : flag_state) (n : nat) : flag_state :=
  {| flag := flag s || existsb (stop_calls W) (seq (reads s) n);
     reads := reads s + n |}.

(** What a loop does with the flag: its polls are the successive states of
    the flag, and it leaves the flag as its last poll found it. *)
Definition polls_from (W : scan_world) (s : flag_state) (tr : list event)
    (s' : flag_state) : Prop :=
  polls tr = map (fun j => flag (advance W s (S j)))
                 (seq 0 (List.length (polls tr)))
  /\ s' = advance W s (List.length (polls tr)).

(** Once the flag is seen set, a loop does nothing but see it set. *)
Definition settles (s : flag_state) (tr : list event) (s' : flag_state)
  : Prop :=
  quiet_after_stop tr = true
  /\ (flag s = true -> forallb is_stop tr = true)
  /\ (flag s = true \/ existsb is_stop tr = true -> flag s' = true).

(** What the submission loops leave in the trace: polls and submissions,
    one submission for each unit handed to the pool. *)
Definition submission_trace (tr : list event) (us : list unit_) : Prop :=
  submits tr = us /\ stores tr = [] /\ progress_calls tr = []
  /\ result_calls tr = [] /\ faults tr = [].

(** The counter values [d+1 .. d+n], each with [total]. *)
Definition counting (d total : Z) (n : nat) : list (Z * Z) :=
  map (fun k => (d + Z.of_nat k, total)) (seq 1 n).

(** [results.get(h, {})]: the port map of a host. *)
Definition port_map (r : Results) (h : string) : PortMap :=
  match get String.eqb r h with
  | Some pm => pm
  | None => []
  end.

(** Every dictionary of [results] has each of its keys once. *)
Definition well_keyed (r : Results) : Prop :=
  NoDup (keys r) /\ Forall (fun e => NoDup (keys (snd e))) r.

End Observations.

(* ================================================================== *)
(** * Port lists as the user writes them *)
(* ================================================================== *)

Module PortLists.
Import Py Common.

(** One entry of the list: a port, or a range given by its two ends, in
    either order. *)
Inductive item : Type :=
| Port (n : nat)
| Span (a b : nat).

(** [str(n)]: the decimal digits of [n]. *)
Definition digit_chr (d : nat) : ascii := ascii_of_nat (48 + d).

Fixpoint decimal_onto (fuel n : nat) (rest : text) : text :=
  match fuel with
  | O => rest
  | S fuel' =>
      let rest' := digit_chr (n mod 10) :: rest in
      if (n / 10 =? 0)%nat then rest'
      else decimal_onto fuel' (n / 10) rest'
  end.

Definition decimal (n : nat) : text := decimal_onto (S n) n [].

Definition write_item (it : item) : text :=
  match it with
  | Port n => decimal n
  | Span a b => decimal a ++ "-"%char :: decimal b
  end.

(** [sep.join(ts)] *)
Fixpoint join (sep : ascii) (ts : list text) : text :=
  match ts with
  | [] => []
  | [t] => t
  | t :: ts' => t ++ sep :: join sep ts'
  end.

(** The text of a list of entries: ["80,443,8000-8100"]. *)
Definition write (its : list item) : string :=
  string_of_list_ascii (join ","%char (map write_item its)).


(** The set [out] after the entries. *)
Definition take_item (out : list Z) (it : item) : list Z :=
  match it with
  | Port n => set_add out (Z.of_nat n)
  | Span a b =>
      set_update out (range (Z.min (Z.of_nat a) (Z.of_nat b))
                            (Z.max (Z.of_nat a) (Z.of_nat b) + 1))
  end.


(** The mode, as [parse_ports] compares it. *)
Definition mode_is (mode : string) (name : string) : Prop :=
  lower (list_ascii_of_string mode) = list_ascii_of_string name.

Definition is_digit (c : ascii) : bool :=
  match digit c with Some _ => true | None => false end.

(** Each element below the next. *)
Fixpoint ascending (l : list Z) : bool :=
  match l with
  | [] => true
  | x :: l' =>
      match l' with
      | [] => true
      | y :: _ => (x <? y) && ascending l'
      end
  end.

(** A character that is no blank and no comma. *)
Definition plain (c : ascii) : Prop :=
  isspace c = false /\ chr_eqb c "," = false /\ chr_eqb "," c = false.

End PortLists.

(* ================================================================== *)
(** * Reading a run: stores and cancellation *)
(* ================================================================== *)

Module RunFacts.
Import Py Scanner Observations.

(** Nobody has called [stop()] and nobody will: the flag is unset and no
    call comes before any later read. *)
Definition never_stopped (W : scan_world) (s : flag_state) : Prop :=
  flag s = false /\ forall k, (reads s <= k)%nat -> stop_calls W k = false.

(** What a completed future contributes to the stores. *)
Definition stored_of (self : PortScanner) (W : scan_world) (f : future)
  : list (string * Z * Info) :=
  match fut_result self W f with
  | Returned x => [x]
  | Raised _ => []
  end.

(** What a completed future contributes to the log of failures. *)
Definition failure_of (self : PortScanner) (W : scan_world) (f : future)
  : list event :=
  match fut_result self W f with
  | Returned _ => []
  | Raised _ => [LogWorkerFailure]
  end.

(** The probe of none of the futures [fs] raises. *)
Definition no_probe_raises (self : PortScanner) (W : scan_world)
    (fs : list future) : Prop :=
  Forall (fun f => exists x, fut_result self W f = Returned x) fs.

(** A stored result comes from the probe of a submitted future. *)
Definition probed (self : PortScanner) (W : scan_world) (fs : list future)
    (hpi : string * Z * Info) : Prop :=
  exists i, In (i, fst hpi) fs
            /\ _tcp_probe self (fst (fst hpi)) (snd (fst hpi))
                          (probe_worlds W i) = Returned hpi.

(** Every entry of [results] is a single ["tcp"] record, the one of a
    store. *)
Definition entries_stored (seen : list (string * Z * Info)) (r : Results)
  : Prop :=
  forall h pm p e, In (h, pm) r -> In (p, e) pm ->
                   exists i, e = [("tcp", i)] /\ In (h, p, i) seen.

End RunFacts.

(* ================================================================== *)
(** * common.py: hosts *)
(* ================================================================== *)

Module Hosts.
Import Py Common.

Definition SERVICE_MAP : dict Z string :=
  [(21, "ftp"); (22, "ssh"); (23, "telnet"); (25, "smtp"); (53, "dns");
   (80, "http"); (110, "pop3"); (135, "msrpc"); (139, "netbios");
   (143, "imap"); (389, "ldap"); (443, "https"); (445, "smb");
   (587, "smtp"); (993, "imaps"); (995, "pop3s"); (1433, "mssql");
   (1521, "oracle"); (3306, "mysql"); (3389, "rdp"); (5432, "postgres");
   (5900, "vnc"); (6379, "redis"); (8080, "http-alt")].

(** [[x.strip() for x in s.split(",") if x.strip()]] *)
Definition host_items (s : string) : list string :=
  map (fun x => string_of_list_ascii (strip x))
      (filter nonblank (split "," (list_ascii_of_string s))).

(** [dict.fromkeys(items)] *)
Definition fromkeys (items : list string) : dict string unit :=
  fold_left (fun d x => set String.eqb d x tt) items [].

(** [parse_hosts]: [list(dict.fromkeys(items))] *)
Definition parse_hosts (s : string) : list string :=
  keys (fromkeys (host_items s)).

(** ** Regular expressions, as far as the pattern of [validate_host] needs
    them: a character class, one expression after another, [(?:r)?] and
    [r{0,n}].  [matches r s k] tries the ways in which [r] matches a prefix
    of [s], the longest first, until the rest satisfies [k]. *)
Inductive regex : Type :=
| Cls (f : ascii -> bool)
| Cat (a b : regex)
| Opt (a : regex)
| Upto (n : nat) (a : regex).

Fixpoint matches (r : regex) (s : text) (k : text -> bool) {struct r} : bool :=
  match r with
  | Cls f =>
      match s with
      | c :: s' => f c && k s'
      | [] => false
      end
  | Cat a b => matches a s (fun s' => matches b s' k)
  | Opt a => matches a s k || k s
  | Upto n a =>
      (fix upto (n : nat) (s : text) {struct n} : bool :=
         match n with
         | O => k s
         | S n' => matches a s (fun s' => upto n' s') || k s
         end) n s
  end.

(** Nothing is left of the text. *)
Definition at_end (rest : text) : bool :=
  match rest with [] => true | _ :: _ => false end.

(** [bool(re.fullmatch(r, s))] *)
Definition fullmatch (r : regex) (s : text) : bool := matches r s at_end.

(** [[A-Za-z0-9]] *)
Definition alnum (c : ascii) : bool :=
  let n := nat_of_ascii c in
  ((65 <=? n)%nat && (n <=? 90)%nat)
  || ((97 <=? n)%nat && (n <=? 122)%nat)
  || ((48 <=? n)%nat && (n <=? 57)%nat).

(** [[A-Za-z0-9\-\.]] *)
Definition host_chr (c : ascii) : bool :=
  alnum c || chr_eqb c "-" || chr_eqb c ".".

(** [[A-Za-z0-9](?:[A-Za-z0-9\-\.]{0,253}[A-Za-z0-9])?] *)
Definition HOST_RE : regex :=
  Cat (Cls alnum) (Opt (Cat (Upto 253 (Cls host_chr)) (Cls alnum))).

(** [validate_host].  [ip_address h] says whether
    [ipaddress.ip_address(h)] returns (it raises [ValueError]
    otherwise). *)
Definition validate_host (ip_address : string -> bool) (h : string) : bool :=
  if ip_address h then true
  else fullmatch HOST_RE (list_ascii_of_string h).

(** A host name as the pattern describes it: one to 255 letters, digits,
    dashes and dots, the first and the last a letter or digit. *)
Definition host_shaped (t : text) : Prop :=
  (exists c, t = [c] /\ alnum c = true)
  \/ (exists c mid l,
        t = c :: mid ++ [l]
        /\ alnum c = true /\ alnum l = true
        /\ Forall (fun x => host_chr x = true) mid
        /\ (List.length mid <= 253)%nat).

(** The text of a list of hosts: ["a.example, 10.0.0.1"] without the
    blank. *)
Definition write_hosts (hs : list string) : string :=
  string_of_list_ascii
    (PortLists.join "," (map list_ascii_of_string hs)).

(** No blank at either end. *)
Definition trimmed (t : text) : Prop :=
  lstrip t = t /\ lstrip (rev t) = rev t.

End Hosts.

(* ================================================================== *)
(** * gui.py *)
(* ================================================================== *)

Module Gui.
Import Py Scanner Common Hosts.

(** ** [PortsValidator] *)

Inductive State : Type := Invalid | Intermediate | Acceptable.

(** [s.endswith(c)] for a text [c] of one character *)
Definition endswith (s : text) (c : ascii) : bool :=
  match rev s with
  | x :: _ => chr_eqb x c
  | [] => false
  end.

(** [except ValueError: return (QValidator.Invalid, ...)] *)
Definition invalid_on_ValueError (e : exn) : result State :=
  if isinstance e ValueError then Returned Invalid else Raised e.

(** [for token in tokens: ...], then [return (QValidator.Acceptable, ...)] *)
Fixpoint check_tokens (tokens : list text) : result State :=
  match tokens with
  | [] => Returned Acceptable
  | token :: rest =>
      match token with
      | [] => check_tokens rest
      | _ :: _ =>
          if contains "-" token then
            match split_once "-" token with
            | None =>
                invalid_on_ValueError
                  {| cls := ValueError;
                     str := "not enough values to unpack (expected 2, got 1)" |}
            | Some (a, b) =>
                match int a with
                | Raised e => invalid_on_ValueError e
                | Returned a =>
                    match int b with
                    | Raised e => invalid_on_ValueError e
                    | Returned b =>
                        if negb (in_port_range a && in_port_range b
                                 && (a <=? b))
                        then Returned Invalid
                        else check_tokens rest
                    end
                end
            end
          else
            match int token with
            | Raised e => invalid_on_ValueError e
            | Returned p =>
                if negb (in_port_range p) then Returned Invalid
                else check_tokens rest
            end
      end
  end.

(** [PortsValidator.validate] *)
Definition validate (input_text : string) (pos : Z)
  : result (State * string * Z) :=
  match list_ascii_of_string input_text with
  | [] => Returned (Acceptable, input_text, pos)
  | _ :: _ =>
      let tokens := map strip (split "," (list_ascii_of_string input_text)) in
      if endswith (list_ascii_of_string input_text) ","
         || endswith (list_ascii_of_string input_text) "-"
      then Returned (Intermediate, input_text, pos)
      else
        match check_tokens tokens with
        | Raised e => Raised e
        | Returned st => Returned (st, input_text, pos)
        end
  end.

(** ** [MainWindow.start_scan] *)

(** What the window holds when Start is pressed. *)
Record Form : Type := mk_form {
  worker_running : bool;       (* a worker exists and [isRunning()] *)
  hosts_edit : string;
  rb_quick : bool;
  rb_full : bool;
  custom_ports : string;
  timeout_spin : Z;
  threads_slider : Z
}.

(** The dictionary [params]. *)
Record Params : Type := mk_params {
  p_targets : list string;
  p_ports : list Z;
  p_timeout_ms : Z;
  p_threads : Z
}.

(** What [start_scan] does: nothing, a warning box, or a worker started
    with [params]. *)
Inductive Started : Type :=
| Nothing
| Warning (title message : string)
| Worker (params : Params).

(** [sep.join(l)] on strings *)
Fixpoint str_join (sep : string) (l : list string) : string :=
  match l with
  | [] => ""
  | [x] => x
  | x :: l' => (x ++ sep ++ str_join sep l')%string
  end.

Definition start_scan (ip_address : string -> bool) (form : Form)
  : result Started :=
  if worker_running form then Returned Nothing
  else
    let hosts := parse_hosts (hosts_edit form) in
    let bad := filter (fun h => negb (validate_host ip_address h)) hosts in
    match bad with
    | _ :: _ =>
        Returned (Warning "Invalid Hosts"
                          ("Invalid: " ++ str_join ", " bad)%string)
    | [] =>
        match hosts with
        | [] => Returned (Warning "Input" "Enter at least one host.")
        | _ :: _ =>
            let mode := if rb_quick form then "Quick"
                        else if rb_full form then "Full" else "Custom" in
            match parse_ports mode (custom_ports form) with
            | Raised e => Raised e
            | Returned ports =>
                match ports with
                | [] => Returned (Warning "Ports" "No ports resolved.")
                | _ :: _ =>
                    Returned (Worker {| p_targets := hosts;
                                        p_ports := ports;
                                        p_timeout_ms := timeout_spin form;
                                        p_threads := threads_slider form |})
                end
            end
        end
    end.

(** [ScanWorker.__init__] and [ScanWorker.run]: the scan of the worker. *)
Definition worker_run (params : Params) (W : scan_world) : result Run :=
  scan (__init__ (p_timeout_ms params) (p_threads params))
       (p_targets params) (p_ports params) true false true true W.

(** ** [MainWindow._materialize_results] *)

(** [sorted(l, key=key)]: equal keys stay in their order. *)
Fixpoint insert_by {A : Type} (key : A -> Z) (x : A) (l : list A) : list A :=
  match l with
  | [] => [x]
  | y :: l' => if key x <=? key y then x :: l else y :: insert_by key x l'
  end.

Definition sorted_by {A : Type} (key : A -> Z) (l : list A) : list A :=
  fold_right (insert_by key) [] l.

Module Exported.

(** One element of ["ports"]. *)
Record Entry : Type := mk_entry {
  port : Z;
  tcp : option string;
  service_guess : string;
  banner : string;
  tcp_latency_ms : option Z;
  tcp_error : option string
}.

(** One element of ["results"]. *)
Record HostEntry : Type := mk_host_entry {
  host : string;
  ports : list Entry
}.

(** The exported document. *)
Record Document : Type := mk_document {
  started_ms : Z;
  ended_ms : Z;
  targets : list string;
  results : list HostEntry;
  params : dict string string;
  summaries : list Summary
}.

End Exported.

(** The body of [for port, detail in ports.items()]. *)
Definition entry_of (pd : Z * dict string Info) : Exported.Entry :=
  let (port, detail) := pd in
  let t := get String.eqb detail "tcp" in
  {| Exported.port := port;
     Exported.tcp := option_map state t;
     Exported.service_guess :=
       match get Z.eqb SERVICE_MAP port with Some s => s | None => "" end;
     Exported.banner := "";
     Exported.tcp_latency_ms := option_map latency_ms t;
     Exported.tcp_error := option_map error t |}.

(** The body of [for host, ports in raw.get("results", {}).items()]. *)
Definition host_entry_of (hp : string * PortMap) : Exported.HostEntry :=
  let (host, ports) := hp in
  {| Exported.host := host;
     Exported.ports := sorted_by Exported.port (map entry_of (items ports)) |}.

Definition _materialize_results (raw : Doc) : Exported.Document :=
  {| Exported.started_ms := Scanner.started_ms raw;
     Exported.ended_ms := Scanner.ended_ms raw;
     Exported.targets := Scanner.targets raw;
     Exported.results := map host_entry_of (items (Scanner.results raw));
     Exported.params := [];
     Exported.summaries := Scanner.summaries raw |}.

(** An entry the validator lets through: ports from 1 to 65535, a range
    with its ends in order. *)
Definition valid_item (it : PortLists.item) : Prop :=
  match it with
  | PortLists.Port n => 1 <= Z.of_nat n <= 65535
  | PortLists.Span a b =>
      1 <= Z.of_nat a /\ Z.of_nat a <= Z.of_nat b /\ Z.of_nat b <= 65535
  end.

End Gui.

(* ================================================================== *)
(** * ai_engine.py *)
(* ================================================================== *)

Module AiEngine.
Import Py Scanner Gui.

(** The ["results"] of [ctx] in [LocalAI.analyze]: for each host of the
    document, the ports whose ["tcp"] is ["open"]. *)
Definition ctx_open_tcp (h : Exported.HostEntry) : list Z :=
  map Exported.port
      (filter (fun e => match Exported.tcp e with
                        | Some s => String.eqb s "open"
                        | None => false
                        end)
              (Exported.ports h)).

Definition ctx_results (scan_doc : Exported.Document)
  : list (string * list Z) :=
  map (fun h => (Exported.host h, ctx_open_tcp h)) (Exported.results scan_doc).

End AiEngine.

(* ================================================================== *)
(** * src/gui.py: the table of results and the progress bar *)
(* ================================================================== *)

Module GuiTable.
Import Py Scanner Common Observations PortLists Hosts Gui.

(** [str(n)] for an int. *)
Definition str_int (n : Z) : string :=
  string_of_list_ascii
    (if n <? 0 then "-"%char :: decimal (Z.to_nat (- n))
     else decimal (Z.to_nat n)).

Definition colour : Type := (Z * Z * Z)%type.

Definition STATE_COLOR : dict string colour :=
  [("open", (0, 170, 0)); ("closed", (200, 0, 0));
   ("filtered", (200, 160, 0)); ("error", (120, 120, 120))].

(** A row of the table: the texts of its six cells (Host, Port, TCP,
    Service, Banner, Notes) and the background of the TCP cell, [None]
    for a cell that was never coloured.  The foreground of that cell,
    always white once set, is left out. *)
Record TableRow : Type := mk_row {
  c_host : string;
  c_port : string;
  c_tcp : string;
  c_tcp_background : option colour;
  c_service : string;
  c_banner : string;
  c_notes : string
}.

Definition Table : Type := list TableRow.

(** What [_find_row] knows a row by: the texts of its first two cells. *)
Definition row_key (row : TableRow) : string * string :=
  (c_host row, c_port row).

(** [MainWindow._find_row]: the first row with this host and port text. *)
Fixpoint find_row_from (r : nat) (rows : Table) (host : string) (port : Z)
  : option nat :=
  match rows with
  | [] => None
  | row :: rest =>
      if String.eqb (c_host row) host
         && String.eqb (c_port row) (str_int port)
      then Some r
      else find_row_from (S r) rest host port
  end.

Definition _find_row (table : Table) (host : string) (port : Z)
  : option nat :=
  find_row_from 0 table host port.

(** [MainWindow._set_state_cell] on the TCP cell of a row. *)
Definition _set_state_cell (row : TableRow) (state : string) : TableRow :=
  {| c_host := c_host row;
     c_port := c_port row;
     c_tcp := state;
     c_tcp_background :=
       Some (match get String.eqb STATE_COLOR state with
             | Some c => c
             | None => (90, 90, 90)
             end);
     c_service := c_service row;
     c_banner := c_banner row;
     c_notes := c_notes row |}.

(** The row [_on_result] inserts when it finds none. *)
Definition blank_row (host : string) (port : Z) : TableRow :=
  {| c_host := host;
     c_port := str_int port;
     c_tcp := "";
     c_tcp_background := None;
     c_service := "";
     c_banner := "";
     c_notes := "" |}.

(** The list [notes] of [_on_result]. *)
Definition notes_of (info : option Info) : list string :=
  match info with
  | None => []
  | Some i =>
      (if String.eqb (error i) "" then [] else [error i])
      ++ [(str_int (latency_ms i) ++ "ms")%string]
  end.

(** The second half of [_on_result]: what it writes into the row. *)
Definition fill_row (port : Z) (data : dict string Info) (row : TableRow)
  : TableRow :=
  let info := get String.eqb data "tcp" in
  let row1 :=
    _set_state_cell row (match info with Some i => state i | None => "" end) in
  let svc := match get Z.eqb SERVICE_MAP port with
             | Some s => s
             | None => c_service row1
             end in
  {| c_host := c_host row1;
     c_port := c_port row1;
     c_tcp := c_tcp row1;
     c_tcp_background := c_tcp_background row1;
     c_service := svc;
     c_banner := c_banner row1;
     c_notes := str_join "; " (notes_of info) |}.

Fixpoint update_row (table : Table) (r : nat) (f : TableRow -> TableRow)
  : Table :=
  match table, r with
  | [], _ => []
  | row :: rest, O => f row :: rest
  | row :: rest, S r' => row :: update_row rest r' f
  end.

(** [MainWindow._on_result] *)
Definition _on_result (table : Table) (host : string) (port : Z)
    (data : dict string Info) : Table :=
  match _find_row table host port with
  | Some r => update_row table r (fill_row port data)
  | None => table ++ [fill_row port data (blank_row host port)]
  end.

(** The progress bar: its maximum and its value. *)
Record Bar : Type := mk_bar { maximum : Z; value : Z }.

(** [MainWindow._on_progress] *)
Definition _on_progress (bar : Bar) (done total : Z) : Bar :=
  {| maximum := Z.max 1 total; value := done |}.

(** The window receives the signals of the worker in the order in which
    [scan] called the callbacks; [on_result] is called with
    [{"tcp": info}]. *)
Definition deliver_results (calls : list (string * Z * Info)) (table : Table)
  : Table :=
  fold_left (fun t (c : string * Z * Info) =>
               _on_result t (fst (fst c)) (snd (fst c)) [("tcp", snd c)])
            calls table.

Definition deliver_progress (calls : list (Z * Z)) (bar : Bar) : Bar :=
  fold_left (fun b (c : Z * Z) => _on_progress b (fst c) (snd c)) calls bar.

(** The row of a result in a table that had no row for it. *)
Definition row_of (c : string * Z * Info) : TableRow :=
  fill_row (snd (fst c)) [("tcp", snd c)]
           (blank_row (fst (fst c)) (snd (fst c))).

(** The window after a scan started on a cleared table
    ([self.table.setRowCount(0)], [self.progress.setValue(0)]). *)
Definition table_after (run : Run) : Table :=
  deliver_results (result_calls (trace run)) [].

Definition bar_after (bar : Bar) (run : Run) : Bar :=
  deliver_progress (progress_calls (trace run))
                   {| maximum := maximum bar; value := 0 |}.

End GuiTable.

(* ================================================================== *)
(** * Facts about the runtime pieces *)
(* ================================================================== *)

Module PyFacts.
Import Py.

Lemma exc_class_eqb_refl c : exc_class_eqb c c = true.
Proof. destruct c; reflexivity. Qed.

(** Every class of the model derives from [Exception]. *)
Lemma all_derive_from_Exception e : isinstance e Exception_ = true.
Proof. destruct e as [c m]; destruct c; reflexivity. Qed.

Lemma refused_is_OSError e :
  isinstance e ConnectionRefusedError = true -> isinstance e OSError = true.
Proof. destruct e as [c m]; destruct c; cbv; congruence. Qed.

Lemma timeout_is_OSError e :
  isinstance e socket_timeout = true -> isinstance e OSError = true.
Proof. destruct e as [c m]; destruct c; cbv; congruence. Qed.

(** [int()] of a number that is not negative is not negative. *)
Lemma int_of_nonneg q : (0 <= q)%Q -> 0 <= int_of q.
Proof.
  destruct q as [n d]; unfold Qle, int_of; cbn [Qnum Qden]; intros H.
  apply Z.quot_pos; lia.
Qed.

(** [int(0.5 * n)] is [n // 2] for a length [n]. *)
Lemma int_of_half n : 0 <= n -> int_of ((1 # 2) * inject_Z n)%Q = n / 2.
Proof.
  intros Hn; unfold int_of.
  replace (Qnum ((1 # 2) * inject_Z n)) with n by (destruct n; reflexivity).
  replace (Z.pos (Qden ((1 # 2) * inject_Z n))) with 2 by reflexivity.
  apply Z.quot_div_nonneg; lia.
Qed.

(** ** Floats *)

Lemma binary_round_aux_sign prec emax s m e l :
  match binary_round_aux prec emax s m e l with
  | S754_zero s' | S754_infinity s' | S754_finite s' _ _ => s' = s
  | S754_nan => True
  end.
Proof.
  unfold binary_round_aux.
  destruct (shr_fexp prec emax m e l) as [mrs e'].
  destruct (shr_fexp prec emax _ e' loc_Exact) as [mrs' e''].
  destruct (shr_m mrs'); [reflexivity| |exact I].
  destruct (e'' <=? emax - prec); reflexivity.
Qed.

Lemma binary_round_sign prec emax s m e :
  match binary_round prec emax s m e with
  | S754_zero s' | S754_infinity s' | S754_finite s' _ _ => s' = s
  | S754_nan => True
  end.
Proof.
  unfold binary_round.
  destruct (shl_align m e _) as [mz ez]. apply binary_round_aux_sign.
Qed.

Lemma float_mul_not_negative x :
  not_negative x -> not_negative (float_mul x float_1000).
Proof.
  destruct x as [s|s| |s m e]; simpl; intros H.
  - exact I.
  - destruct s; [contradiction | exact I].
  - exact I.
  - destruct s; [contradiction|].
    pose proof (binary_round_aux_sign 53 1024 (xorb false false)
                  (Z.pos (m * 8796093022208000)) (e + -43) loc_Exact) as Hs.
    unfold float_mul, SFmul, float_1000.
    destruct (binary_round_aux 53 1024 (xorb false false) _ _ _)
      as [s'|s'| |s' m' e'];
      simpl in *; subst; exact I.
Qed.

Lemma shl_align_value m e ez :
  ez <= e -> Z.pos (fst (shl_align m e ez)) = Z.pos m * 2 ^ (e - ez).
Proof.
  intros H. unfold shl_align.
  destruct (ez - e) as [|d|d] eqn:E.
  - replace (e - ez) with 0 by lia. simpl. lia.
  - lia.
  - replace (e - ez) with (Z.pos d) by lia. cbn [fst].
    change (Pos.iter xO m d) with (shift_pos d m).
    rewrite shift_pos_correct, Z.pow_pos_fold. lia.
Qed.

Lemma two_power_pos (z : Z) : (0 < 2 ^ z)%Q.
Proof. apply Qpower_0_lt. reflexivity. Qed.

(** The value of an integer mantissa at exponent [e], brought to a lower
    exponent [ez]. *)
Lemma aligned_value (X e ez : Z) :
  ez <= e ->
  (inject_Z X * 2 ^ e == inject_Z (X * 2 ^ (e - ez)) * 2 ^ ez)%Q.
Proof.
  intros H. rewrite inject_Z_mult, Zpower_Qpower by lia.
  rewrite <- Qmult_assoc, <- Qpower_plus by discriminate.
  now replace (e - ez + ez) with e by lia.
Qed.

Lemma float_value_sign (s : bool) m e :
  if s return Prop then (float_value (S754_finite s m e) < 0)%Q
  else (0 < float_value (S754_finite s m e))%Q.
Proof.
  pose proof (two_power_pos e) as Hp. unfold float_value.
  destruct s; cbn [cond_Zopp].
  - setoid_replace 0%Q with (0 * 2 ^ e)%Q by ring.
    apply Qmult_lt_r; [exact Hp | reflexivity].
  - setoid_replace 0%Q with (0 * 2 ^ e)%Q by ring.
    apply Qmult_lt_r; [exact Hp | reflexivity].
Qed.

Lemma cond_Zopp_mul s a b : cond_Zopp s a * b = cond_Zopp s (a * b).
Proof. destruct s; simpl; lia. Qed.

(** [x - y] is not negative when [y <= x]. *)
Lemma float_sub_not_negative x y :
  is_finite x = true -> is_finite y = true ->
  (float_value y <= float_value x)%Q ->
  not_negative (float_sub x y).
Proof.
  destruct x as [sx|sx| |sx mx ex]; try discriminate;
    destruct y as [sy|sy| |sy my ey]; try discriminate; intros _ _ H.
  - destruct sx, sy; exact I.
  - pose proof (float_value_sign sy my ey) as Hs.
    destruct sy; [exact I|]. simpl in H, Hs.
    exfalso. apply (Qlt_not_le _ _ Hs). exact H.
  - pose proof (float_value_sign sx mx ex) as Hs.
    destruct sx; [|exact I]. simpl in H, Hs.
    exfalso. apply (Qlt_not_le _ _ Hs). exact H.
  - unfold float_sub, SFsub.
    set (ez := Z.min ex ey).
    assert (Hx : ez <= ex) by (subst ez; lia).
    assert (Hy : ez <= ey) by (subst ez; lia).
    rewrite (shl_align_value mx ex ez Hx), (shl_align_value my ey ez Hy).
    assert (HD : cond_Zopp sy (Z.pos my * 2 ^ (ey - ez))
                 <= cond_Zopp sx (Z.pos mx * 2 ^ (ex - ez))).
    { rewrite <- !cond_Zopp_mul, Zle_Qle.
      apply (Qmult_lt_0_le_reg_r _ _ (2 ^ ez)); [apply two_power_pos|].
      rewrite <- (aligned_value _ ey ez Hy), <- (aligned_value _ ex ez Hx).
      exact H. }
    destruct (cond_Zopp sx (Z.pos mx * 2 ^ (ex - ez))
              - cond_Zopp sy (Z.pos my * 2 ^ (ey - ez))) as [|d|d] eqn:E;
      [exact I| |lia].
    cbn [binary_normalize].
    pose proof (binary_round_sign 53 1024 false d ez) as Hs.
    destruct (binary_round 53 1024 false d ez) as [s'|s'| |s' m' e'];
      simpl in *; subst; exact I.
Qed.

Lemma int_of_float_not_negative x n :
  not_negative x -> int_of_float x = Returned n -> 0 <= n.
Proof.
  destruct x as [s|s| |s m e]; simpl; intros H E; try discriminate.
  - injection E as <-. lia.
  - destruct s; [contradiction|]. injection E as <-. simpl.
    apply Z.shiftl_nonneg. lia.
Qed.

(** Truncation of a positive float: the integer part. *)
Lemma int_of_float_floor m e :
  (inject_Z (Z.shiftl (Z.pos m) e) <= inject_Z (Z.pos m) * 2 ^ e
   /\ inject_Z (Z.pos m) * 2 ^ e < inject_Z (Z.shiftl (Z.pos m) e + 1))%Q.
Proof.
  destruct (Z_le_gt_dec 0 e) as [He|He].
  - rewrite Z.shiftl_mul_pow2 by exact He.
    change (2 ^ e)%Q with (inject_Z 2 ^ e)%Q.
    rewrite <- Zpower_Qpower, <- inject_Z_mult by exact He.
    split; [apply Qle_refl|]. rewrite <- Zlt_Qlt. lia.
  - assert (Hs : Z.shiftl (Z.pos m) e = Z.pos m / 2 ^ (- e)).
    { rewrite <- (Z.opp_involutive e) at 1.
      rewrite Z.shiftl_opp_r. apply Z.shiftr_div_pow2. lia. }
    rewrite Hs.
    assert (Hk : 0 < 2 ^ (- e)) by (apply Z.pow_pos_nonneg; lia).
    pose proof (Z.mul_div_le (Z.pos m) (2 ^ (- e)) Hk) as Hlo.
    pose proof (Z.mul_succ_div_gt (Z.pos m) (2 ^ (- e)) Hk) as Hhi.
    assert (Hv : (inject_Z (Z.pos m) * 2 ^ e * inject_Z (2 ^ (- e))
                  == inject_Z (Z.pos m))%Q).
    { rewrite Zpower_Qpower by lia.
      rewrite <- Qmult_assoc, <- Qpower_plus by discriminate.
      replace (e + - e) with 0 by lia. simpl. ring. }
    assert (Hkq : (0 < inject_Z (2 ^ (- e)))%Q).
    { setoid_replace 0%Q with (inject_Z 0) by reflexivity.
      now rewrite <- Zlt_Qlt. }
    split.
    + apply (Qmult_lt_0_le_reg_r _ _ (inject_Z (2 ^ (- e))) Hkq).
      rewrite Hv, <- inject_Z_mult, <- Zle_Qle. lia.
    + apply (Qmult_lt_r _ _ (inject_Z (2 ^ (- e))) Hkq).
      rewrite Hv, <- inject_Z_mult, <- Zlt_Qlt. lia.
Qed.


Section DictFacts.
Context {K V : Type} (keq : K -> K -> bool).
Hypothesis keq_eq : forall a b, keq a b = true <-> a = b.

Lemma keq_refl a : keq a a = true.
Proof. now apply keq_eq. Qed.

Lemma keq_neq a b : a <> b -> keq a b = false.
Proof.
  intros H; destruct (keq a b) eqn:E; [|reflexivity].
  apply keq_eq in E; contradiction.
Qed.

Lemma get_set_same (d : dict K V) k v : get keq (set keq d k v) k = Some v.
Proof.
  induction d as [|[k' v'] d IH]; simpl.
  - now rewrite keq_refl.
  - destruct (keq k' k) eqn:E; simpl; rewrite E; auto.
Qed.

Lemma get_set_other (d : dict K V) k v k' :
  k <> k' -> get keq (set keq d k v) k' = get keq d k'.
Proof.
  intros Hne; induction d as [|[k0 v0] d IH]; simpl.
  - now rewrite keq_neq.
  - destruct (keq k0 k) eqn:E; simpl.
    + apply keq_eq in E; subst k0. now rewrite keq_neq.
    + now rewrite IH.
Qed.

Lemma get_None_not_in (d : dict K V) k :
  get keq d k = None <-> ~ In k (keys d).
Proof.
  induction d as [|[k0 v0] d IH]; simpl; [tauto|].
  destruct (keq k0 k) eqn:E.
  - apply keq_eq in E; subst. split; [discriminate | tauto].
  - rewrite IH. split; [intros H [H'|H']; [|tauto] | tauto].
    subst; rewrite keq_refl in E; discriminate.
Qed.

Lemma get_Some_in (d : dict K V) k v :
  get keq d k = Some v -> In (k, v) d.
Proof.
  induction d as [|[k0 v0] d IH]; simpl; [discriminate|].
  destruct (keq k0 k) eqn:E; intros H.
  - apply keq_eq in E; inversion H; subst; now left.
  - right; auto.
Qed.

(** Assigning to a key keeps the keys in place; a new key goes last. *)
Lemma keys_set_present (d : dict K V) k v :
  In k (keys d) -> keys (set keq d k v) = keys d.
Proof.
  induction d as [|[k0 v0] d IH]; simpl; [tauto|].
  destruct (keq k0 k) eqn:E; simpl; [reflexivity|].
  intros [H|H].
  - subst; rewrite keq_refl in E; discriminate.
  - now rewrite IH.
Qed.

Lemma keys_set_absent (d : dict K V) k v :
  ~ In k (keys d) -> keys (set keq d k v) = keys d ++ [k].
Proof.
  induction d as [|[k0 v0] d IH]; simpl; [reflexivity|].
  intros H. destruct (keq k0 k) eqn:E.
  - apply keq_eq in E; subst; tauto.
  - simpl; rewrite IH; tauto.
Qed.

Lemma NoDup_keys_set (d : dict K V) k v :
  NoDup (keys d) -> NoDup (keys (set keq d k v)).
Proof.
  intros H. destruct (get keq d k) eqn:E.
  - rewrite keys_set_present; auto.
    apply get_Some_in in E. unfold keys. now apply (in_map fst) in E.
  - apply get_None_not_in in E. rewrite keys_set_absent by auto.
    apply NoDup_app; auto.
    + constructor; [intros []|constructor].
    + intros x Hx [Hk|[]]; subst; auto.
Qed.

(** The entry of a key that is present, as [items] gives it. *)
Lemma in_items_get (d : dict K V) k v :
  NoDup (keys d) -> In (k, v) (items d) -> get keq d k = Some v.
Proof.
  induction d as [|[k0 v0] d IH]; simpl; [tauto|].
  intros Hnd [H|H].
  - inversion H; subst; now rewrite keq_refl.
  - inversion Hnd as [|? ? Hnot Hnd']; subst.
    destruct (keq k0 k) eqn:E; [|now apply IH].
    apply keq_eq in E; subst. exfalso; apply Hnot.
    now apply (in_map fst) in H.
Qed.
End DictFacts.

End PyFacts.

(* ================================================================== *)
(** * The probe *)
(* ================================================================== *)

Module ProbeProofs.
Import Py Scanner PyFacts Worlds.

(** The result of the probe when the [try] statement ended with [state]
    and [err]. *)
Lemma tcp_probe_returns_inv self host port w h p info :
  _tcp_probe self host port w = Returned (h, p, info) ->
  h = host /\ p = port /\ proto info = "tcp" /\
  int_of_float (elapsed_ms (t_begin w) (t_end w))
  = Returned (latency_ms info) /\
  match attempt w host port (timeout self) with
  | Connected => state info = "open" /\ error info = ""
  | Fails e =>
      isinstance e OSError = true /\
      ((state info = "closed" /\ error info = "") \/
       (state info = "filtered" /\ error info = "") \/
       (state info = "error" /\ error info = str e))
  end.
Proof.
  unfold _tcp_probe.
  destruct (int_of_float (elapsed_ms (t_begin w) (t_end w))) as [lat|x].
  - destruct (attempt w host port (timeout self)) as [|e].
    + intros H; inversion H; subst; simpl; auto 10.
    + destruct (isinstance e ConnectionRefusedError) eqn:E1.
      { intros H; inversion H; subst; simpl.
        repeat split; auto using refused_is_OSError. }
      destruct (isinstance e socket_timeout) eqn:E2.
      { intros H; inversion H; subst; simpl.
        repeat split; auto using timeout_is_OSError. }
      destruct (isinstance e OSError) eqn:E3.
      { intros H; inversion H; subst; simpl. repeat split; auto. }
      discriminate.
  - destruct (attempt w host port (timeout self)) as [|e]; [discriminate|].
    destruct (isinstance e ConnectionRefusedError); [discriminate|].
    destruct (isinstance e socket_timeout); [discriminate|].
    destruct (isinstance e OSError); discriminate.
Qed.

(** [int()] returns on the finite floats and on no other. *)
Lemma int_of_float_finite x :
  is_finite x = true <-> exists n, int_of_float x = Returned n.
Proof.
  destruct x; simpl; split; intros H; eauto; try discriminate;
    destruct H as [n H]; discriminate.
Qed.

(** The elapsed time is finite only when both readings are. *)
Lemma elapsed_finite_readings t0 t1 :
  is_finite (elapsed_ms t0 t1) = true ->
  is_finite t0 = true /\ is_finite t1 = true.
Proof.
  unfold elapsed_ms.
  destruct t0 as [s0|s0| |s0 m0 e0], t1 as [s1|s1| |s1 m1 e1];
    try (intros _; split; reflexivity);
    try (destruct s0); try (destruct s1); simpl; discriminate.
Qed.

(** The elapsed time is not negative when the clock did not go back. *)
Lemma elapsed_not_negative t0 t1 :
  is_finite (elapsed_ms t0 t1) = true ->
  (float_value t0 <= float_value t1)%Q ->
  not_negative (elapsed_ms t0 t1).
Proof.
  intros Hfin Hle. apply elapsed_finite_readings in Hfin as [H0 H1].
  apply float_mul_not_negative. now apply float_sub_not_negative.
Qed.

Lemma latency_not_negative t0 t1 lat :
  int_of_float (elapsed_ms t0 t1) = Returned lat ->
  (float_value t0 <= float_value t1)%Q ->
  0 <= lat.
Proof.
  intros Hlat Hle.
  apply (int_of_float_not_negative (elapsed_ms t0 t1)); [|exact Hlat].
  apply elapsed_not_negative; [|exact Hle].
  apply int_of_float_finite; eauto.
Qed.

(** The readings 100.0 and 101.122: the difference of the two floats is
    below 1.122, and yet its product with 1000 rounds to the float 1122. *)
Lemma latency_at_100_101_122 :
  float_lit 1000 = float_1000
  /\ float_lit (101122 # 1000) = S754_finite false 7115828148733739 (-46)
  /\ float_sub (float_lit (101122 # 1000)) (float_lit 100)
     = S754_finite false 5053038781909696 (-52)
  /\ (float_value (S754_finite false 5053038781909696 (-52)) * 1000
      < 1122)%Q
  /\ _tcp_probe scanner0 "h" 80 clock_100_101_122
     = Returned ("h", 80, {| proto := "tcp"; state := "open";
                             latency_ms := 1122; error := "" |}).
Proof.
  split; [reflexivity|]. split; [reflexivity|]. split; [reflexivity|].
  split; [vm_compute; reflexivity | reflexivity].
Qed.

(** C3, as amended.  When the elapsed time that [int()] is applied to is
    a finite float, the probe returns a result whenever the connection is
    established or the attempt raises an exception derived from [OSError]:
    in state open for a connection, closed for a
    [ConnectionRefusedError], filtered for a [socket.timeout], and error,
    with the text of the exception, for any other [OSError].  An exception
    that does not derive from [OSError] is not converted: it leaves the
    probe as it is.  And when the elapsed time is an infinity or a NaN the
    probe returns nothing. *)
Theorem tcp_probe_classifies (self : PortScanner) (host : string) (port : Z)
    (w : probe_world) :
  (is_finite (elapsed_ms (t_begin w) (t_end w)) = true ->
   exists lat,
     int_of_float (elapsed_ms (t_begin w) (t_end w)) = Returned lat /\
     (attempt w host port (timeout self) = Connected ->
      _tcp_probe self host port w
      = Returned (host, port, {| proto := "tcp"; state := "open";
                                 latency_ms := lat; error := "" |})) /\
     (forall e, attempt w host port (timeout self) = Fails e ->
                isinstance e ConnectionRefusedError = true ->
      _tcp_probe self host port w
      = Returned (host, port, {| proto := "tcp"; state := "closed";
                                 latency_ms := lat; error := "" |})) /\
     (forall e, attempt w host port (timeout self) = Fails e ->
                isinstance e ConnectionRefusedError = false ->
                isinstance e socket_timeout = true ->
      _tcp_probe self host port w
      = Returned (host, port, {| proto := "tcp"; state := "filtered";
                                 latency_ms := lat; error := "" |})) /\
     (forall e, attempt w host port (timeout self) = Fails e ->
                isinstance e ConnectionRefusedError = false ->
                isinstance e socket_timeout = false ->
                isinstance e OSError = true ->
      _tcp_probe self host port w
      = Returned (host, port, {| proto := "tcp"; state := "error";
                                 latency_ms := lat; error := str e |}))) /\
  (forall e, attempt w host port (timeout self) = Fails e ->
             isinstance e OSError = false ->
   _tcp_probe self host port w = Raised e) /\
  (is_finite (elapsed_ms (t_begin w) (t_end w)) = false ->
   forall r, _tcp_probe self host port w <> Returned r).
Proof.
  split; [|split].
  - intros Hfin. apply int_of_float_finite in Hfin as [lat Hlat].
    exists lat. split; [exact Hlat|].
    unfold _tcp_probe. rewrite Hlat.
    split; [|split; [|split]].
    + intros ->. reflexivity.
    + intros e -> ->. reflexivity.
    + intros e -> -> ->. reflexivity.
    + intros e -> -> -> ->. reflexivity.
  - intros e He Hos. unfold _tcp_probe. rewrite He.
    destruct (isinstance e ConnectionRefusedError) eqn:E1.
    { apply refused_is_OSError in E1; congruence. }
    destruct (isinstance e socket_timeout) eqn:E2.
    { apply timeout_is_OSError in E2; congruence. }
    now rewrite Hos.
  - intros Hinf [[h p] info] H.
    apply tcp_probe_returns_inv in H as (_ & _ & _ & Hlat & _).
    assert (Hfin : is_finite (elapsed_ms (t_begin w) (t_end w)) = true)
      by (apply int_of_float_finite; eauto).
    congruence.
Qed.

Lemma tcp_probe_classifies_witness :
  _tcp_probe scanner0 "h" 80 (probe_with (Fails unreachable))
  = Returned ("h", 80,
              {| proto := "tcp"; state := "error"; latency_ms := 250;
                 error := "[Errno 101] Network is unreachable" |})
  /\ _tcp_probe scanner0 "h" 80 (probe_with (Fails refused))
     = Returned ("h", 80, {| proto := "tcp"; state := "closed";
                             latency_ms := 250; error := "" |})
  /\ _tcp_probe scanner0 "a..b" 80 (probe_with (Fails idna_failure))
     = Raised idna_failure
  /\ forall r, _tcp_probe scanner0 "h" 80 clock_overflow <> Returned r.
Proof.
  destruct (tcp_probe_classifies scanner0 "h" 80
              (probe_with (Fails unreachable)))
    as (Hret & _ & _).
  destruct (Hret eq_refl) as (lat & Hlat & _ & _ & _ & Herr).
  injection Hlat as <-.
  destruct (tcp_probe_classifies scanner0 "h" 80 (probe_with (Fails refused)))
    as (Hret' & _ & _).
  destruct (Hret' eq_refl) as (lat & Hlat & _ & Hclosed & _).
  injection Hlat as <-.
  split; [exact (Herr unreachable eq_refl eq_refl eq_refl eq_refl)|].
  split; [exact (Hclosed refused eq_refl eq_refl)|].
  split.
  - apply (tcp_probe_classifies scanner0 "a..b" 80
             (probe_with (Fails idna_failure))); reflexivity.
  - apply (tcp_probe_classifies scanner0 "h" 80 clock_overflow). reflexivity.
Defined.

(** C3 as stated fails: the host name [a..b] passes [validate_host], its
    resolution raises [UnicodeError], which is no [OSError], and the probe
    raises it instead of returning a result. *)
Lemma tcp_probe_raises_UnicodeError :
  _tcp_probe scanner0 "a..b" 80 (probe_with (Fails idna_failure))
  = Raised idna_failure
  /\ ~ (exists r, _tcp_probe scanner0 "a..b" 80
                    (probe_with (Fails idna_failure)) = Returned r).
Proof.
  split; [reflexivity|]. intros [r H]. discriminate H.
Qed.

(** C4, as amended.  Every result the probe returns has a state among
    open, closed, filtered and error, and an integer [latency_ms], set on
    every outcome: it is [int()] of the float product of 1000 and the
    float difference of the two readings of the clock, and it is at least
    0 when the second reading is not before the first.  The error text is
    empty unless the state is error, where it is the text of the [OSError]
    caught; so it is non-empty exactly in state error as long as such
    errors carry a text. *)
Theorem tcp_probe_result_shape (self : PortScanner) (host : string)
    (port : Z) (w : probe_world) (h : string) (p : Z) (info : Info) :
  _tcp_probe self host port w = Returned (h, p, info) ->
  In (state info) ["open"; "closed"; "filtered"; "error"] /\
  int_of_float (float_mul (float_sub (t_end w) (t_begin w)) float_1000)
  = Returned (latency_ms info) /\
  (is_finite (t_begin w) = true /\ is_finite (t_end w) = true) /\
  ((float_value (t_begin w) <= float_value (t_end w))%Q ->
   0 <= latency_ms info) /\
  (error info <> "" -> state info = "error") /\
  (state info = "error" ->
   exists e, attempt w host port (timeout self) = Fails e
             /\ isinstance e OSError = true /\ error info = str e) /\
  ((forall e, attempt w host port (timeout self) = Fails e -> str e <> "") ->
   (error info <> "" <-> state info = "error")).
Proof.
  intros H. apply tcp_probe_returns_inv in H.
  destruct H as (-> & -> & _ & Hlat & Hcase).
  assert (Hstate : In (state info) ["open"; "closed"; "filtered"; "error"]).
  { destruct (attempt w host port (timeout self)).
    - destruct Hcase as [-> _]; simpl; auto.
    - destruct Hcase as [_ [[-> _]|[[-> _]|[-> _]]]]; simpl; auto. }
  assert (Hempty : error info <> "" -> state info = "error").
  { destruct (attempt w host port (timeout self)).
    - destruct Hcase as [_ ->]; congruence.
    - destruct Hcase as [_ [[_ ->]|[[_ ->]|[-> _]]]]; congruence. }
  assert (Herr : state info = "error" ->
                 exists e, attempt w host port (timeout self) = Fails e
                           /\ isinstance e OSError = true
                           /\ error info = str e).
  { destruct (attempt w host port (timeout self)) as [|e].
    - destruct Hcase as [-> _]; discriminate.
    - destruct Hcase as [Hos [[-> _]|[[-> _]|[_ He]]]]; try discriminate.
      intros _; exists e; auto. }
  split; [exact Hstate|]. split; [exact Hlat|]. split.
  { apply elapsed_finite_readings, int_of_float_finite. eauto. }
  split; [exact (latency_not_negative _ _ _ Hlat)|].
  split; [exact Hempty|]. split; [exact Herr|].
  intros Htext. split; [exact Hempty|].
  intros Hs. destruct (Herr Hs) as (e & Ha & _ & ->). now apply Htext.
Qed.

Lemma tcp_probe_result_shape_witness :
  In "error" ["open"; "closed"; "filtered"; "error"] /\
  0 <= 250 /\
  ("[Errno 101] Network is unreachable" <> "" <-> "error" = "error").
Proof.
  pose proof (tcp_probe_result_shape scanner0 "h" 80
                (probe_with (Fails unreachable)) "h" 80
                {| proto := "tcp"; state := "error"; latency_ms := 250;
                   error := "[Errno 101] Network is unreachable" |}
                eq_refl) as (H1 & _ & _ & H3 & _ & _ & H6).
  split; [exact H1|]. split.
  - apply H3. vm_compute. discriminate.
  - apply H6. intros e He. inversion He; subst. discriminate.
Defined.

(** C4 as stated fails: [time.time()] is the wall clock, and when it is
    set back during a probe the latency is negative. *)
Lemma tcp_probe_negative_latency :
  _tcp_probe scanner0 "h" 80 clock_set_back
  = Returned ("h", 80, {| proto := "tcp"; state := "open";
                          latency_ms := -1000; error := "" |})
  /\ ~ (0 <= -1000).
Proof. split; [reflexivity | lia]. Qed.

End ProbeProofs.

(* ================================================================== *)
(** * The orchestrator: its loops *)
(* ================================================================== *)

Module ScanProofs.
Import Py Scanner PyFacts Worlds Observations.

(** ** The loops return *)

Lemma drain_returns self W onr onp total completed :
  forall s r d, exists out,
    drain self W onr onp total completed s r d = Returned out.
Proof.
  induction completed as [|fut rest IH]; intros s r d; cbn [drain].
  - eexists; reflexivity.
  - destruct (read_stop W s) as [b s1]. destruct b; [eexists; reflexivity|].
    destruct (fut_result self W fut) as [[[h p] i]|e].
    + destruct (IH s1 (record r h p i) (d + 1)) as [[[[s2 r2] d2] tr] ->].
      eexists; reflexivity.
    + rewrite all_derive_from_Exception.
      destruct (IH s1 r d) as [[[[s2 r2] d2] tr] ->].
      eexists; reflexivity.
Qed.

(** The pool is created when [max_workers] is positive, and only then. *)
Lemma pool_created self :
  0 < max_workers self -> (max_workers self <=? 0) = false.
Proof. intros H. apply Z.leb_gt. exact H. Qed.

(** [scan] returns, and what it returns is put together from its two
    loops. *)
Lemma clock_read W :
  clock_ok W ->
  exists t0 t1, ms_of (t_started W) = Returned t0
                /\ ms_of (t_ended W) = Returned t1.
Proof.
  intros [H0 H1]. unfold ms_of.
  apply ProbeProofs.int_of_float_finite in H0 as [t0 H0].
  apply ProbeProofs.int_of_float_finite in H1 as [t1 H1].
  eauto.
Qed.

(** Without workers there is no pool: [scan] raises where it would create
    it. *)
Lemma scan_needs_workers self targets ports do_tcp do_udp onr onp W :
  clock_ok W ->
  max_workers self <= 0 ->
  scan self targets ports do_tcp do_udp onr onp W
  = Raised {| cls := ValueError;
              str := "max_workers must be greater than 0" |}.
Proof.
  intros Hc H. destruct (clock_read W Hc) as (t0 & t1 & H0 & H1).
  unfold scan. rewrite H0.
  now replace (max_workers self <=? 0) with true
    by (symmetry; apply Z.leb_le; lia).
Qed.

(** When the first reading of the clock cannot be turned into
    milliseconds, [scan] raises what [int()] raises. *)
Lemma scan_needs_clock self targets ports do_tcp do_udp onr onp W :
  is_finite (float_mul (t_started W) float_1000) = false ->
  exists e, scan self targets ports do_tcp do_udp onr onp W = Raised e
            /\ (cls e = OverflowError \/ cls e = ValueError).
Proof.
  intros H. unfold scan, ms_of.
  destruct (float_mul (t_started W) float_1000); try discriminate;
    eexists; split; try reflexivity; simpl; auto.
Qed.

Lemma scan_spec self targets ports do_tcp do_udp onr onp W :
  0 < max_workers self ->
  clock_ok W ->
  exists s1 units tr1 s2 r d tr2 t0 t1,
    submit_targets W do_tcp targets ports
                   {| flag := _stop self; reads := 0 |} = (s1, units, tr1)
    /\ drain self W onr onp
         (Z.max 1 (Z.of_nat (List.length targets) * Z.of_nat (List.length ports)))
         (as_completed (completion W) (combine (seq 0 (List.length units)) units))
         s1 (init_results targets) 0
       = Returned (s2, r, d, tr2)
    /\ ms_of (t_started W) = Returned t0
    /\ ms_of (t_ended W) = Returned t1
    /\ scan self targets ports do_tcp do_udp onr onp W
       = Returned
           {| doc := {| started_ms := t0; ended_ms := t1;
                        targets := targets; results := r;
                        summaries := map summarize (items r) |};
              trace := tr1 ++ tr2;
              total := Z.max 1 (Z.of_nat (List.length targets)
                                * Z.of_nat (List.length ports));
              done := d;
              futs := combine (seq 0 (List.length units)) units |}.
Proof.
  intros Hw Hck. destruct (clock_read W Hck) as (t0 & t1 & H0 & H1).
  unfold scan. rewrite H0, H1, (pool_created self Hw).
  destruct (submit_targets W do_tcp targets ports _) as [[s1 units] tr1].
  destruct (drain_returns self W onr onp
              (Z.max 1 (Z.of_nat (List.length targets) * Z.of_nat (List.length ports)))
              (as_completed (completion W) (combine (seq 0 (List.length units)) units))
              s1 (init_results targets) 0) as [[[[s2 r] d] tr2] Hd].
  exists s1, units, tr1, s2, r, d, tr2, t0, t1. rewrite Hd. auto.
Qed.

(** ** The summary of one host *)

Lemma summarize_host e : host (summarize e) = fst e.
Proof. destruct e; reflexivity. Qed.

Lemma summarize_open e :
  open_tcp (summarize e) = map fst (filter (state_is "open") (items (snd e))).
Proof. destruct e; reflexivity. Qed.

Lemma len_nonneg {K V} (d : dict K V) : 0 <= len d.
Proof. unfold len; lia. Qed.

Lemma summarize_warnings e :
  warnings (summarize e)
  = if Z.max 5 (len (snd e) / 2) <=? count_state "filtered" (snd e)
    then [firewall_advisory] else [].
Proof.
  destruct e as [h pm]; unfold summarize, count_state; simpl snd.
  rewrite int_of_half by apply len_nonneg.
  now rewrite length_map.
Qed.

Lemma Forall2_map_r {A B} (f : A -> B) (P : A -> B -> Prop) l :
  (forall a, In a l -> P a (f a)) -> Forall2 P l (map f l).
Proof.
  induction l as [|a l IH]; simpl; intros H; constructor; auto.
Qed.



(** ** Reading the flag *)


Lemma advance_0 W s : advance W s 0 = s.
Proof.
  destruct s as [f k]; unfold advance; simpl.
  now rewrite orb_false_r, Nat.add_0_r.
Qed.

Lemma advance_add W s a b : advance W (advance W s a) b = advance W s (a + b).
Proof.
  unfold advance; simpl. f_equal.
  - now rewrite seq_app, existsb_app, orb_assoc.
  - lia.
Qed.

Lemma read_stop_advance W s :
  read_stop W s = (flag (advance W s 1), advance W s 1).
Proof.
  unfold read_stop, advance; simpl.
  now rewrite orb_false_r, Nat.add_1_r.
Qed.

Lemma flag_advance_mono W s n : flag s = true -> flag (advance W s n) = true.
Proof. unfold advance; simpl; intros ->; reflexivity. Qed.


Lemma polls_from_nil W s : polls_from W s [] s.
Proof. split; [reflexivity | now rewrite advance_0]. Qed.

Lemma polls_app tr1 tr2 : polls (tr1 ++ tr2) = polls tr1 ++ polls tr2.
Proof. apply flat_map_app. Qed.

Lemma map_seq_from {A : Type} (f : nat -> A) b :
  forall a, map f (seq a b) = map (fun j => f (a + j)%nat) (seq 0 b).
Proof.
  induction b as [|b IH]; intros a; simpl; [reflexivity|].
  rewrite Nat.add_0_r. f_equal.
  rewrite (IH (S a)), <- seq_shift, map_map.
  apply map_ext; intros j. f_equal; lia.
Qed.

Lemma polls_from_app W s tr1 s1 tr2 s2 :
  polls_from W s tr1 s1 -> polls_from W s1 tr2 s2 ->
  polls_from W s (tr1 ++ tr2) s2.
Proof.
  intros [H1 ->] [H2 ->]. split.
  - rewrite polls_app, length_app, seq_app, map_app, <- H1. f_equal.
    rewrite map_seq_from. etransitivity; [exact H2|].
    apply map_ext; intros j. rewrite advance_add. do 2 f_equal; lia.
  - now rewrite polls_app, length_app, advance_add.
Qed.


Lemma polls_from_one W s b :
  flag (advance W s 1) = b -> polls_from W s [Poll b] (advance W s 1).
Proof. intros <-; split; reflexivity. Qed.

(** ** The submission loops *)

Lemma submit_ports_polls W do_tcp h ports :
  forall s s' us tr,
    submit_ports W do_tcp h ports s = (s', us, tr) -> polls_from W s tr s'.
Proof.
  induction ports as [|p ps IH]; intros s s' us tr; cbn [submit_ports].
  - intros H; inversion H; subst. apply polls_from_nil.
  - rewrite read_stop_advance.
    destruct (flag (advance W s 1)) eqn:Ef.
    + intros H; inversion H; subst. now apply polls_from_one.
    + destruct (submit_ports W do_tcp h ps (advance W s 1))
        as [[s2 us2] tr2] eqn:E.
      apply IH in E.
      assert (P1 : polls_from W s [Poll false] (advance W s 1))
        by now apply polls_from_one.
      destruct do_tcp; intros H; inversion H; subst.
      * apply (polls_from_app W s [Poll false] _ (Submit h p :: tr2) _ P1).
        destruct E as [E1 E2]; split; assumption.
      * apply (polls_from_app W s [Poll false] _ tr2 _ P1 E).
Qed.

Lemma submit_targets_polls W do_tcp ports targets :
  forall s s' us tr,
    submit_targets W do_tcp targets ports s = (s', us, tr) ->
    polls_from W s tr s'.
Proof.
  induction targets as [|h hs IH]; intros s s' us tr; cbn [submit_targets].
  - intros H; inversion H; subst. apply polls_from_nil.
  - destruct (submit_ports W do_tcp h ports s) as [[s1 us1] tr1] eqn:E1.
    destruct (submit_targets W do_tcp hs ports s1) as [[s2 us2] tr2] eqn:E2.
    intros H; inversion H; subst.
    eapply polls_from_app; eauto using submit_ports_polls.
Qed.



Lemma settles_nil s : settles s [] s.
Proof. repeat split; auto. intros [H|H]; [assumption|discriminate]. Qed.

Lemma quiet_app tr1 tr2 :
  quiet_after_stop tr1 = true ->
  (existsb is_stop tr1 = true -> forallb is_stop tr2 = true) ->
  quiet_after_stop tr2 = true ->
  quiet_after_stop (tr1 ++ tr2) = true.
Proof.
  induction tr1 as [|e tr1 IH]; simpl; intros H1 H12 H2; [assumption|].
  destruct (is_stop e); simpl in H12.
  - rewrite forallb_app, H1. simpl. now apply H12.
  - auto.
Qed.

Lemma settles_app s tr1 s1 tr2 s2 :
  settles s tr1 s1 -> settles s1 tr2 s2 -> settles s (tr1 ++ tr2) s2.
Proof.
  intros (Q1 & A1 & F1) (Q2 & A2 & F2). repeat split.
  - apply quiet_app; auto.
  - intros Hs. rewrite forallb_app, A1 by assumption. simpl. auto.
  - rewrite existsb_app. intros [H|H].
    + auto.
    + apply orb_true_iff in H as [H|H]; auto.
Qed.

Lemma submit_ports_settles W do_tcp h ports :
  forall s s' us tr,
    submit_ports W do_tcp h ports s = (s', us, tr) ->
    settles s tr s' /\ (flag s = true -> us = []).
Proof.
  induction ports as [|p ps IH]; intros s s' us tr; cbn [submit_ports].
  - intros H; inversion H; subst. split; [apply settles_nil | reflexivity].
  - rewrite read_stop_advance.
    destruct (flag (advance W s 1)) eqn:Ef.
    + intros H; inversion H; subst. repeat split; auto.
    + assert (Hs : flag s = false).
      { destruct (flag s) eqn:E; [|reflexivity].
        rewrite flag_advance_mono in Ef by assumption. discriminate. }
      destruct (submit_ports W do_tcp h ps (advance W s 1))
        as [[s2 us2] tr2] eqn:E.
      apply IH in E. destruct E as [(Q & A & F) _].
      destruct do_tcp; intros H; inversion H; subst.
      all: split; [|intros Hc; congruence].
      all: split; [exact Q|split]; [intros Hc; congruence|].
      all: simpl; intros [Hc|Hc]; [congruence | apply F; now right].
Qed.

Lemma submit_targets_settles W do_tcp ports targets :
  forall s s' us tr,
    submit_targets W do_tcp targets ports s = (s', us, tr) ->
    settles s tr s' /\ (flag s = true -> us = []).
Proof.
  induction targets as [|h hs IH]; intros s s' us tr; cbn [submit_targets].
  - intros H; inversion H; subst. split; [apply settles_nil | reflexivity].
  - destruct (submit_ports W do_tcp h ports s) as [[s1 us1] tr1] eqn:E1.
    destruct (submit_targets W do_tcp hs ports s1) as [[s2 us2] tr2] eqn:E2.
    apply submit_ports_settles in E1. apply IH in E2.
    destruct E1 as [S1 U1], E2 as [S2 U2].
    intros H; inversion H; subst. split.
    + eapply settles_app; eauto.
    + intros Hs. rewrite U1 by assumption.
      destruct S1 as (_ & _ & F1). rewrite U2; auto.
Qed.


Lemma submission_trace_app tr1 us1 tr2 us2 :
  submission_trace tr1 us1 -> submission_trace tr2 us2 ->
  submission_trace (tr1 ++ tr2) (us1 ++ us2).
Proof.
  unfold submission_trace, submits, stores, progress_calls, result_calls,
    faults.
  intros (A1 & B1 & C1 & D1 & E1) (A2 & B2 & C2 & D2 & E2).
  rewrite !flat_map_app, filter_app.
  rewrite A1, A2, B1, B2, C1, C2, D1, D2, E1, E2. repeat split.
Qed.

Lemma submit_ports_trace W do_tcp h ports :
  forall s s' us tr,
    submit_ports W do_tcp h ports s = (s', us, tr) ->
    submission_trace tr us.
Proof.
  induction ports as [|p ps IH]; intros s s' us tr; cbn [submit_ports].
  - intros H; inversion H; subst. repeat split.
  - destruct (read_stop W s) as [[|] s1].
    + intros H; inversion H; subst. repeat split.
    + destruct (submit_ports W do_tcp h ps s1) as [[s2 us2] tr2] eqn:E.
      apply IH in E. destruct E as (A & B & C & D & F).
      destruct do_tcp; intros H; inversion H; subst;
        repeat split; simpl; congruence.
Qed.

Lemma submit_targets_trace W do_tcp ports targets :
  forall s s' us tr,
    submit_targets W do_tcp targets ports s = (s', us, tr) ->
    submission_trace tr us.
Proof.
  induction targets as [|h hs IH]; intros s s' us tr; cbn [submit_targets].
  - intros H; inversion H; subst. repeat split.
  - destruct (submit_ports W do_tcp h ports s) as [[s1 us1] tr1] eqn:E1.
    destruct (submit_targets W do_tcp hs ports s1) as [[s2 us2] tr2] eqn:E2.
    intros H; inversion H; subst.
    eapply submission_trace_app; eauto using submit_ports_trace.
Qed.

(** The units handed to the pool are the first units of the product of
    targets and ports, target by target. *)
Lemma submit_ports_units W h ports :
  forall s s' us tr,
    submit_ports W true h ports s = (s', us, tr) ->
    exists n, us = map (pair h) (firstn n ports)
              /\ (n <= List.length ports)%nat
              /\ ((n < List.length ports)%nat -> flag s' = true).
Proof.
  induction ports as [|p ps IH]; intros s s' us tr; cbn [submit_ports].
  - intros H; inversion H; subst. exists 0%nat. simpl. repeat split; lia.
  - rewrite read_stop_advance.
    destruct (flag (advance W s 1)) eqn:Ef.
    + intros H; inversion H; subst. exists 0%nat. simpl.
      repeat split; auto; lia.
    + destruct (submit_ports W true h ps (advance W s 1))
        as [[s2 us2] tr2] eqn:E.
      apply IH in E. destruct E as (n & -> & Hn & Hf).
      intros H; inversion H; subst. exists (S n). simpl.
      repeat split; [lia|]. intros; apply Hf; lia.
Qed.

Lemma submit_ports_skip W h ports :
  forall s s' us tr,
    submit_ports W false h ports s = (s', us, tr) -> us = [].
Proof.
  induction ports as [|p ps IH]; intros s s' us tr; cbn [submit_ports].
  - intros H; now inversion H.
  - destruct (read_stop W s) as [[|] s1].
    + intros H; now inversion H.
    + destruct (submit_ports W false h ps s1) as [[s2 us2] tr2] eqn:E.
      apply IH in E. intros H; inversion H; subst. reflexivity.
Qed.

Lemma submit_targets_skip W ports targets :
  forall s s' us tr,
    submit_targets W false targets ports s = (s', us, tr) -> us = [].
Proof.
  induction targets as [|h hs IH]; intros s s' us tr; cbn [submit_targets].
  - intros H; now inversion H.
  - destruct (submit_ports W false h ports s) as [[s1 us1] tr1] eqn:E1.
    destruct (submit_targets W false hs ports s1) as [[s2 us2] tr2] eqn:E2.
    apply submit_ports_skip in E1. apply IH in E2.
    intros H; inversion H; subst. reflexivity.
Qed.

Lemma submit_targets_units W do_tcp ports targets :
  forall s s' us tr,
    submit_targets W do_tcp targets ports s = (s', us, tr) ->
    exists n, us = firstn n (list_prod targets ports).
Proof.
  destruct do_tcp.
  2:{ intros s s' us tr H. apply submit_targets_skip in H. subst.
      now exists 0%nat. }
  induction targets as [|h hs IH]; intros s s' us tr; cbn [submit_targets].
  - intros H; inversion H; subst. now exists 0%nat.
  - destruct (submit_ports W true h ports s) as [[s1 us1] tr1] eqn:E1.
    destruct (submit_targets W true hs ports s1) as [[s2 us2] tr2] eqn:E2.
    intros H; inversion H; subst.
    apply submit_ports_units in E1. destruct E1 as (n & -> & Hn & Hf).
    simpl list_prod.
    destruct (Nat.eq_dec n (List.length ports)) as [->|Hne].
    + apply IH in E2. destruct E2 as (m & ->).
      exists (List.length ports + m)%nat.
      rewrite firstn_all.
      rewrite firstn_app, length_map.
      rewrite (firstn_all2 (n := List.length ports + m)
                 (map (fun y => (h, y)) ports))
        by (rewrite length_map; lia).
      f_equal. f_equal. lia.
    + apply submit_targets_settles in E2. destruct E2 as [_ U2].
      rewrite U2 by (apply Hf; lia). rewrite app_nil_r.
      exists n. rewrite firstn_app, length_map.
      replace (n - List.length ports)%nat with 0%nat by lia.
      simpl. rewrite app_nil_r. now rewrite firstn_map.
Qed.


(** ** The completion loop *)

Lemma fut_result_unit self W f h p i :
  fut_result self W f = Returned (h, p, i) -> (h, p) = snd f.
Proof.
  destruct f as [k [host port]]; unfold fut_result; intros H.
  apply ProbeProofs.tcp_probe_returns_inv in H as (-> & -> & _).
  reflexivity.
Qed.

Lemma drain_polls self W onr onp total completed :
  forall s r d s' r' d' tr,
    drain self W onr onp total completed s r d = Returned (s', r', d', tr) ->
    polls_from W s tr s'.
Proof.
  induction completed as [|fut rest IH]; intros s r d s' r' d' tr;
    cbn [drain].
  - intros H; inversion H; subst. apply polls_from_nil.
  - rewrite read_stop_advance.
    destruct (flag (advance W s 1)) eqn:Ef.
    + intros H; inversion H; subst. now apply polls_from_one.
    + assert (P1 : polls_from W s [Poll false] (advance W s 1))
        by now apply polls_from_one.
      destruct (fut_result self W fut) as [[[h p] i]|e].
      * destruct (drain self W onr onp total rest (advance W s 1)
                    (record r h p i) (d + 1))
          as [[[[s2 r2] d2] tr2]|e'] eqn:E; [|discriminate].
        apply IH in E. intros H; inversion H; subst.
        apply (polls_from_app W s [Poll false] _ _ _ P1).
        destruct E as [E1 E2]. split; [|rewrite E2 at 1; f_equal].
        all: unfold polls in *; simpl; rewrite !flat_map_app;
          destruct onr, onp; simpl; auto.
      * rewrite all_derive_from_Exception.
        destruct (drain self W onr onp total rest (advance W s 1) r d)
          as [[[[s2 r2] d2] tr2]|e'] eqn:E; [|discriminate].
        apply IH in E. intros H; inversion H; subst.
        apply (polls_from_app W s [Poll false] _ _ _ P1).
        destruct E as [E1 E2]. split; assumption.
Qed.

Lemma drain_settles self W onr onp total completed :
  forall s r d s' r' d' tr,
    drain self W onr onp total completed s r d = Returned (s', r', d', tr) ->
    settles s tr s'.
Proof.
  induction completed as [|fut rest IH]; intros s r d s' r' d' tr;
    cbn [drain].
  - intros H; inversion H; subst. apply settles_nil.
  - rewrite read_stop_advance.
    destruct (flag (advance W s 1)) eqn:Ef.
    + intros H; inversion H; subst. repeat split; auto.
    + assert (Hs : flag s = false).
      { destruct (flag s) eqn:E; [|reflexivity].
        rewrite flag_advance_mono in Ef by assumption. discriminate. }
      destruct (fut_result self W fut) as [[[h p] i]|e].
      * destruct (drain self W onr onp total rest (advance W s 1)
                    (record r h p i) (d + 1))
          as [[[[s2 r2] d2] tr2]|e'] eqn:E; [|discriminate].
        apply IH in E. destruct E as (Q & A & F).
        intros H; inversion H; subst.
        split; [|split]; [|intros Hc; congruence|].
        -- destruct onr, onp; exact Q.
        -- intros [Hc|Hc]; [congruence|]. apply F; right.
           destruct onr, onp; exact Hc.
      * rewrite all_derive_from_Exception.
        destruct (drain self W onr onp total rest (advance W s 1) r d)
          as [[[[s2 r2] d2] tr2]|e'] eqn:E; [|discriminate].
        apply IH in E. destruct E as (Q & A & F).
        intros H; inversion H; subst.
        split; [exact Q|split]; [intros Hc; congruence|].
        intros [Hc|Hc]; [congruence|]. apply F; now right.
Qed.

Lemma stores_through_calls onr onp h p i d total tr :
  stores (call onr (OnResult h p i) ++ call onp (OnProgress d total) ++ tr)
  = stores tr.
Proof. destruct onr, onp; reflexivity. Qed.

Lemma faults_through_calls onr onp h p i d total tr :
  faults (call onr (OnResult h p i) ++ call onp (OnProgress d total) ++ tr)
  = faults tr.
Proof. destruct onr, onp; reflexivity. Qed.

Lemma submits_through_calls onr onp h p i d total tr :
  submits (call onr (OnResult h p i) ++ call onp (OnProgress d total) ++ tr)
  = submits tr.
Proof. destruct onr, onp; reflexivity. Qed.

Lemma result_calls_through_calls onr onp h p i d total tr :
  result_calls (call onr (OnResult h p i)
                ++ call onp (OnProgress d total) ++ tr)
  = (if onr then [(h, p, i)] else []) ++ result_calls tr.
Proof. destruct onr, onp; reflexivity. Qed.

Lemma progress_calls_through_calls onr onp h p i d total tr :
  progress_calls (call onr (OnResult h p i)
                  ++ call onp (OnProgress d total) ++ tr)
  = (if onp then [(d, total)] else []) ++ progress_calls tr.
Proof. destruct onr, onp; reflexivity. Qed.


Lemma counting_S d total n :
  counting d total (S n) = (d + 1, total) :: counting (d + 1) total n.
Proof.
  unfold counting. simpl. f_equal.
  rewrite <- seq_shift, map_map. apply map_ext; intros k.
  f_equal; lia.
Qed.

(** What the completion loop does: every future it takes either stores
    one result and counts it, or is logged as a failure and changes
    nothing. *)
Lemma drain_content self W onr onp total completed :
  forall s r d s' r' d' tr,
    drain self W onr onp total completed s r d = Returned (s', r', d', tr) ->
    r' = replay (stores tr) r
    /\ d' = d + Z.of_nat (List.length (stores tr))
    /\ progress_calls tr
       = (if onp then counting d total (List.length (stores tr)) else [])
    /\ result_calls tr = (if onr then stores tr else [])
    /\ submits tr = []
    /\ (List.length (stores tr) + List.length (faults tr)
        <= List.length completed)%nat
    /\ Forall (fun hpi => In (fst hpi) (map snd completed)) (stores tr).
Proof.
  induction completed as [|fut rest IH]; intros s r d s' r' d' tr;
    cbn [drain].
  - intros H; inversion H; subst. simpl.
    repeat split; auto; try lia;
      solve [destruct onp; reflexivity | destruct onr; reflexivity].
  - destruct (read_stop W s) as [[|] s1].
    + intros H; inversion H; subst. simpl.
      repeat split; auto; try lia;
      solve [destruct onp; reflexivity | destruct onr; reflexivity].
    + destruct (fut_result self W fut) as [[[h p] i]|e] eqn:Ef.
      * destruct (drain self W onr onp total rest s1 (record r h p i) (d + 1))
          as [[[[s2 r2] d2] tr2]|e'] eqn:E; [|discriminate].
        apply IH in E. destruct E as (Hr & Hd & Hp & Hc & Hs & Hl & Hu).
        intros H; inversion H; subst.
        cbn [stores submits faults progress_calls result_calls
             flat_map filter app].
        fold (stores (call onr (OnResult h p i)
                      ++ call onp (OnProgress (d + 1) total) ++ tr2)).
        fold (submits (call onr (OnResult h p i)
                       ++ call onp (OnProgress (d + 1) total) ++ tr2)).
        fold (faults (call onr (OnResult h p i)
                      ++ call onp (OnProgress (d + 1) total) ++ tr2)).
        fold (progress_calls (call onr (OnResult h p i)
                      ++ call onp (OnProgress (d + 1) total) ++ tr2)).
        fold (result_calls (call onr (OnResult h p i)
                      ++ call onp (OnProgress (d + 1) total) ++ tr2)).
        rewrite stores_through_calls, faults_through_calls,
          submits_through_calls, result_calls_through_calls,
          progress_calls_through_calls.
        cbn [List.length]. repeat split.
        -- lia.
        -- rewrite Hp. destruct onp; [|reflexivity].
           now rewrite counting_S.
        -- rewrite Hc. now destruct onr.
        -- exact Hs.
        -- lia.
        -- constructor.
           ++ simpl. left. symmetry. eapply fut_result_unit; eauto.
           ++ eapply Forall_impl; [|exact Hu]. simpl; auto.
      * rewrite all_derive_from_Exception.
        destruct (drain self W onr onp total rest s1 r d)
          as [[[[s2 r2] d2] tr2]|e'] eqn:E; [|discriminate].
        apply IH in E. destruct E as (Hr & Hd & Hp & Hc & Hs & Hl & Hu).
        intros H; inversion H; subst.
        change (stores (Poll false :: LogWorkerFailure :: tr2))
          with (stores tr2).
        change (faults (Poll false :: LogWorkerFailure :: tr2))
          with (LogWorkerFailure :: faults tr2).
        change (submits (Poll false :: LogWorkerFailure :: tr2))
          with (submits tr2).
        change (progress_calls (Poll false :: LogWorkerFailure :: tr2))
          with (progress_calls tr2).
        change (result_calls (Poll false :: LogWorkerFailure :: tr2))
          with (result_calls tr2).
        cbn [List.length]. repeat split; auto; try lia.
        eapply Forall_impl; [|exact Hu]. simpl; auto.
Qed.


(** ** [as_completed] yields every future once *)

Lemma take_nth_Some {A : Type} (l : list A) :
  forall k, (k < List.length l)%nat ->
  exists x r, take_nth k l = Some (x, r) /\ Permutation l (x :: r).
Proof.
  induction l as [|a l IH]; simpl; intros k Hk; [lia|].
  destruct k as [|k]; cbn [take_nth].
  - exists a, l. split; [reflexivity | apply Permutation_refl].
  - destruct (IH k) as (x & r & E & Hp); [lia|].
    exists x, (a :: r). rewrite E. split; [reflexivity|].
    rewrite Hp. apply perm_swap.
Qed.

Lemma as_completed_from_perm {A : Type} (choice : nat -> nat) n :
  forall i (l : list A), List.length l = n ->
  Permutation (as_completed_from n choice i l) l.
Proof.
  induction n as [|n IH]; intros i l Hl; cbn [as_completed_from].
  - destruct l; [constructor | discriminate].
  - destruct (take_nth_Some l (choice i mod List.length l))
      as (x & r & -> & Hp).
    { apply Nat.mod_upper_bound. lia. }
    rewrite Hp. constructor. apply IH.
    apply Permutation_length in Hp. simpl in Hp. lia.
Qed.

Lemma as_completed_perm {A : Type} (choice : nat -> nat) (l : list A) :
  Permutation (as_completed choice l) l.
Proof. now apply as_completed_from_perm. Qed.

Lemma map_snd_combine_seq {A : Type} (l : list A) :
  forall a, map snd (combine (seq a (List.length l)) l) = l.
Proof.
  induction l as [|x l IH]; intros a; simpl; [reflexivity|].
  now rewrite IH.
Qed.

(** ** [results] *)

Lemma string_eqb_eq a b : String.eqb a b = true <-> a = b.
Proof. apply String.eqb_eq. Qed.

Lemma Z_eqb_eq a b : Z.eqb a b = true <-> a = b.
Proof. apply Z.eqb_eq. Qed.

Section MoreDictFacts.
Context {K V : Type} (keq : K -> K -> bool).
Hypothesis keq_eq : forall a b, keq a b = true <-> a = b.

Lemma existsb_keq k (l : list K) : existsb (keq k) l = true <-> In k l.
Proof.
  rewrite existsb_exists. split.
  - intros (x & Hx & E). apply keq_eq in E. now subst.
  - intros H. exists k. split; [assumption | now apply keq_eq].
Qed.

Lemma keys_set (d : dict K V) k v :
  keys (set keq d k v) = see keq (keys d) k.
Proof.
  unfold see. destruct (existsb (keq k) (keys d)) eqn:E.
  - apply keys_set_present; auto. now apply existsb_keq.
  - apply keys_set_absent; auto. intros H. apply existsb_keq in H.
    congruence.
Qed.

Lemma set_set_same (d : dict K V) k v v' :
  set keq (set keq d k v) k v' = set keq d k v'.
Proof.
  induction d as [|[k0 v0] d IH]; simpl.
  - now rewrite (keq_refl keq keq_eq).
  - destruct (keq k0 k) eqn:E; simpl; rewrite E; [reflexivity|].
    now rewrite IH.
Qed.

Lemma set_Forall (P : K * V -> Prop) (d : dict K V) k v :
  Forall P d -> P (k, v) -> Forall P (set keq d k v).
Proof.
  intros Hd Hk. induction d as [|[k0 v0] d IH]; simpl.
  - now constructor.
  - inversion Hd; subst. destruct (keq k0 k) eqn:E.
    + apply keq_eq in E; subst. now constructor.
    + constructor; auto.
Qed.

Lemma get_in_keys (d : dict K V) k :
  In k (keys d) -> exists v, get keq d k = Some v.
Proof.
  intros H. destruct (get keq d k) eqn:E; [eauto|].
  apply (get_None_not_in keq keq_eq) in E. contradiction.
Qed.

(** Filtering the items and taking their keys is filtering the keys. *)
Lemma keys_filter_items (f : K * V -> bool) (d : dict K V) :
  NoDup (keys d) ->
  map fst (filter f (items d))
  = filter (fun k => match get keq d k with
                     | Some v => f (k, v)
                     | None => false
                     end) (keys d).
Proof.
  induction d as [|[k0 v0] d IH]; simpl; intros Hnd; [reflexivity|].
  inversion Hnd as [|? ? Hnot Hnd']; subst.
  rewrite (keq_refl keq keq_eq).
  assert (Htail :
    filter (fun k => match (if keq k0 k then Some v0 else get keq d k) with
                     | Some v => f (k, v)
                     | None => false
                     end) (keys d)
    = filter (fun k => match get keq d k with
                       | Some v => f (k, v)
                       | None => false
                       end) (keys d)).
  { apply filter_ext_in. intros k Hk.
    destruct (keq k0 k) eqn:E; [|reflexivity].
    apply keq_eq in E; subst. contradiction. }
  rewrite Htail, <- IH by assumption.
  unfold items. now destruct (f (k0, v0)).
Qed.
End MoreDictFacts.

(** *** Elements in the order they first occur *)
Section FirstOccurrences.
Context {A : Type} (eqb : A -> A -> bool).
Hypothesis eqb_eq : forall a b, eqb a b = true <-> a = b.

Lemma see_In seen x y : In y (see eqb seen x) <-> In y seen \/ y = x.
Proof.
  unfold see. destruct (existsb (eqb x) seen) eqn:E.
  - apply (existsb_keq eqb eqb_eq) in E. split; [auto|].
    intros [H|H]; subst; auto.
  - rewrite in_app_iff. simpl. intuition.
Qed.

Lemma see_NoDup seen x : NoDup seen -> NoDup (see eqb seen x).
Proof.
  unfold see. destruct (existsb (eqb x) seen) eqn:E; intros H; auto.
  apply NoDup_app; auto.
  - constructor; [intros []|constructor].
  - intros y Hy [Hx|[]]; subst.
    apply (existsb_keq eqb eqb_eq) in Hy. congruence.
Qed.

Lemma fold_see_In l : forall seen y,
  In y (fold_left (see eqb) l seen) <-> In y seen \/ In y l.
Proof.
  induction l as [|x l IH]; intros seen y; simpl; [tauto|].
  rewrite IH, see_In. intuition.
Qed.

Lemma fold_see_NoDup l : forall seen,
  NoDup seen -> NoDup (fold_left (see eqb) l seen).
Proof.
  induction l as [|x l IH]; intros seen H; simpl; auto using see_NoDup.
Qed.

Lemma fold_see_distinct l : forall seen,
  NoDup (seen ++ l) -> fold_left (see eqb) l seen = seen ++ l.
Proof.
  induction l as [|x l IH]; intros seen H; simpl.
  - now rewrite app_nil_r.
  - assert (Hx : existsb (eqb x) seen = false).
    { destruct (existsb (eqb x) seen) eqn:E; [|reflexivity].
      apply (existsb_keq eqb eqb_eq) in E.
      apply NoDup_remove_2 in H. exfalso; apply H.
      apply in_or_app; now left. }
    unfold see at 2. rewrite Hx.
    rewrite IH; rewrite <- app_assoc; [reflexivity | exact H].
Qed.

Lemma first_occurrences_In l y : In y (first_occurrences eqb l) <-> In y l.
Proof. unfold first_occurrences. rewrite fold_see_In. simpl. tauto. Qed.

Lemma first_occurrences_NoDup l : NoDup (first_occurrences eqb l).
Proof. apply fold_see_NoDup. constructor. Qed.

Lemma first_occurrences_distinct l :
  NoDup l -> first_occurrences eqb l = l.
Proof. intros H. now apply (fold_see_distinct l []). Qed.
End FirstOccurrences.


(** *** One store *)

Lemma record_eq r h p i :
  record r h p i
  = set String.eqb r h
      (set Z.eqb (port_map r h) p
         (set String.eqb
            (match get Z.eqb (port_map r h) p with
             | Some e => e
             | None => []
             end) "tcp" i)).
Proof.
  unfold record, setdefault, port_map.
  destruct (get String.eqb r h) as [pm|] eqn:E.
  - destruct (get Z.eqb pm p) eqn:E2; [reflexivity|].
    now rewrite (set_set_same Z.eqb Z_eqb_eq).
  - cbn [get set]. rewrite Z.eqb_refl.
    now rewrite (set_set_same String.eqb string_eqb_eq).
Qed.

Lemma keys_record r h p i :
  keys (record r h p i) = see String.eqb (keys r) h.
Proof. rewrite record_eq. apply (keys_set String.eqb string_eqb_eq). Qed.

Lemma port_map_record_same r h p i :
  port_map (record r h p i) h
  = set Z.eqb (port_map r h) p
      (set String.eqb
         (match get Z.eqb (port_map r h) p with
          | Some e => e
          | None => []
          end) "tcp" i).
Proof.
  rewrite record_eq at 1. unfold port_map at 1.
  now rewrite (get_set_same String.eqb string_eqb_eq).
Qed.

Lemma get_record_other r h p i h' :
  h <> h' -> get String.eqb (record r h p i) h' = get String.eqb r h'.
Proof.
  intros Hne. rewrite record_eq.
  now apply (get_set_other String.eqb string_eqb_eq).
Qed.

Lemma port_map_record_other r h p i h' :
  h <> h' -> port_map (record r h p i) h' = port_map r h'.
Proof. intros Hne. unfold port_map. now rewrite get_record_other. Qed.

Lemma port_map_NoDup r h : well_keyed r -> NoDup (keys (port_map r h)).
Proof.
  intros [_ Hf]. unfold port_map.
  destruct (get String.eqb r h) as [pm|] eqn:E; [|constructor].
  apply (get_Some_in String.eqb string_eqb_eq) in E.
  rewrite Forall_forall in Hf. apply (Hf _ E).
Qed.

Lemma well_keyed_record r h p i : well_keyed r -> well_keyed (record r h p i).
Proof.
  intros Hwk. pose proof (port_map_NoDup r h Hwk) as Hpm.
  destruct Hwk as [Hk Hf]. rewrite record_eq. split.
  - now apply (NoDup_keys_set String.eqb string_eqb_eq).
  - apply (set_Forall String.eqb string_eqb_eq); [assumption|]. simpl.
    now apply (NoDup_keys_set Z.eqb Z_eqb_eq).
Qed.

(** *** Replaying the stores *)

Lemma replay_cons h p i st r :
  replay ((h, p, i) :: st) r = replay st (record r h p i).
Proof. reflexivity. Qed.

Lemma well_keyed_replay st : forall r, well_keyed r -> well_keyed (replay st r).
Proof.
  induction st as [|[[h p] i] st IH]; intros r H; [exact H|].
  rewrite replay_cons. apply IH. now apply well_keyed_record.
Qed.

Lemma fold_see_present {A : Type} (eqb : A -> A -> bool)
    (eqb_eq : forall a b, eqb a b = true <-> a = b) (l seen : list A) :
  (forall x, In x l -> In x seen) -> fold_left (see eqb) l seen = seen.
Proof.
  induction l as [|x l IH]; simpl; intros H; [reflexivity|].
  assert (Hx : see eqb seen x = seen).
  { unfold see. destruct (existsb (eqb x) seen) eqn:E; [reflexivity|].
    assert (In x seen) as Hin by auto.
    apply (existsb_keq eqb eqb_eq) in Hin. congruence. }
  rewrite Hx. apply IH. auto.
Qed.

Lemma keys_replay st : forall r,
  keys (replay st r)
  = fold_left (see String.eqb) (map (fun hpi => fst (fst hpi)) st) (keys r).
Proof.
  induction st as [|[[h p] i] st IH]; intros r; [reflexivity|].
  rewrite replay_cons, IH, keys_record. reflexivity.
Qed.

Lemma ports_stored_for_cons h h0 p i st :
  ports_stored_for h ((h0, p, i) :: st)
  = if String.eqb h0 h then p :: ports_stored_for h st
    else ports_stored_for h st.
Proof.
  unfold ports_stored_for. simpl. now destruct (String.eqb h0 h).
Qed.

(** The ports of a host stand in its port map in the order in which they
    were first stored. *)
Lemma keys_port_map_replay h st : forall r,
  keys (port_map (replay st r) h)
  = fold_left (see Z.eqb) (ports_stored_for h st) (keys (port_map r h)).
Proof.
  induction st as [|[[h0 p] i] st IH]; intros r; [reflexivity|].
  rewrite replay_cons, IH, ports_stored_for_cons.
  destruct (String.eqb h0 h) eqn:E.
  - apply String.eqb_eq in E; subst h0.
    rewrite port_map_record_same, (keys_set Z.eqb Z_eqb_eq). reflexivity.
  - apply String.eqb_neq in E. now rewrite port_map_record_other.
Qed.

Lemma get_replay_untouched h st : forall r,
  ports_stored_for h st = [] ->
  get String.eqb (replay st r) h = get String.eqb r h.
Proof.
  induction st as [|[[h0 p] i] st IH]; intros r; [reflexivity|].
  rewrite replay_cons, ports_stored_for_cons.
  destruct (String.eqb h0 h) eqn:E; [discriminate|].
  apply String.eqb_neq in E. intros H.
  rewrite IH by assumption. now apply get_record_other.
Qed.

(** *** The initial [results] *)

Lemma init_results_from ts : forall d : Results,
  keys (fold_left (fun d t => set String.eqb d t []) ts d)
  = fold_left (see String.eqb) ts (keys d)
  /\ (well_keyed d ->
      well_keyed (fold_left (fun d t => set String.eqb d t []) ts d))
  /\ (Forall (fun e => snd e = []) d ->
      Forall (fun e => snd e = [])
             (fold_left (fun d t => set String.eqb d t []) ts d)).
Proof.
  induction ts as [|t ts IH]; intros d; cbn [fold_left]; [auto|].
  destruct (IH (set String.eqb d t [])) as (Hk & Hw & He).
  rewrite <- (keys_set String.eqb string_eqb_eq d t []).
  split; [exact Hk|split].
  - intros [Hnd Hf]. apply Hw. split.
    + now apply (NoDup_keys_set String.eqb string_eqb_eq).
    + apply (set_Forall String.eqb string_eqb_eq); [assumption|].
      simpl. constructor.
  - intros Hf. apply He.
    now apply (set_Forall String.eqb string_eqb_eq).
Qed.

Lemma keys_init_results ts :
  keys (init_results ts) = first_occurrences String.eqb ts.
Proof. apply (init_results_from ts []). Qed.

Lemma well_keyed_init_results ts : well_keyed (init_results ts).
Proof.
  apply (init_results_from ts []). split; constructor.
Qed.

Lemma init_results_empty ts : Forall (fun e => snd e = []) (init_results ts).
Proof. apply (init_results_from ts []). constructor. Qed.

Lemma get_init_results ts t :
  In t ts -> get String.eqb (init_results ts) t = Some [].
Proof.
  intros Hin.
  assert (Hk : In t (keys (init_results ts))).
  { rewrite keys_init_results.
    now apply (first_occurrences_In String.eqb string_eqb_eq). }
  destruct (get_in_keys String.eqb string_eqb_eq _ _ Hk) as [v Hv].
  rewrite Hv. f_equal.
  apply (get_Some_in String.eqb string_eqb_eq) in Hv.
  pose proof (init_results_empty ts) as He.
  rewrite Forall_forall in He. apply (He _ Hv).
Qed.

Lemma port_map_init_results ts h : port_map (init_results ts) h = [].
Proof.
  unfold port_map. destruct (get String.eqb (init_results ts) h) eqn:E;
    [|reflexivity].
  apply (get_Some_in String.eqb string_eqb_eq) in E.
  pose proof (init_results_empty ts) as He.
  rewrite Forall_forall in He. apply (He _ E).
Qed.


(** ** A whole run *)

Lemma trace_parts tr1 us tr2 :
  submission_trace tr1 us ->
  submits (tr1 ++ tr2) = us ++ submits tr2
  /\ stores (tr1 ++ tr2) = stores tr2
  /\ progress_calls (tr1 ++ tr2) = progress_calls tr2
  /\ result_calls (tr1 ++ tr2) = result_calls tr2
  /\ faults (tr1 ++ tr2) = faults tr2.
Proof.
  unfold submission_trace, submits, stores, progress_calls, result_calls,
    faults.
  intros (A & B & C & D & E).
  rewrite !flat_map_app, filter_app, A, B, C, D, E. auto.
Qed.

(** What every call of [scan] does. *)
Lemma scan_anatomy self tgts ports do_tcp do_udp onr onp W :
  0 < max_workers self ->
  clock_ok W ->
  exists run s',
    scan self tgts ports do_tcp do_udp onr onp W = Returned run
    /\ targets (doc run) = tgts
    /\ summaries (doc run) = map summarize (items (results (doc run)))
    /\ total run
       = Z.max 1 (Z.of_nat (List.length tgts) * Z.of_nat (List.length ports))
    /\ polls_from W {| flag := _stop self; reads := 0 |} (trace run) s'
    /\ settles {| flag := _stop self; reads := 0 |} (trace run) s'
    /\ submits (trace run) = map snd (futs run)
    /\ (exists n, map snd (futs run) = firstn n (list_prod tgts ports))
    /\ results (doc run) = replay (stores (trace run)) (init_results tgts)
    /\ done run = Z.of_nat (List.length (stores (trace run)))
    /\ progress_calls (trace run)
       = (if onp
          then counting 0 (total run) (List.length (stores (trace run)))
          else [])
    /\ result_calls (trace run) = (if onr then stores (trace run) else [])
    /\ (List.length (stores (trace run)) + List.length (faults (trace run))
        <= List.length (futs run))%nat
    /\ Forall (fun hpi => In (fst hpi) (map snd (futs run)))
              (stores (trace run)).
Proof.
  intros Hw Hck.
  destruct (scan_spec self tgts ports do_tcp do_udp onr onp W Hw Hck)
    as (s1 & units & tr1 & s2 & r & d & tr2 & t0 & t1 & Hsub & Hdrain & _ & _
        & Hscan).
  eexists; exists s2. split; [exact Hscan|]. cbn [doc trace total done futs
    targets summaries results].
  pose proof (submit_targets_polls _ _ _ _ _ _ _ _ Hsub) as P1.
  pose proof (submit_targets_settles _ _ _ _ _ _ _ _ Hsub) as [S1 _].
  pose proof (submit_targets_trace _ _ _ _ _ _ _ _ Hsub) as T1.
  pose proof (submit_targets_units _ _ _ _ _ _ _ _ Hsub) as U1.
  pose proof (drain_polls _ _ _ _ _ _ _ _ _ _ _ _ _ Hdrain) as P2.
  pose proof (drain_settles _ _ _ _ _ _ _ _ _ _ _ _ _ Hdrain) as S2.
  pose proof (drain_content _ _ _ _ _ _ _ _ _ _ _ _ _ Hdrain)
    as (Hr & Hd & Hp & Hc & Hs & Hl & Hu).
  destruct (trace_parts tr1 units tr2 T1) as (A & B & C & D & E).
  rewrite A, B, C, D, E, Hs, app_nil_r, map_snd_combine_seq.
  pose proof (as_completed_perm (completion W)
                (combine (seq 0 (List.length units)) units)) as Hperm.
  do 3 (split; [reflexivity|]).
  split; [eapply polls_from_app; eauto|].
  split; [eapply settles_app; eauto|].
  split; [reflexivity|].
  split; [exact U1|].
  split; [exact Hr|].
  split; [lia|].
  split; [exact Hp|].
  split; [exact Hc|].
  split.
  - apply Permutation_length in Hperm.
    eapply Nat.le_trans; [exact Hl|]. apply Nat.eq_le_incl. exact Hperm.
  - eapply Forall_impl; [|exact Hu]. intros hpi Hin.
    simpl in Hin.
    apply (Permutation_in _ (Permutation_map snd Hperm)) in Hin.
    now rewrite map_snd_combine_seq in Hin.
Qed.


End ScanProofs.

(* ================================================================== *)
(** * The orchestrator: what a scan returns *)
(* ================================================================== *)

Module ScanClaims.
Import Py Scanner PyFacts Worlds Observations ScanProofs.

(** C1, as amended.  For a scanner whose pool can be created
    ([max_workers] above 0) and readings of the clock that [int()] can
    turn into milliseconds, [scan] returns a document, and in every
    summary the warnings are either the one firewall advisory or nothing,
    and the advisory is there if and only if the number of ports of the
    host stored as filtered is at least [max(5, n // 2)], [n] being the
    number of ports stored for the host: the half is rounded down.  With 10
    ports stored, 5 filtered ports give the advisory and 4 do not. *)
Theorem firewall_warning_threshold (self : PortScanner)
    (targets : list string) (ports : list Z) (do_tcp do_udp : bool)
    (on_result on_progress : bool) (W : scan_world) :
  0 < max_workers self ->
  clock_ok W ->
  exists run,
    scan self targets ports do_tcp do_udp on_result on_progress W = Returned run
    /\ Forall2
         (fun (entry : string * PortMap) (s : Summary) =>
            host s = fst entry /\
            (warnings s = [firewall_advisory] \/ warnings s = []) /\
            (In firewall_advisory (warnings s) <->
             Z.max 5 (len (snd entry) / 2)
             <= count_state "filtered" (snd entry)) /\
            (len (snd entry) = 10 ->
             (count_state "filtered" (snd entry) = 5 ->
              warnings s = [firewall_advisory]) /\
             (count_state "filtered" (snd entry) = 4 -> warnings s = [])))
         (items (results (doc run))) (summaries (doc run)).
Proof.
  intros Hw Hck.
  destruct (scan_spec self targets ports do_tcp do_udp on_result on_progress W Hw Hck)
    as (s1 & units & tr1 & s2 & r & d & tr2 & t0 & t1 & _ & _ & _ & _ & Hscan).
  eexists; split; [exact Hscan|]. simpl.
  apply Forall2_map_r. intros e _.
  rewrite summarize_host, summarize_warnings.
  split; [reflexivity|].
  destruct (Z.leb_spec (Z.max 5 (len (snd e) / 2))
                       (count_state "filtered" (snd e))) as [Hle|Hlt].
  - split; [now left|]. split; [simpl; tauto|].
    intros H10. rewrite H10 in Hle. change (10 / 2) with 5 in Hle.
    split; [reflexivity|]. intros H4. lia.
  - split; [now right|]. split; [simpl; split; [tauto|lia]|].
    intros H10. rewrite H10 in Hlt. change (10 / 2) with 5 in Hlt.
    split; [|reflexivity]. intros H5. lia.
Qed.

Lemma firewall_warning_threshold_witness :
  exists run,
    scan scanner0 ["h"] (ports_1_to 10) true false true true
         (quiet_world in_submission_order 5) = Returned run
    /\ map warnings (summaries (doc run)) = [[firewall_advisory]].
Proof.
  destruct (firewall_warning_threshold scanner0 ["h"] (ports_1_to 10)
              true false true true (quiet_world in_submission_order 5)
              eq_refl (conj eq_refl eq_refl))
    as (run & Hrun & Hall).
  exists run. split; [exact Hrun|].
  assert (Hr : exists pm, items (results (doc run)) = [("h", pm)]
                          /\ len pm = 10
                          /\ count_state "filtered" pm = 5
                          /\ List.length (summaries (doc run)) = 1%nat).
  { vm_compute in Hrun. inversion Hrun; subst run; clear Hrun.
    eexists. split; [reflexivity|]. repeat split. }
  destruct Hr as (pm & Hitems & Hlen & Hcount & Hone).
  rewrite Hitems in Hall.
  inversion Hall as [|e s l l' Hs Hrest E1 E2]; subst.
  inversion Hrest; subst. simpl.
  destruct Hs as (_ & _ & _ & H10). simpl in H10.
  destruct (H10 Hlen) as [H5 _]. now rewrite (H5 Hcount).
Defined.


(** C1 as stated fails: with 11 ports stored for a host of which 5 are
    filtered the advisory is emitted, although 5 is below
    [max(5, ceil(0.5 * 11)) = 6]. *)
Lemma firewall_warning_at_5_of_11 :
  exists run pm,
    scan scanner0 ["h"] (ports_1_to 11) true false true true
         (quiet_world in_submission_order 5) = Returned run
    /\ results (doc run) = [("h", pm)]
    /\ len pm = 11
    /\ count_state "filtered" pm = 5
    /\ summaries (doc run)
       = [{| host := "h"; open_tcp := [6; 7; 8; 9; 10; 11];
             warnings := [firewall_advisory] |}]
    /\ ~ (Z.max 5 (Qceiling ((1 # 2) * inject_Z (len pm))%Q)
          <= count_state "filtered" pm).
Proof.
  eexists. eexists. split; [vm_compute; reflexivity|].
  split; [reflexivity|]. repeat split. vm_compute. intros H; apply H.
  reflexivity.
Qed.




(** ** Runs that submit nothing *)

Lemma summarize_empty t :
  summarize (t, []) = {| host := t; open_tcp := []; warnings := [] |}.
Proof. reflexivity. Qed.

Lemma summaries_of_empty (r : Results) :
  Forall (fun e => snd e = []) r ->
  map summarize (items r)
  = map (fun t => {| host := t; open_tcp := []; warnings := [] |}) (keys r).
Proof.
  unfold items, keys. induction r as [|[t pm] r IH]; intros H; [reflexivity|].
  inversion H as [|? ? Hpm Hr]; subst. simpl in Hpm; subst pm.
  cbn [map fst]. rewrite IH by assumption. reflexivity.
Qed.

Lemma summaries_init_results tgts :
  map summarize (items (init_results tgts))
  = map (fun t => {| host := t; open_tcp := []; warnings := [] |})
        (first_occurrences String.eqb tgts).
Proof.
  rewrite summaries_of_empty by apply init_results_empty.
  now rewrite keys_init_results.
Qed.

Lemma submit_targets_no_ports W do_tcp tgts :
  forall s, submit_targets W do_tcp tgts [] s = (s, [], []).
Proof.
  induction tgts as [|h hs IH]; intros s; cbn [submit_targets submit_ports];
    [reflexivity|].
  now rewrite IH.
Qed.

(** C5, as amended.  [scan] does not reject an empty list of targets or of
    ports: for a scanner whose pool can be created ([max_workers] above 0)
    and readings of the clock that [int()] can turn into milliseconds, it
    returns a document, stamped with these milliseconds.  No probe is submitted and no callback is
    called ([trace] is empty), [total] is 1 and [done] is 0; [results] has
    every target with an empty port map, and every summary is empty. *)
Theorem scan_accepts_empty_input (self : PortScanner)
    (tgts : list string) (ports : list Z) (do_tcp do_udp : bool)
    (on_result on_progress : bool) (W : scan_world) :
  0 < max_workers self ->
  clock_ok W ->
  tgts = [] \/ ports = [] ->
  exists started ended,
    ms_of (t_started W) = Returned started
    /\ ms_of (t_ended W) = Returned ended
    /\ scan self tgts ports do_tcp do_udp on_result on_progress W
       = Returned
           {| doc :=
                {| started_ms := started;
                   ended_ms := ended;
                   targets := tgts;
                   results := init_results tgts;
                   summaries :=
                     map (fun t => {| host := t; open_tcp := [];
                                      warnings := [] |})
                         (first_occurrences String.eqb tgts) |};
              trace := [];
              total := 1;
              done := 0;
              futs := [] |}.
Proof.
  intros Hw Hck Hempty.
  destruct (clock_read W Hck) as (t0 & t1 & H0 & H1).
  exists t0, t1. split; [exact H0|]. split; [exact H1|].
  destruct Hempty as [-> | ->]; unfold scan;
    rewrite H0, H1, (pool_created self Hw).
  - cbn [submit_targets]. reflexivity.
  - rewrite submit_targets_no_ports.
    cbn [List.length seq combine as_completed as_completed_from drain app].
    rewrite Z.mul_0_r. now rewrite summaries_init_results.
Qed.

Lemma scan_accepts_empty_input_witness :
  scan scanner0 ["h"] [] true false true true
       (quiet_world in_submission_order 0)
  = Returned
      {| doc := {| started_ms := 1000000; ended_ms := 1001000;
                   targets := ["h"]; results := [("h", [])];
                   summaries := [{| host := "h"; open_tcp := [];
                                    warnings := [] |}] |};
         trace := []; total := 1; done := 0; futs := [] |}.
Proof.
  destruct (scan_accepts_empty_input scanner0 ["h"] [] true false true true
              (quiet_world in_submission_order 0)
              eq_refl (conj eq_refl eq_refl) (or_intror eq_refl))
    as (started & ended & H0 & H1 & Hscan).
  injection H0 as <-. injection H1 as <-. exact Hscan.
Defined.

(** C5 as stated fails: [scan] has no check of its arguments, and a call
    with no target, or with no port, returns a document like any other. *)
Lemma scan_returns_on_empty_input :
  scan scanner0 [] [80] true false true true
       (quiet_world in_submission_order 0)
  = Returned
      {| doc := {| started_ms := 1000000; ended_ms := 1001000;
                   targets := []; results := []; summaries := [] |};
         trace := []; total := 1; done := 0; futs := [] |}
  /\ scan scanner0 ["h"] [] true false true true
          (quiet_world in_submission_order 0)
     = Returned
         {| doc := {| started_ms := 1000000; ended_ms := 1001000;
                      targets := ["h"]; results := [("h", [])];
                      summaries := [{| host := "h"; open_tcp := [];
                                       warnings := [] |}] |};
            trace := []; total := 1; done := 0; futs := [] |}
  /\ ~ (exists e, scan scanner0 [] [80] true false true true
                       (quiet_world in_submission_order 0) = Raised e)
  /\ ~ (exists e, scan scanner0 ["h"] [] true false true true
                       (quiet_world in_submission_order 0) = Raised e).
Proof.
  repeat split; try reflexivity; intros [e H]; discriminate H.
Qed.

(** C8, as amended.  For a scanner whose pool can be created
    ([max_workers] above 0) and readings of the clock that [int()] can
    turn into milliseconds, [scan] with [do_tcp = False] returns a
    document, and nothing is submitted: [futs] is empty, the trace holds polls of the flag only (no submission, no store, no call of
    [on_result] or [on_progress]), [done] stays 0, every target has an
    empty port map in [results], and every summary has no open port and no
    warning. *)
Theorem scan_without_tcp (self : PortScanner) (tgts : list string)
    (ports : list Z) (do_udp : bool) (on_result on_progress : bool)
    (W : scan_world) :
  0 < max_workers self ->
  clock_ok W ->
  exists run,
    scan self tgts ports false do_udp on_result on_progress W = Returned run
    /\ futs run = []
    /\ done run = 0
    /\ Forall (fun e => exists b, e = Poll b) (trace run)
    /\ submits (trace run) = []
    /\ stores (trace run) = []
    /\ result_calls (trace run) = []
    /\ progress_calls (trace run) = []
    /\ results (doc run) = init_results tgts
    /\ (forall t, In t tgts ->
                  get String.eqb (results (doc run)) t = Some [])
    /\ summaries (doc run)
       = map (fun t => {| host := t; open_tcp := []; warnings := [] |})
             (first_occurrences String.eqb tgts).
Proof.
  intros Hw Hck. destruct (clock_read W Hck) as (t0 & t1 & H0 & H1).
  unfold scan. rewrite H0, H1, (pool_created self Hw).
  destruct (submit_targets W false tgts ports
              {| flag := _stop self; reads := 0 |}) as [[s1 units] tr1] eqn:E.
  pose proof (submit_targets_skip _ _ _ _ _ _ _ E) as ->.
  pose proof (submit_targets_trace _ _ _ _ _ _ _ _ E) as (A & B & C & D & F).
  cbn [List.length seq combine as_completed as_completed_from drain].
  eexists; split; [reflexivity|]. cbn [futs done trace doc results summaries].
  rewrite app_nil_r.
  repeat split; auto using get_init_results, summaries_init_results.
  clear - A B C D F. apply Forall_forall. intros e He.
  destruct e as [b|h p| |h p i|h p i|d t]; [eauto|exfalso..].
  - apply in_split in He as (l1 & l2 & ->). unfold submits in A.
    rewrite flat_map_app in A. simpl in A.
    apply app_eq_nil in A as [_ A]. discriminate.
  - assert (Hf : In LogWorkerFailure (faults tr1))
      by (unfold faults; now apply filter_In).
    rewrite F in Hf. contradiction.
  - apply in_split in He as (l1 & l2 & ->). unfold stores in B.
    rewrite flat_map_app in B. simpl in B.
    apply app_eq_nil in B as [_ B]. discriminate.
  - apply in_split in He as (l1 & l2 & ->). unfold result_calls in D.
    rewrite flat_map_app in D. simpl in D.
    apply app_eq_nil in D as [_ D]. discriminate.
  - apply in_split in He as (l1 & l2 & ->). unfold progress_calls in C.
    rewrite flat_map_app in C. simpl in C.
    apply app_eq_nil in C as [_ C]. discriminate.
Qed.

Lemma scan_without_tcp_witness :
  exists run,
    scan scanner0 ["a"; "b"] [80; 443] false false true true
         (quiet_world in_submission_order 0) = Returned run
    /\ get String.eqb (results (doc run)) "b" = Some [].
Proof.
  destruct (scan_without_tcp scanner0 ["a"; "b"] [80; 443] false true true
              (quiet_world in_submission_order 0) eq_refl (conj eq_refl eq_refl))
    as (run & Hrun & _ & _ & _ & _ & _ & _ & _ & _ & Hget & _).
  exists run. split; [exact Hrun|]. apply Hget. simpl; auto.
Defined.

(** C8 as stated fails: a scanner made with [max_workers = 0] cannot
    create its pool, and [scan] raises [ValueError] instead of returning a
    document, with [do_tcp = False] as with [True]. *)
Lemma scan_without_tcp_raises :
  scan scanner_without_workers ["a"; "b"] [80; 443] false false true true
       (quiet_world in_submission_order 0)
  = Raised {| cls := ValueError;
              str := "max_workers must be greater than 0" |}
  /\ ~ (exists run,
          scan scanner_without_workers ["a"; "b"] [80; 443] false false
               true true (quiet_world in_submission_order 0)
          = Returned run).
Proof.
  split; [reflexivity|]. intros [run H]. discriminate H.
Qed.


(** ** The progress counter *)

Lemma counting_In d total n x t :
  In (x, t) (counting d total n) ->
  d + 1 <= x <= d + Z.of_nat n /\ t = total.
Proof.
  unfold counting. rewrite in_map_iff. intros (k & E & Hk).
  apply in_seq in Hk. inversion E; subst. lia.
Qed.





(** ** The hosts of the document *)

Lemma stores_hosts_in_targets tgts ports (us : list unit_) n st :
  us = firstn n (list_prod tgts ports) ->
  Forall (fun hpi : string * Z * Info => In (fst hpi) us) st ->
  forall x, In x (map (fun hpi => fst (fst hpi)) st) -> In x tgts.
Proof.
  intros -> Hst x Hx. apply in_map_iff in Hx as ([[h p] i] & <- & Hin).
  rewrite Forall_forall in Hst. specialize (Hst _ Hin). simpl in Hst.
  assert (Hin' : In (h, p) (list_prod tgts ports)).
  { rewrite <- (firstn_skipn n). apply in_or_app. now left. }
  now apply in_prod_iff in Hin'.
Qed.

Lemma map_host_summaries (r : Results) :
  map host (map summarize (items r)) = keys r.
Proof.
  unfold items, keys. rewrite map_map. apply map_ext. intros [h pm].
  reflexivity.
Qed.

(** C10.  In the document a scan returns (the scanner being one whose
    pool can be created: [max_workers] above 0; the readings of the clock
    being such that [int()] turns them into milliseconds), the keys of
    [results] and the hosts of [summaries] are the targets, each once, in
    the order in which they first occur in the list of targets: for a list of targets without repetition, the list itself.
    A target for which nothing was stored has an empty port map. *)
Theorem every_target_has_a_summary (self : PortScanner)
    (tgts : list string) (ports : list Z) (do_tcp do_udp : bool)
    (on_result on_progress : bool) (W : scan_world) :
  0 < max_workers self ->
  clock_ok W ->
  exists run,
    scan self tgts ports do_tcp do_udp on_result on_progress W = Returned run
    /\ keys (results (doc run)) = first_occurrences String.eqb tgts
    /\ map host (summaries (doc run)) = first_occurrences String.eqb tgts
    /\ (forall t, In t tgts ->
                  exists pm, get String.eqb (results (doc run)) t = Some pm)
    /\ (forall t, In t tgts ->
                  ports_stored_for t (stores (trace run)) = [] ->
                  get String.eqb (results (doc run)) t = Some [])
    /\ NoDup (map host (summaries (doc run)))
    /\ (forall t, In t (map host (summaries (doc run))) <-> In t tgts)
    /\ (NoDup tgts -> map host (summaries (doc run)) = tgts).
Proof.
  intros Hw Hck.
  destruct (scan_anatomy self tgts ports do_tcp do_udp on_result
              on_progress W Hw Hck)
    as (run & s' & Hrun & _ & Hsum & _ & _ & _ & _ & (n & Hunits) & Hres
        & _ & _ & _ & _ & Hst).
  exists run. split; [exact Hrun|].
  assert (Hkeys : keys (results (doc run)) = first_occurrences String.eqb tgts).
  { rewrite Hres, keys_replay, keys_init_results.
    apply (fold_see_present String.eqb string_eqb_eq).
    intros x Hx. apply (first_occurrences_In String.eqb string_eqb_eq).
    eapply stores_hosts_in_targets; eauto. }
  assert (Hhosts : map host (summaries (doc run))
                   = first_occurrences String.eqb tgts).
  { now rewrite Hsum, map_host_summaries. }
  split; [exact Hkeys|]. split; [exact Hhosts|].
  split; [|split; [|split; [|split]]].
  - intros t Ht. apply (get_in_keys String.eqb string_eqb_eq).
    rewrite Hkeys. now apply (first_occurrences_In String.eqb string_eqb_eq).
  - intros t Ht Hnone.
    rewrite Hres, get_replay_untouched by assumption.
    now apply get_init_results.
  - rewrite Hhosts. apply (first_occurrences_NoDup String.eqb string_eqb_eq).
  - intros t. rewrite Hhosts.
    apply (first_occurrences_In String.eqb string_eqb_eq).
  - intros Hnd. rewrite Hhosts.
    now apply (first_occurrences_distinct String.eqb string_eqb_eq).
Qed.

Lemma every_target_has_a_summary_witness :
  exists run,
    scan scanner0 ["a"; "b"] [80; 443] true false true true
         (stopped_before_read 2) = Returned run
    /\ map host (summaries (doc run)) = ["a"; "b"]
    /\ get String.eqb (results (doc run)) "b" = Some [].
Proof.
  destruct (every_target_has_a_summary scanner0 ["a"; "b"] [80; 443]
              true false true true (stopped_before_read 2) eq_refl (conj eq_refl eq_refl))
    as (run & Hrun & _ & _ & _ & Hempty & _ & _ & Hsame).
  exists run. split; [exact Hrun|]. split.
  - apply Hsame. repeat constructor; simpl; intuition discriminate.
  - apply Hempty; [simpl; auto|].
    vm_compute in Hrun. inversion Hrun; subst run. reflexivity.
Defined.


(** ** The open ports of a host *)

Lemma well_keyed_results tgts st :
  well_keyed (replay st (init_results tgts)).
Proof. apply well_keyed_replay, well_keyed_init_results. Qed.

Lemma stored_state_in_keys s (pm : PortMap) p :
  stored_state_is s pm p = true -> In p (keys pm).
Proof.
  unfold stored_state_is. destruct (get Z.eqb pm p) eqn:E; [|discriminate].
  intros _. apply (get_Some_in Z.eqb Z_eqb_eq) in E.
  unfold keys. now apply (in_map fst) in E.
Qed.

(** C7, as amended.  In the document a scan returns (the scanner being
    one whose pool can be created: [max_workers] above 0; the readings of
    the clock being such that [int()] turns them into milliseconds),
    [open_tcp] lists exactly the ports of the host whose stored tcp state is open, each once, in the order in which the ports of
    the host were first stored, which is the order in which the probes
    completed. *)
Theorem open_tcp_in_completion_order (self : PortScanner)
    (tgts : list string) (ports : list Z) (do_tcp do_udp : bool)
    (on_result on_progress : bool) (W : scan_world) :
  0 < max_workers self ->
  clock_ok W ->
  exists run,
    scan self tgts ports do_tcp do_udp on_result on_progress W = Returned run
    /\ Forall2
         (fun (entry : string * PortMap) (s : Summary) =>
            host s = fst entry
            /\ (forall p, In p (open_tcp s)
                          <-> stored_state_is "open" (snd entry) p = true)
            /\ NoDup (open_tcp s)
            /\ open_tcp s
               = filter (stored_state_is "open" (snd entry))
                   (first_occurrences Z.eqb
                      (ports_stored_for (fst entry) (stores (trace run)))))
         (items (results (doc run))) (summaries (doc run)).
Proof.
  intros Hw Hck.
  destruct (scan_anatomy self tgts ports do_tcp do_udp on_result
              on_progress W Hw Hck)
    as (run & s' & Hrun & _ & Hsum & _ & _ & _ & _ & _ & Hres & _).
  exists run. split; [exact Hrun|].
  rewrite Hsum. apply Forall2_map_r. intros [h pm] Hin.
  pose proof (well_keyed_results tgts (stores (trace run))) as Hwk.
  rewrite <- Hres in Hwk.
  assert (Hget : get String.eqb (results (doc run)) h = Some pm)
    by (apply (in_items_get String.eqb string_eqb_eq); [apply Hwk | exact Hin]).
  assert (Hpm : port_map (results (doc run)) h = pm)
    by (unfold port_map; now rewrite Hget).
  assert (Hnd : NoDup (keys pm))
    by (rewrite <- Hpm; now apply port_map_NoDup).
  assert (Hkeys : keys pm
                  = first_occurrences Z.eqb
                      (ports_stored_for h (stores (trace run)))).
  { rewrite <- Hpm, Hres, keys_port_map_replay, port_map_init_results.
    reflexivity. }
  assert (Hopen : open_tcp (summarize (h, pm))
                  = filter (stored_state_is "open" pm) (keys pm)).
  { rewrite summarize_open. cbn [snd].
    now rewrite (keys_filter_items Z.eqb Z_eqb_eq). }
  cbn [fst snd]. rewrite Hopen.
  split; [reflexivity|]. split; [|split].
  - intros p. rewrite filter_In. split; [tauto|].
    intros H; split; [|exact H]. eapply stored_state_in_keys; eauto.
  - now apply NoDup_filter.
  - now rewrite Hkeys.
Qed.

Lemma open_tcp_in_completion_order_witness :
  exists run,
    scan scanner0 ["h"] [80; 443] true false true true
         (quiet_world last_submitted_first 0) = Returned run
    /\ map open_tcp (summaries (doc run)) = [[443; 80]].
Proof.
  destruct (open_tcp_in_completion_order scanner0 ["h"] [80; 443]
              true false true true (quiet_world last_submitted_first 0)
              eq_refl (conj eq_refl eq_refl))
    as (run & Hrun & Hall).
  exists run. split; [exact Hrun|].
  assert (Hr : exists pm,
             items (results (doc run)) = [("h", pm)]
             /\ filter (stored_state_is "open" pm)
                  (first_occurrences Z.eqb
                     (ports_stored_for "h" (stores (trace run))))
                = [443; 80]).
  { vm_compute in Hrun. inversion Hrun; subst run; clear Hrun.
    eexists. split; reflexivity. }
  destruct Hr as (pm & Hitems & Hfilter).
  rewrite Hitems in Hall.
  inversion Hall as [|e s l l' Hs Hrest E1 E2]; subst.
  inversion Hrest; subst. simpl.
  destruct Hs as (_ & _ & _ & ->). simpl. now rewrite Hfilter.
Defined.

(** C7 as stated fails: when the probe of port 443 completes before the
    probe of port 80 and both ports are open, [open_tcp] is [[443; 80]],
    which is not ascending. *)
Lemma open_tcp_not_ascending :
  exists run,
    scan scanner0 ["h"] [80; 443] true false true true
         (quiet_world last_submitted_first 0) = Returned run
    /\ summaries (doc run)
       = [{| host := "h"; open_tcp := [443; 80]; warnings := [] |}]
    /\ ~ Sorted Z.le [443; 80].
Proof.
  eexists. split; [vm_compute; reflexivity|]. split; [reflexivity|].
  intros H. inversion H as [|? ? _ Hd]; subst.
  inversion Hd as [|? ? Hle]; subst. lia.
Qed.

End ScanClaims.

(* ================================================================== *)
(** * parse_ports *)
(* ================================================================== *)

Module CommonProofs.
Import Py Common PortLists PyFacts.

(** ** Characters *)

Lemma digit_chr_digit d : (d < 10)%nat -> digit (digit_chr d) = Some (Z.of_nat d).
Proof.
  intros H. do 10 (destruct d as [|d]; [reflexivity|]). lia.
Qed.

Lemma digit_is_plain c :
  is_digit c = true ->
  isspace c = false /\ chr_eqb c "," = false /\ chr_eqb "," c = false
  /\ chr_eqb c "-" = false /\ chr_eqb "-" c = false /\ chr_eqb c "+" = false.
Proof.
  destruct c as [[] [] [] [] [] [] [] []]; vm_compute; intros H;
    try discriminate H; repeat split.
Qed.

Lemma digit_chr_is_digit n : is_digit (digit_chr (n mod 10)) = true.
Proof.
  unfold is_digit. rewrite digit_chr_digit; [reflexivity|].
  apply Nat.mod_upper_bound. lia.
Qed.

(** ** [str(n)] and [int] *)

Lemma decimal_onto_digits fuel : forall n rest,
  Forall (fun c => is_digit c = true) rest ->
  Forall (fun c => is_digit c = true) (decimal_onto fuel n rest).
Proof.
  induction fuel as [|fuel IH]; intros n rest H; cbn [decimal_onto]; auto.
  assert (H' : Forall (fun c => is_digit c = true)
                      (digit_chr (n mod 10) :: rest))
    by (constructor; auto using digit_chr_is_digit).
  destruct (n / 10 =? 0)%nat; auto.
Qed.

Lemma decimal_digits n : Forall (fun c => is_digit c = true) (decimal n).
Proof. apply decimal_onto_digits. constructor. Qed.

Lemma decimal_onto_nonempty fuel : forall n rest,
  fuel <> 0%nat -> decimal_onto fuel n rest <> [].
Proof.
  induction fuel as [|fuel IH]; intros n rest H; [congruence|].
  cbn [decimal_onto]. destruct (n / 10 =? 0)%nat eqn:E; [discriminate|].
  destruct fuel as [|fuel']; [discriminate|]. apply IH. discriminate.
Qed.

Lemma decimal_nonempty n : decimal n <> [].
Proof. apply decimal_onto_nonempty. discriminate. Qed.

(** Reading the digits written for [n] gives [n]. *)
Lemma digits_decimal_onto fuel : forall n rest,
  (n < fuel)%nat ->
  digits 0 false (decimal_onto fuel n rest) = digits (Z.of_nat n) true rest.
Proof.
  induction fuel as [|fuel IH]; intros n rest Hn; [lia|].
  cbn [decimal_onto].
  pose proof (Nat.div_mod_eq n 10) as Hdm.
  assert (Hm : (n mod 10 < 10)%nat) by (apply Nat.mod_upper_bound; lia).
  destruct (n / 10 =? 0)%nat eqn:E.
  - apply Nat.eqb_eq in E. cbn [digits]. rewrite digit_chr_digit by assumption.
    f_equal. lia.
  - apply Nat.eqb_neq in E. rewrite IH by lia.
    cbn [digits]. rewrite digit_chr_digit by assumption.
    f_equal. lia.
Qed.

Lemma digits_decimal n : digits 0 false (decimal n) = Some (Z.of_nat n).
Proof. unfold decimal. now rewrite digits_decimal_onto by lia. Qed.


(** ** [strip], [split] and [in] on what [write_item] writes *)

Lemma digit_plain c : is_digit c = true -> plain c.
Proof. intros H. apply digit_is_plain in H. unfold plain. tauto. Qed.

Lemma dash_plain : plain "-"%char.
Proof. repeat split. Qed.

Lemma write_item_plain it : Forall plain (write_item it).
Proof.
  assert (Hd : forall n, Forall plain (decimal n)).
  { intros n. eapply Forall_impl; [|apply decimal_digits].
    intros c. apply digit_plain. }
  destruct it as [n|a b]; cbn [write_item]; [apply Hd|].
  apply Forall_app. split; [apply Hd|]. constructor; [apply dash_plain|apply Hd].
Qed.

Lemma write_item_nonempty it : write_item it <> [].
Proof.
  destruct it as [n|a b]; cbn [write_item]; [apply decimal_nonempty|].
  intros H. apply app_eq_nil in H as [_ H]. discriminate.
Qed.

Lemma lstrip_plain t : Forall plain t -> lstrip t = t.
Proof.
  destruct t as [|c t]; [reflexivity|]. intros H. inversion H as [|? ? Hc _].
  cbn [lstrip]. destruct Hc as [-> _]. reflexivity.
Qed.

Lemma strip_plain t : Forall plain t -> strip t = t.
Proof.
  intros H. unfold strip, rstrip. rewrite (lstrip_plain t H).
  rewrite lstrip_plain by now apply Forall_rev. apply rev_involutive.
Qed.

Lemma nonblank_plain t : Forall plain t -> t <> [] -> nonblank t = true.
Proof.
  intros H Hne. unfold nonblank. rewrite strip_plain by assumption.
  destruct t; congruence.
Qed.

Lemma split_plain t : Forall plain t -> split "," t = [t].
Proof.
  induction t as [|c t IH]; intros H; [reflexivity|].
  inversion H as [|? ? Hc Ht]; subst. cbn [split].
  destruct Hc as (_ & -> & _). now rewrite IH.
Qed.

Lemma split_plain_comma (t rest : text) :
  Forall plain t -> split "," (t ++ ","%char :: rest) = t :: split "," rest.
Proof.
  induction t as [|c t IH]; intros H; [reflexivity|].
  inversion H as [|? ? Hc Ht]; subst. cbn [split app].
  destruct Hc as (_ & -> & _). now rewrite IH.
Qed.

Lemma split_join ts :
  Forall (Forall plain) ts -> ts <> [] -> split "," (join "," ts) = ts.
Proof.
  induction ts as [|t ts IH]; intros H Hne; [congruence|].
  inversion H as [|? ? Ht Hts]; subst.
  destruct ts as [|t' ts].
  - cbn [join]. now apply split_plain.
  - change (join "," (t :: t' :: ts)) with (t ++ ","%char :: join "," (t' :: ts)).
    rewrite split_plain_comma by assumption. f_equal.
    apply IH; [assumption | discriminate].
Qed.


Lemma contains_dash_decimal n : contains "-" (decimal n) = false.
Proof.
  unfold contains. pose proof (decimal_digits n) as H.
  induction H as [|c t Hc _ IH]; [reflexivity|].
  cbn [existsb]. apply digit_is_plain in Hc.
  destruct Hc as (_ & _ & _ & _ & -> & _). exact IH.
Qed.

Lemma split_once_written a b :
  split_once "-" (decimal a ++ "-"%char :: decimal b)
  = Some (decimal a, decimal b).
Proof.
  pose proof (decimal_digits a) as H.
  induction H as [|c t Hc _ IH]; [reflexivity|].
  cbn [split_once app]. apply digit_is_plain in Hc.
  destruct Hc as (_ & _ & _ & -> & _). now rewrite IH.
Qed.

Lemma contains_dash_span a b :
  contains "-" (decimal a ++ "-"%char :: decimal b) = true.
Proof.
  unfold contains. rewrite existsb_app. cbn [existsb].
  change (chr_eqb "-" "-") with true. now rewrite orb_true_r.
Qed.

Lemma int_decimal n : int (decimal n) = Returned (Z.of_nat n).
Proof.
  unfold int, int_literal.
  pose proof (decimal_digits n) as Hd.
  rewrite strip_plain
    by (eapply Forall_impl; [|exact Hd]; intros c; apply digit_plain).
  pose proof (digits_decimal n) as Hn.
  destruct (decimal n) as [|c t] eqn:E; [now apply decimal_nonempty in E|].
  inversion Hd as [|? ? Hc _]; subst. apply digit_is_plain in Hc.
  destruct Hc as (_ & _ & _ & -> & _ & ->). now rewrite Hn.
Qed.

(** ** [collect] on written entries *)



(** ** The set of ports *)

Lemma existsb_Zeqb x l : existsb (Z.eqb x) l = true <-> In x l.
Proof.
  rewrite existsb_exists. split.
  - intros (y & Hy & E). apply Z.eqb_eq in E. now subst.
  - intros H. exists x. split; [assumption | apply Z.eqb_refl].
Qed.

Lemma set_add_In out x y : In y (set_add out x) <-> In y out \/ y = x.
Proof.
  unfold set_add. destruct (existsb (Z.eqb x) out) eqn:E.
  - apply existsb_Zeqb in E. split; [auto|]. intros [H|H]; subst; auto.
  - rewrite in_app_iff. simpl. intuition.
Qed.

Lemma set_add_NoDup out x : NoDup out -> NoDup (set_add out x).
Proof.
  unfold set_add. destruct (existsb (Z.eqb x) out) eqn:E; intros H; auto.
  apply NoDup_app; auto.
  - constructor; [intros []|constructor].
  - intros y Hy [Hx|[]]; subst. apply existsb_Zeqb in Hy. congruence.
Qed.

Lemma set_update_In xs : forall out y,
  In y (set_update out xs) <-> In y out \/ In y xs.
Proof.
  unfold set_update.
  induction xs as [|x xs IH]; intros out y; simpl; [tauto|].
  rewrite IH, set_add_In. intuition.
Qed.

Lemma set_update_NoDup xs : forall out,
  NoDup out -> NoDup (set_update out xs).
Proof.
  unfold set_update.
  induction xs as [|x xs IH]; intros out H; simpl; auto using set_add_NoDup.
Qed.

Lemma range_In lo hi p : In p (range lo hi) <-> lo <= p < hi.
Proof.
  unfold range. rewrite in_map_iff. split.
  - intros (i & <- & Hi). apply in_seq in Hi. lia.
  - intros H. exists (Z.to_nat (p - lo)). split; [lia|].
    apply in_seq. lia.
Qed.


Lemma take_item_NoDup out it : NoDup out -> NoDup (take_item out it).
Proof.
  destruct it; cbn [take_item]; auto using set_add_NoDup, set_update_NoDup.
Qed.




Lemma collect_NoDup tokens : forall out l,
  collect tokens out = Returned l -> NoDup out -> NoDup l.
Proof.
  induction tokens as [|t ts IH]; intros out l; cbn [collect].
  - intros H; inversion H; subst; auto.
  - destruct (contains "-" t).
    + destruct (split_once "-" t) as [[a b]|]; [|discriminate].
      destruct (int a) as [a'|]; [|discriminate].
      destruct (int b) as [b'|]; [|discriminate].
      intros H Hnd. eapply IH; eauto using set_update_NoDup.
    + destruct (int t) as [n|]; [|discriminate].
      intros H Hnd. eapply IH; eauto using set_add_NoDup.
Qed.

(** ** [sorted] *)

Lemma insert_sorted_In x l y : In y (insert_sorted x l) <-> y = x \/ In y l.
Proof.
  induction l as [|z l IH]; cbn [insert_sorted]; [simpl; intuition|].
  destruct (x <=? z); simpl; [intuition|]. rewrite IH. intuition.
Qed.

Lemma sorted_In l y : In y (sorted l) <-> In y l.
Proof.
  unfold sorted. induction l as [|x l IH]; cbn [fold_right]; [tauto|].
  rewrite insert_sorted_In, IH. simpl. intuition.
Qed.

Lemma insert_sorted_strict x l :
  StronglySorted Z.lt l -> ~ In x l ->
  StronglySorted Z.lt (insert_sorted x l).
Proof.
  induction l as [|z l IH]; cbn [insert_sorted]; intros Hs Hx.
  - repeat constructor.
  - inversion Hs as [|? ? Hl Hz]; subst.
    destruct (Z.leb_spec x z) as [Hle|Hlt].
    + assert (x < z) by (assert (x <> z) by (simpl in Hx; intuition); lia).
      constructor; [assumption|]. constructor; [assumption|].
      eapply Forall_impl; [|exact Hz]. simpl. intros; lia.
    + constructor.
      * apply IH; [assumption|]. simpl in Hx. tauto.
      * apply Forall_forall. intros y Hy. apply insert_sorted_In in Hy.
        destruct Hy as [->|Hy]; [lia|].
        rewrite Forall_forall in Hz. auto.
Qed.

Lemma sorted_strict l : NoDup l -> StronglySorted Z.lt (sorted l).
Proof.
  unfold sorted. induction 1 as [|x l Hx Hnd IH]; cbn [fold_right].
  - constructor.
  - apply insert_sorted_strict; [assumption|].
    fold (sorted l). now rewrite sorted_In.
Qed.

Lemma ascending_sound l : ascending l = true -> StronglySorted Z.lt l.
Proof.
  intros H. apply Sorted_StronglySorted; [intros x y z; lia|].
  induction l as [|x l IH]; [constructor|].
  cbn [ascending] in H. destruct l as [|y l].
  - repeat constructor.
  - apply andb_true_iff in H as [Hxy Hl]. constructor; [now apply IH|].
    constructor. lia.
Qed.

Lemma in_port_range_iff p : in_port_range p = true <-> 1 <= p <= 65535.
Proof. unfold in_port_range. rewrite andb_true_iff. lia. Qed.

(** ** [parse_ports] *)

Lemma parse_ports_quick mode custom :
  mode_is mode "quick" -> parse_ports mode custom = Returned TOP_PORTS.
Proof.
  unfold mode_is, parse_ports. intros ->.
  now destruct (list_eq_dec ascii_dec _ _).
Qed.

Lemma parse_ports_full mode custom :
  mode_is mode "full" -> parse_ports mode custom = Returned (range 1 1025).
Proof.
  unfold mode_is, parse_ports. intros ->.
  destruct (list_eq_dec ascii_dec _ _) as [E|_]; [discriminate E|].
  now destruct (list_eq_dec ascii_dec _ _).
Qed.

Lemma parse_ports_custom mode custom :
  ~ mode_is mode "quick" -> ~ mode_is mode "full" ->
  parse_ports mode custom
  = match collect (map strip (filter nonblank
                      (split "," (list_ascii_of_string custom)))) [] with
    | Raised e => Raised e
    | Returned out => Returned (sorted (filter in_port_range out))
    end.
Proof.
  unfold mode_is, parse_ports. intros Hq Hf.
  destruct (list_eq_dec ascii_dec _ _) as [E|_]; [contradiction|].
  destruct (list_eq_dec ascii_dec _ _) as [E|_]; [contradiction|].
  reflexivity.
Qed.


Lemma parse_ports_sound mode custom l :
  parse_ports mode custom = Returned l ->
  StronglySorted Z.lt l /\ Forall (fun p => 1 <= p <= 65535) l.
Proof.
  unfold parse_ports.
  destruct (list_eq_dec ascii_dec _ _) as [_|_].
  { intros H; inversion H; subst. split.
    - apply ascending_sound. reflexivity.
    - repeat (constructor; [lia|]). constructor. }
  destruct (list_eq_dec ascii_dec _ _) as [_|_].
  { intros H; inversion H; subst. split.
    - apply ascending_sound. vm_compute. reflexivity.
    - apply Forall_forall. intros p Hp. apply range_In in Hp. lia. }
  destruct (collect _ []) as [out|e] eqn:E; [|discriminate].
  intros H; inversion H; subst. split.
  - apply sorted_strict. apply NoDup_filter.
    eapply collect_NoDup; eauto. constructor.
  - apply Forall_forall. intros p Hp. apply -> sorted_In in Hp.
    apply filter_In in Hp as [_ Hp]. now apply in_port_range_iff.
Qed.


(** ** [int] and [collect] raise [ValueError] only *)

Lemma int_raises_ValueError t e : int t = Raised e -> cls e = ValueError.
Proof.
  unfold int. destruct (int_literal t); [discriminate|].
  intros H; inversion H; reflexivity.
Qed.

Lemma collect_raises_ValueError tokens : forall out e,
  collect tokens out = Raised e -> cls e = ValueError.
Proof.
  induction tokens as [|t ts IH]; intros out e; cbn [collect]; [discriminate|].
  destruct (contains "-" t).
  - destruct (split_once "-" t) as [[a b]|].
    + destruct (int a) as [a'|ea] eqn:Ea.
      * destruct (int b) as [b'|eb] eqn:Eb; [apply IH|].
        intros H; inversion H; subst. eapply int_raises_ValueError; eauto.
      * intros H; inversion H; subst. eapply int_raises_ValueError; eauto.
    + intros H; inversion H; reflexivity.
  - destruct (int t) as [n|en] eqn:En; [apply IH|].
    intros H; inversion H; subst. eapply int_raises_ValueError; eauto.
Qed.





End CommonProofs.

(* ================================================================== *)
(** * The probe: states and latency *)
(* ================================================================== *)

Module ProbeMore.
Import Py Scanner PyFacts Worlds.

Lemma refusal_is_no_timeout e :
  isinstance e ConnectionRefusedError = true ->
  isinstance e socket_timeout = false.
Proof. destruct e as [c m]; destruct c; cbv; congruence. Qed.

(** The state tells the outcome.  In a result the probe returns, the state
    is open exactly when the connection was established, closed exactly
    when the attempt raised a [ConnectionRefusedError], filtered exactly
    when it raised [socket.timeout], and error exactly when it raised an
    [OSError] that is neither of the two, whose text is then the error
    text. *)
Theorem state_tells_outcome (self : PortScanner) (host : string) (port : Z)
    (w : probe_world) (h : string) (p : Z) (info : Info) :
  _tcp_probe self host port w = Returned (h, p, info) ->
  (state info = "open" <-> attempt w host port (timeout self) = Connected)
  /\ (state info = "closed"
      <-> exists e, attempt w host port (timeout self) = Fails e
                    /\ isinstance e ConnectionRefusedError = true)
  /\ (state info = "filtered"
      <-> exists e, attempt w host port (timeout self) = Fails e
                    /\ isinstance e socket_timeout = true)
  /\ (state info = "error"
      <-> exists e, attempt w host port (timeout self) = Fails e
                    /\ isinstance e OSError = true
                    /\ isinstance e ConnectionRefusedError = false
                    /\ isinstance e socket_timeout = false
                    /\ error info = str e).
Proof.
  unfold _tcp_probe.
  destruct (int_of_float (elapsed_ms (t_begin w) (t_end w))) as [lat|x];
    [|destruct (attempt w host port (timeout self)) as [|e];
      [discriminate|];
      destruct (isinstance e ConnectionRefusedError); [discriminate|];
      destruct (isinstance e socket_timeout); [discriminate|];
      destruct (isinstance e OSError); discriminate].
  destruct (attempt w host port (timeout self)) as [|e].
  { intros H; inversion H; subst; simpl.
    repeat split; try discriminate; auto; intros (e & He & _); discriminate. }
  destruct (isinstance e ConnectionRefusedError) eqn:E1.
  { pose proof (refusal_is_no_timeout e E1) as E2.
    intros H; inversion H; subst; simpl.
    repeat split; try discriminate; eauto.
    - intros (e' & He & Ht). inversion He; subst. congruence.
    - intros (e' & He & _ & Hr & _). inversion He; subst. congruence. }
  destruct (isinstance e socket_timeout) eqn:E2.
  { intros H; inversion H; subst; simpl.
    repeat split; try discriminate; eauto.
    - intros (e' & He & Hr). inversion He; subst. congruence.
    - intros (e' & He & _ & _ & Ht & _). inversion He; subst. congruence. }
  destruct (isinstance e OSError) eqn:E3; [|discriminate].
  intros H; inversion H; subst; simpl.
  repeat split; try discriminate; eauto 10.
  - intros (e' & He & Hr). inversion He; subst. congruence.
  - intros (e' & He & Ht). inversion He; subst. congruence.
Qed.

Lemma state_tells_outcome_witness :
  "error" = "error"
  <-> exists e, Fails unreachable = Fails e
                /\ isinstance e OSError = true
                /\ isinstance e ConnectionRefusedError = false
                /\ isinstance e socket_timeout = false
                /\ "[Errno 101] Network is unreachable" = str e.
Proof.
  exact (proj2 (proj2 (proj2
    (state_tells_outcome scanner0 "h" 80 (probe_with (Fails unreachable))
       "h" 80
       {| proto := "tcp"; state := "error"; latency_ms := 250;
          error := "[Errno 101] Network is unreachable" |} eq_refl)))).
Defined.

(** The latency is the float the probe computes for the elapsed
    milliseconds, rounded down: when the clock did not go back between the
    two readings, that float (the product with 1000 of the difference of
    the readings, each rounded as floats are) lies between [latency_ms]
    and [latency_ms + 1]. *)
Theorem latency_rounds_down (self : PortScanner) (host : string) (port : Z)
    (w : probe_world) (h : string) (p : Z) (info : Info) :
  _tcp_probe self host port w = Returned (h, p, info) ->
  (float_value (t_begin w) <= float_value (t_end w))%Q ->
  (inject_Z (latency_ms info)
   <= float_value (float_mul (float_sub (t_end w) (t_begin w)) float_1000))%Q
  /\ (float_value (float_mul (float_sub (t_end w) (t_begin w)) float_1000)
      < inject_Z (latency_ms info + 1))%Q.
Proof.
  intros H Hclock.
  apply ProbeProofs.tcp_probe_returns_inv in H.
  destruct H as (_ & _ & _ & Hlat & _).
  assert (Hpos : not_negative (elapsed_ms (t_begin w) (t_end w))).
  { apply ProbeProofs.elapsed_not_negative; [|exact Hclock].
    apply ProbeProofs.int_of_float_finite; eauto. }
  unfold elapsed_ms in Hlat, Hpos.
  destruct (float_mul (float_sub (t_end w) (t_begin w)) float_1000)
    as [s|s| |s m e]; try discriminate; simpl in Hlat;
    injection Hlat as Hlat.
  - rewrite <- Hlat. simpl. split; [apply Qle_refl | reflexivity].
  - destruct s; [contradiction|].
    simpl in Hlat. rewrite <- Hlat. cbn [float_value cond_Zopp].
    apply int_of_float_floor.
Qed.

Lemma latency_rounds_down_witness :
  (inject_Z 1122
   <= float_value (float_mul (float_sub (float_lit (101122 # 1000))
                                        (float_lit 100)) float_1000))%Q
  /\ (float_value (float_mul (float_sub (float_lit (101122 # 1000))
                                        (float_lit 100)) float_1000)
      < inject_Z (1122 + 1))%Q.
Proof.
  apply (latency_rounds_down scanner0 "h" 80 clock_100_101_122 "h" 80
           {| proto := "tcp"; state := "open"; latency_ms := 1122;
              error := "" |}).
  - reflexivity.
  - vm_compute. discriminate.
Defined.

End ProbeMore.

(* ================================================================== *)
(** * The orchestrator: cancellation, completeness, what is stored *)
(* ================================================================== *)

Module ScanMore.
Import Py Scanner PyFacts Worlds Observations ScanProofs RunFacts.

(** ** A scanner that is already stopped *)

Lemma all_stops_no_events tr :
  forallb is_stop tr = true ->
  submits tr = [] /\ stores tr = [] /\ result_calls tr = []
  /\ progress_calls tr = [] /\ Forall (fun e => e = Poll true) tr.
Proof.
  induction tr as [|e tr IH]; simpl; intros H; [repeat split; constructor|].
  apply andb_true_iff in H as [He Htr].
  destruct (IH Htr) as (A & B & C & D & F).
  destruct e as [[|]| | | | |]; try discriminate He.
  repeat split; auto.
Qed.

(** Cancellation before the scan.  When [stop()] was called on the scanner
    before [scan] (and its pool can be created: [max_workers] above 0;
    the readings of the clock being such that [int()] turns them into
    milliseconds), nothing is submitted and nothing is stored: [scan] only
    polls the flag, and returns a document in which every target has an
    empty port map and an empty summary. *)
Theorem scan_when_already_stopped (self : PortScanner)
    (tgts : list string) (ports : list Z) (do_tcp do_udp : bool)
    (on_result on_progress : bool) (W : scan_world) :
  0 < max_workers self ->
  clock_ok W ->
  _stop self = true ->
  exists run,
    scan self tgts ports do_tcp do_udp on_result on_progress W = Returned run
    /\ futs run = []
    /\ done run = 0
    /\ Forall (fun e => e = Poll true) (trace run)
    /\ results (doc run) = init_results tgts
    /\ summaries (doc run)
       = map (fun t => {| host := t; open_tcp := []; warnings := [] |})
             (first_occurrences String.eqb tgts).
Proof.
  intros Hw Hck Hstop. destruct (clock_read W Hck) as (t0 & t1 & H0 & H1).
  unfold scan. rewrite H0, H1, (pool_created self Hw).
  destruct (submit_targets W do_tcp tgts ports
              {| flag := _stop self; reads := 0 |}) as [[s1 units] tr1] eqn:E.
  destruct (submit_targets_settles _ _ _ _ _ _ _ _ E) as [(_ & Hall & _) Hus].
  rewrite (Hus Hstop).
  cbn [List.length seq combine as_completed as_completed_from drain].
  eexists; split; [reflexivity|]. cbn [futs done trace doc results summaries].
  rewrite app_nil_r.
  destruct (all_stops_no_events tr1 (Hall Hstop)) as (_ & _ & _ & _ & F).
  repeat split; auto.
  rewrite (ScanClaims.summaries_init_results tgts). reflexivity.
Qed.

Lemma scan_when_already_stopped_witness :
  exists run,
    scan (stop scanner0) ["a"; "b"] [80; 443] true false true true
         (quiet_world in_submission_order 0) = Returned run
    /\ futs run = [] /\ done run = 0.
Proof.
  destruct (scan_when_already_stopped (stop scanner0) ["a"; "b"] [80; 443]
              true false true true (quiet_world in_submission_order 0)
              eq_refl (conj eq_refl eq_refl) eq_refl) as (run & Hrun & Hf & Hd & _).
  exists run. auto.
Defined.


(** ** What the completion loop stores *)

Lemma read_stop_never_stopped W s :
  never_stopped W s ->
  exists s1, read_stop W s = (false, s1) /\ never_stopped W s1.
Proof.
  intros [Hf Hk]. unfold read_stop. rewrite Hf, (Hk (reads s)) by lia.
  eexists; split; [reflexivity|]. split; [reflexivity|].
  intros k Hle. apply Hk. simpl in Hle. lia.
Qed.

Lemma stores_cons_poll b tr : stores (Poll b :: tr) = stores tr.
Proof. reflexivity. Qed.

Lemma faults_cons_poll b tr : faults (Poll b :: tr) = faults tr.
Proof. reflexivity. Qed.

(** The loop takes the first [k] of the futures that complete; each of
    them gives one store, or one logged failure when its probe raised.
    Without cancellation it takes them all. *)
Lemma drain_stores self W onr onp total completed :
  forall s r d s' r' d' tr,
    drain self W onr onp total completed s r d = Returned (s', r', d', tr) ->
    exists k,
      (k <= List.length completed)%nat
      /\ stores tr = flat_map (stored_of self W) (firstn k completed)
      /\ faults tr = flat_map (failure_of self W) (firstn k completed)
      /\ (never_stopped W s -> k = List.length completed).
Proof.
  induction completed as [|fut rest IH]; intros s r d s' r' d' tr;
    cbn [drain].
  - intros H; inversion H; subst. exists 0%nat. repeat split; auto.
  - destruct (read_stop W s) as [b s1] eqn:Er. destruct b.
    + intros H; inversion H; subst. exists 0%nat.
      split; [simpl; lia|]. split; [reflexivity|]. split; [reflexivity|].
      intros Hn. destruct (read_stop_never_stopped W s Hn) as (s1' & E & _).
      congruence.
    + assert (Hnext : never_stopped W s -> never_stopped W s1).
      { intros Hn. destruct (read_stop_never_stopped W s Hn) as (s1' & E & H1).
        congruence. }
      destruct (fut_result self W fut) as [[[h p] i]|e] eqn:Ef.
      * destruct (drain self W onr onp total rest s1 (record r h p i) (d + 1))
          as [[[[s2 r2] d2] tr2]|e'] eqn:E; [|discriminate].
        apply IH in E. destruct E as (k & Hk & Hs & Hf & Hall).
        intros H; inversion H; subst. exists (S k).
        split; [simpl; lia|].
        rewrite stores_cons_poll, faults_cons_poll.
        change (stores (Store h p i :: call onr (OnResult h p i)
                        ++ call onp (OnProgress (d + 1) total) ++ tr2))
          with ((h, p, i) :: stores (call onr (OnResult h p i)
                        ++ call onp (OnProgress (d + 1) total) ++ tr2)).
        change (faults (Store h p i :: call onr (OnResult h p i)
                        ++ call onp (OnProgress (d + 1) total) ++ tr2))
          with (faults (call onr (OnResult h p i)
                        ++ call onp (OnProgress (d + 1) total) ++ tr2)).
        rewrite stores_through_calls, faults_through_calls.
        cbn [firstn flat_map]. unfold stored_of at 1, failure_of at 1.
        rewrite Ef. cbn [app]. rewrite Hs, Hf.
        repeat split; auto. intros Hn. simpl. f_equal. auto.
      * rewrite all_derive_from_Exception.
        destruct (drain self W onr onp total rest s1 r d)
          as [[[[s2 r2] d2] tr2]|e'] eqn:E; [|discriminate].
        apply IH in E. destruct E as (k & Hk & Hs & Hf & Hall).
        intros H; inversion H; subst. exists (S k).
        split; [simpl; lia|].
        rewrite stores_cons_poll, faults_cons_poll.
        change (stores (LogWorkerFailure :: tr2)) with (stores tr2).
        change (faults (LogWorkerFailure :: tr2))
          with (LogWorkerFailure :: faults tr2).
        cbn [firstn flat_map]. unfold stored_of at 1, failure_of at 1.
        rewrite Ef. cbn [app]. rewrite Hs, Hf.
        repeat split; auto. intros Hn. simpl. f_equal. auto.
Qed.

Lemma stored_of_probed self W (fs : list future) f x :
  In f fs -> In x (stored_of self W f) -> probed self W fs x.
Proof.
  intros Hf Hx. unfold stored_of in Hx.
  destruct (fut_result self W f) as [y|e] eqn:E; [|contradiction].
  destruct Hx as [->|[]]. destruct x as [[h p] i].
  pose proof (fut_result_unit _ _ _ _ _ _ E) as Hu.
  destruct f as [k [h' p']]. simpl in Hu. inversion Hu; subst h' p'.
  exists k. split; [exact Hf | exact E].
Qed.

Lemma firstn_In_all {A : Type} (l : list A) n x : In x (firstn n l) -> In x l.
Proof.
  intros H. rewrite <- (firstn_skipn n l). apply in_or_app. now left.
Qed.


(** ** Without cancellation every unit is submitted *)

Lemma submit_ports_never_stopped W h ports :
  forall s, never_stopped W s ->
  exists s' tr,
    submit_ports W true h ports s = (s', map (pair h) ports, tr)
    /\ never_stopped W s'.
Proof.
  induction ports as [|p ps IH]; intros s Hn; cbn [submit_ports].
  - exists s, []. auto.
  - destruct (read_stop_never_stopped W s Hn) as (s1 & -> & H1).
    destruct (IH s1 H1) as (s' & tr & -> & H'). eauto.
Qed.

Lemma submit_targets_never_stopped W ports tgts :
  forall s, never_stopped W s ->
  exists s' tr,
    submit_targets W true tgts ports s = (s', list_prod tgts ports, tr)
    /\ never_stopped W s'.
Proof.
  induction tgts as [|h hs IH]; intros s Hn; cbn [submit_targets].
  - exists s, []. auto.
  - destruct (submit_ports_never_stopped W h ports s Hn) as (s1 & tr1 & -> & H1).
    destruct (IH s1 H1) as (s' & tr & -> & H'). simpl list_prod. eauto.
Qed.

(** ** The stores of a run *)

(** The stores of a run are what the probes of the first [k] completed
    futures returned, in this order; its logged failures are the same
    futures' probes that raised. *)
Lemma scan_stores self tgts ports do_tcp do_udp onr onp W :
  0 < max_workers self ->
  clock_ok W ->
  exists run k,
    scan self tgts ports do_tcp do_udp onr onp W = Returned run
    /\ (k <= List.length (futs run))%nat
    /\ stores (trace run)
       = flat_map (stored_of self W)
           (firstn k (as_completed (completion W) (futs run)))
    /\ faults (trace run)
       = flat_map (failure_of self W)
           (firstn k (as_completed (completion W) (futs run)))
    /\ results (doc run) = replay (stores (trace run)) (init_results tgts)
    /\ done run = Z.of_nat (List.length (stores (trace run)))
    /\ total run
       = Z.max 1 (Z.of_nat (List.length tgts) * Z.of_nat (List.length ports))
    /\ (exists n, map snd (futs run) = firstn n (list_prod tgts ports))
    /\ (_stop self = false -> (forall i, stop_calls W i = false) ->
        do_tcp = true ->
        map snd (futs run) = list_prod tgts ports
        /\ k = List.length (futs run)).
Proof.
  intros Hw Hck.
  destruct (scan_spec self tgts ports do_tcp do_udp onr onp W Hw Hck)
    as (s1 & units & tr1 & s2 & r & d & tr2 & t0 & t1 & Hsub & Hdrain & _ & _
        & Hscan).
  pose proof (submit_targets_trace _ _ _ _ _ _ _ _ Hsub) as T1.
  pose proof (submit_targets_units _ _ _ _ _ _ _ _ Hsub) as U1.
  pose proof (drain_content _ _ _ _ _ _ _ _ _ _ _ _ _ Hdrain)
    as (Hr & Hd & _).
  destruct (drain_stores _ _ _ _ _ _ _ _ _ _ _ _ _ Hdrain)
    as (k & Hk & Hs & Hf & Hall).
  destruct (trace_parts tr1 units tr2 T1) as (_ & B & _ & _ & E).
  pose proof (as_completed_perm (completion W)
                (combine (seq 0 (List.length units)) units)) as Hperm.
  eexists; exists k. split; [exact Hscan|].
  cbn [doc trace total done futs results].
  rewrite B, E, map_snd_combine_seq.
  split.
  { eapply Nat.le_trans; [exact Hk|]. apply Nat.eq_le_incl.
    exact (Permutation_length Hperm). }
  split; [exact Hs|]. split; [exact Hf|]. split; [exact Hr|].
  split; [lia|]. split; [reflexivity|]. split; [exact U1|].
  intros Hstop Hcalls ->.
  assert (Hn : never_stopped W {| flag := _stop self; reads := 0 |})
    by (split; auto).
  destruct (submit_targets_never_stopped W ports tgts _ Hn)
    as (s' & tr & Hsub' & Hn').
  rewrite Hsub in Hsub'. inversion Hsub'; subst s' units tr.
  split; [reflexivity|].
  rewrite (Hall Hn'). exact (Permutation_length Hperm).
Qed.


Lemma one_per_future self W (l : list future) :
  (List.length (flat_map (stored_of self W) l)
   + List.length (flat_map (failure_of self W) l))%nat = List.length l.
Proof.
  induction l as [|f l IH]; [reflexivity|]. cbn [flat_map].
  rewrite !length_app. unfold stored_of at 1, failure_of at 1.
  destruct (fut_result self W f); simpl; lia.
Qed.

Lemma stored_units self W (l : list future) :
  no_probe_raises self W l ->
  map fst (flat_map (stored_of self W) l) = map snd l
  /\ flat_map (failure_of self W) l = [].
Proof.
  induction l as [|f l IH]; intros Hno; [split; reflexivity|].
  inversion Hno as [|? ? [[[h' p'] info] Hf] Hrest]; subst.
  destruct (IH Hrest) as [IH1 IH2].
  pose proof (fut_result_unit self W f h' p' info Hf) as Hu.
  cbn [flat_map map]. unfold stored_of at 1, failure_of at 1.
  rewrite Hf. cbn [app map fst]. now rewrite IH1, IH2, Hu.
Qed.

Lemma in_ports_stored_for h p i st :
  In (h, p, i) st -> In p (ports_stored_for h st).
Proof.
  intros H. unfold ports_stored_for. apply in_map_iff.
  exists (h, p, i). split; [reflexivity|]. apply filter_In.
  split; [assumption|]. simpl. apply String.eqb_refl.
Qed.

Lemma stored_port_has_entry tgts st h p i :
  In (h, p, i) st ->
  exists e, get Z.eqb (port_map (replay st (init_results tgts)) h) p = Some e.
Proof.
  intros H. apply (get_in_keys Z.eqb Z_eqb_eq).
  rewrite keys_port_map_replay, port_map_init_results.
  apply (first_occurrences_In Z.eqb Z_eqb_eq).
  eapply in_ports_stored_for; eauto.
Qed.

(** Without cancellation every future is drained. *)
Lemma uncancelled_scan (self : PortScanner)
    (tgts : list string) (ports : list Z) (do_udp : bool)
    (on_result on_progress : bool) (W : scan_world) :
  0 < max_workers self ->
  clock_ok W ->
  _stop self = false ->
  (forall i, stop_calls W i = false) ->
  exists run,
    scan self tgts ports true do_udp on_result on_progress W = Returned run
    /\ map snd (futs run) = list_prod tgts ports
    /\ stores (trace run)
       = flat_map (stored_of self W)
           (as_completed (completion W) (futs run))
    /\ faults (trace run)
       = flat_map (failure_of self W)
           (as_completed (completion W) (futs run))
    /\ results (doc run) = replay (stores (trace run)) (init_results tgts)
    /\ done run = Z.of_nat (List.length (stores (trace run)))
    /\ total run
       = Z.max 1 (Z.of_nat (List.length tgts) * Z.of_nat (List.length ports)).
Proof.
  intros Hw Hck Hstop Hcalls.
  destruct (scan_stores self tgts ports true do_udp on_result on_progress W Hw Hck)
    as (run & k & Hrun & _ & Hs & Hf & Hr & Hd & Ht & _ & Hfull).
  destruct (Hfull Hstop Hcalls eq_refl) as [Hunits ->].
  exists run. split; [exact Hrun|]. split; [exact Hunits|].
  pose proof (as_completed_perm (completion W) (futs run)) as Hperm.
  rewrite firstn_all2 in Hs, Hf
    by (apply Nat.eq_le_incl; exact (Permutation_length Hperm)).
  auto.
Qed.

(** Every drained future is stored or logged. *)
Lemma uncancelled_scan_counts (self : PortScanner)
    (tgts : list string) (ports : list Z) (do_udp : bool)
    (on_result on_progress : bool) (W : scan_world) :
  0 < max_workers self ->
  clock_ok W ->
  _stop self = false ->
  (forall i, stop_calls W i = false) ->
  exists run,
    scan self tgts ports true do_udp on_result on_progress W = Returned run
    /\ map snd (futs run) = list_prod tgts ports
    /\ done run + Z.of_nat (List.length (faults (trace run)))
       = Z.of_nat (List.length tgts) * Z.of_nat (List.length ports).
Proof.
  intros Hw Hck Hstop Hcalls.
  destruct (uncancelled_scan self tgts ports do_udp on_result on_progress W
              Hw Hck Hstop Hcalls)
    as (run & Hrun & Hunits & Hs & Hf & _ & Hd & _).
  exists run. split; [exact Hrun|]. split; [exact Hunits|].
  pose proof (as_completed_perm (completion W) (futs run)) as Hperm.
  assert (Hlen : List.length (as_completed (completion W) (futs run))
                 = (List.length tgts * List.length ports)%nat).
  { transitivity (List.length (futs run));
      [exact (Permutation_length Hperm)|].
    transitivity (List.length (map snd (futs run)));
      [symmetry; apply length_map|].
    rewrite Hunits. apply length_prod. }
  assert (Hsum : done run + Z.of_nat (List.length (faults (trace run)))
                 = Z.of_nat (List.length tgts) * Z.of_nat (List.length ports)).
  { rewrite Hd, Hs, Hf, <- Nat2Z.inj_add, one_per_future, Hlen.
    apply Nat2Z.inj_mul. }
  exact Hsum.
Qed.

(** No cancellation.  When nobody calls [stop()], the pool can be
    created ([max_workers] above 0) and [int()] turns the readings of the
    clock into milliseconds, every unit of the product of targets and
    ports is submitted, in this order, and every one of them ends either as a stored result, counted in [done], or as a
    logged worker failure: [done] and the failures add up to
    [|targets| * |ports|].  When moreover the probe of no submitted future
    raises, the stored units are the units of the product, [done] reaches
    [|targets| * |ports|] (which is [total] unless a list is empty), and
    every port of every target has an entry in [results]. *)
Theorem scan_without_cancellation (self : PortScanner)
    (tgts : list string) (ports : list Z) (do_udp : bool)
    (on_result on_progress : bool) (W : scan_world) :
  0 < max_workers self ->
  clock_ok W ->
  _stop self = false ->
  (forall i, stop_calls W i = false) ->
  exists run,
    scan self tgts ports true do_udp on_result on_progress W = Returned run
    /\ map snd (futs run) = list_prod tgts ports
    /\ done run + Z.of_nat (List.length (faults (trace run)))
       = Z.of_nat (List.length tgts) * Z.of_nat (List.length ports)
    /\ (Forall (fun f => exists x, fut_result self W f = Returned x)
               (futs run) ->
        faults (trace run) = []
        /\ done run = Z.of_nat (List.length tgts) * Z.of_nat (List.length ports)
        /\ Permutation (map fst (stores (trace run))) (list_prod tgts ports)
        /\ (tgts <> [] -> ports <> [] -> done run = total run)
        /\ forall t p, In t tgts -> In p ports ->
             exists e, get Z.eqb (port_map (results (doc run)) t) p = Some e).
Proof.
  intros Hw Hck Hstop Hcalls.
  destruct (uncancelled_scan self tgts ports do_udp on_result on_progress W
              Hw Hck Hstop Hcalls)
    as (run & Hrun & Hunits & Hs & Hf & Hr & Hd & Ht).
  destruct (uncancelled_scan_counts self tgts ports do_udp on_result
              on_progress W Hw Hck Hstop Hcalls) as (run' & Hrun' & _ & Hsum).
  rewrite Hrun in Hrun'. inversion Hrun'; subst run'; clear Hrun'.
  exists run. split; [exact Hrun|]. split; [exact Hunits|].
  pose proof (as_completed_perm (completion W) (futs run)) as Hperm.
  split; [exact Hsum|].
  intros Hno.
  assert (Hno' : no_probe_raises self W
                   (as_completed (completion W) (futs run))).
  { unfold no_probe_raises.
    eapply Permutation_Forall; [apply Permutation_sym; exact Hperm|].
    exact Hno. }
  destruct (stored_units self W (as_completed (completion W) (futs run)) Hno')
    as [Hmap Hnone].
  split; [now rewrite Hf|].
  assert (Hdone : done run
                  = Z.of_nat (List.length tgts) * Z.of_nat (List.length ports)).
  { rewrite Hf, Hnone in Hsum. simpl in Hsum. lia. }
  assert (Hp : Permutation (map fst (stores (trace run)))
                           (list_prod tgts ports)).
  { rewrite Hs, Hmap, <- Hunits. now apply Permutation_map. }
  split; [exact Hdone|]. split; [exact Hp|]. split.
  - intros Ht' Hp'. rewrite Hdone, Ht.
    destruct tgts; [congruence|]. destruct ports; [congruence|].
    simpl List.length. lia.
  - intros t p Hin_t Hin_p.
    assert (Hin : In (t, p) (map fst (stores (trace run)))).
    { eapply Permutation_in; [apply Permutation_sym; exact Hp|].
      apply in_prod; assumption. }
    apply in_map_iff in Hin as ([[h' p'] i] & E & Hin).
    simpl in E. inversion E; subst h' p'.
    rewrite Hr. eapply stored_port_has_entry; eauto.
Qed.

Lemma scan_without_cancellation_witness :
  exists run,
    scan scanner0 ["a"; "b"] [80; 443] true false true true
         (quiet_world last_submitted_first 1) = Returned run
    /\ map snd (futs run) = [("a", 80); ("a", 443); ("b", 80); ("b", 443)]
    /\ done run = 4
    /\ done run = total run.
Proof.
  destruct (scan_without_cancellation scanner0 ["a"; "b"] [80; 443]
              false true true (quiet_world last_submitted_first 1)
              eq_refl (conj eq_refl eq_refl) eq_refl (fun _ => eq_refl))
    as (run & Hrun & Hu & _ & Hall).
  exists run. split; [exact Hrun|]. split; [exact Hu|].
  assert (Hno : Forall (fun f => exists x,
                          fut_result scanner0
                            (quiet_world last_submitted_first 1) f
                          = Returned x) (futs run)).
  { vm_compute in Hrun. inversion Hrun; subst run; clear Hrun.
    cbn [futs]. repeat constructor; eexists; reflexivity. }
  destruct (Hall Hno) as (_ & Hd & _ & Ht & _).
  split; [exact Hd|]. apply Ht; discriminate.
Defined.


(** ** What [results] holds *)

Lemma set_In_inv {K V : Type} (keq : K -> K -> bool)
    (keq_eq : forall a b, keq a b = true <-> a = b)
    (d : dict K V) k0 v0 k v :
  In (k, v) (set keq d k0 v0) -> (k = k0 /\ v = v0) \/ In (k, v) d.
Proof.
  induction d as [|[k1 v1] d IH]; simpl.
  - intros [H|[]]. inversion H; auto.
  - destruct (keq k1 k0) eqn:E; simpl.
    + apply keq_eq in E; subst k1. intros [H|H]; [inversion H; auto | auto].
    + intros [H|H]; [auto|]. destruct (IH H); auto.
Qed.

Lemma in_port_map r h p e :
  In (p, e) (port_map r h) -> exists pm, In (h, pm) r /\ In (p, e) pm.
Proof.
  unfold port_map. destruct (get String.eqb r h) as [pm|] eqn:E; [|intros []].
  intros H. exists pm. split; [|exact H].
  now apply (get_Some_in String.eqb string_eqb_eq).
Qed.

Lemma entries_stored_record seen r h p i :
  entries_stored seen r ->
  entries_stored (seen ++ [(h, p, i)]) (record r h p i).
Proof.
  intros Hinv h' pm' p' e' Hin Hin'. rewrite record_eq in Hin.
  assert (Hold : forall q e, In (q, e) (port_map r h) ->
                             exists j, e = [("tcp", j)] /\ In (h, q, j) seen).
  { intros q e Hq. apply in_port_map in Hq as (pm & H1 & H2). eauto. }
  assert (Hent : set String.eqb
                   (match get Z.eqb (port_map r h) p with
                    | Some e => e
                    | None => []
                    end) "tcp" i = [("tcp", i)]).
  { destruct (get Z.eqb (port_map r h) p) as [e|] eqn:E; [|reflexivity].
    apply (get_Some_in Z.eqb Z_eqb_eq) in E.
    destruct (Hold _ _ E) as (j & -> & _). reflexivity. }
  rewrite Hent in Hin.
  apply (set_In_inv String.eqb string_eqb_eq) in Hin as [[-> ->]|Hin].
  - apply (set_In_inv Z.eqb Z_eqb_eq) in Hin' as [[-> ->]|Hin'].
    + exists i. split; [reflexivity|]. apply in_or_app. right. now left.
    + destruct (Hold _ _ Hin') as (j & -> & Hj).
      exists j. split; [reflexivity|]. apply in_or_app. now left.
  - destruct (Hinv _ _ _ _ Hin Hin') as (j & -> & Hj).
    exists j. split; [reflexivity|]. apply in_or_app. now left.
Qed.

Lemma entries_stored_replay st : forall seen r,
  entries_stored seen r -> entries_stored (seen ++ st) (replay st r).
Proof.
  induction st as [|[[h p] i] st IH]; intros seen r H.
  - now rewrite app_nil_r.
  - rewrite replay_cons.
    replace (seen ++ (h, p, i) :: st) with ((seen ++ [(h, p, i)]) ++ st)
      by now rewrite <- app_assoc.
    apply IH. now apply entries_stored_record.
Qed.

Lemma entries_stored_init tgts : entries_stored [] (init_results tgts).
Proof.
  intros h pm p e Hin Hin'.
  pose proof (init_results_empty tgts) as He.
  rewrite Forall_forall in He. specialize (He _ Hin). simpl in He. subst pm.
  contradiction.
Qed.

Lemma probe_state_known self h p w x :
  _tcp_probe self h p w = Returned x ->
  In (state (snd x)) ["open"; "closed"; "filtered"; "error"].
Proof.
  destruct x as [[h' p'] info]. intros H.
  apply ProbeProofs.tcp_probe_returns_inv in H.
  destruct H as (_ & _ & _ & _ & Hcase). simpl.
  destruct (attempt w h p (timeout self)).
  - destruct Hcase as [-> _]. auto.
  - destruct Hcase as [_ [[-> _]|[[-> _]|[-> _]]]]; auto.
Qed.

(** What is stored comes from the probes ([max_workers] being above 0, so
    that the pool can be created, and the readings of the clock such that
    [int()] turns them into milliseconds).  Every stored result is what the
    probe of a submitted future returned for its unit, so its unit is one
    of the product of targets and ports and its state is open, closed,
    filtered or error.  And [results] holds nothing else: every entry of
    every port map is a single ["tcp"] record, the one of a store for this
    host and port. *)
Theorem stored_results_come_from_probes (self : PortScanner)
    (tgts : list string) (ports : list Z) (do_tcp do_udp : bool)
    (on_result on_progress : bool) (W : scan_world) :
  0 < max_workers self ->
  clock_ok W ->
  exists run,
    scan self tgts ports do_tcp do_udp on_result on_progress W = Returned run
    /\ Forall (fun x => probed self W (futs run) x
                        /\ In (fst x) (list_prod tgts ports)
                        /\ In (state (snd x))
                              ["open"; "closed"; "filtered"; "error"])
              (stores (trace run))
    /\ forall h pm p e,
         In (h, pm) (items (results (doc run))) -> In (p, e) (items pm) ->
         exists i, e = [("tcp", i)] /\ In (h, p, i) (stores (trace run)).
Proof.
  intros Hw Hck.
  destruct (scan_stores self tgts ports do_tcp do_udp on_result on_progress W Hw Hck)
    as (run & k & Hrun & _ & Hs & _ & Hr & _ & _ & (n & Hn) & _).
  exists run. split; [exact Hrun|]. split.
  - apply Forall_forall. intros x Hx. rewrite Hs in Hx.
    apply in_flat_map in Hx as (f & Hf & Hx).
    apply firstn_In_all in Hf.
    apply (Permutation_in _ (as_completed_perm (completion W) (futs run)))
      in Hf.
    pose proof (stored_of_probed self W (futs run) f x Hf Hx) as Hp.
    split; [exact Hp|]. destruct Hp as (i & Hi & Hprobe). split.
    + assert (Hi' : In (fst x) (map snd (futs run)))
        by exact (in_map snd _ _ Hi).
      rewrite Hn in Hi'. now apply firstn_In_all in Hi'.
    + eapply probe_state_known; eauto.
  - rewrite Hr. intros h pm p e Hin Hin'.
    exact (entries_stored_replay (stores (trace run)) [] (init_results tgts)
             (entries_stored_init tgts) h pm p e Hin Hin').
Qed.

Lemma stored_results_come_from_probes_witness :
  exists run,
    scan scanner0 ["h"] [80; 443; 8080] true false true true
         second_probe_faults = Returned run
    /\ Forall (fun x => In (fst x) (list_prod ["h"] [80; 443; 8080])
                        /\ In (state (snd x))
                              ["open"; "closed"; "filtered"; "error"])
              (stores (trace run)).
Proof.
  destruct (stored_results_come_from_probes scanner0 ["h"] [80; 443; 8080]
              true false true true second_probe_faults eq_refl (conj eq_refl eq_refl))
    as (run & Hrun & Hall & _).
  exists run. split; [exact Hrun|].
  eapply Forall_impl; [|exact Hall]. intros x (_ & H1 & H2). auto.
Defined.

(** One call of each callback per stored result.  When both callbacks are
    given, the pool can be created and [int()] turns the readings of the
    clock into milliseconds, [on_result] is called exactly for
    the results stored, in the order in which they are stored and with
    what is stored, and [on_progress] is called as often: [done] times
    each.  The loop takes some number [k] of the completed futures; each
    of them either gives one call of [on_result] (its probe returned) or
    one logged failure (its probe raised), never both: the calls and the
    failures add up to [k]. *)
Theorem callbacks_once_per_store (self : PortScanner)
    (tgts : list string) (ports : list Z) (do_tcp do_udp : bool)
    (W : scan_world) :
  0 < max_workers self ->
  clock_ok W ->
  exists run,
    scan self tgts ports do_tcp do_udp true true W = Returned run
    /\ result_calls (trace run) = stores (trace run)
    /\ Z.of_nat (List.length (result_calls (trace run))) = done run
    /\ Z.of_nat (List.length (progress_calls (trace run))) = done run
    /\ exists k,
         (k <= List.length (futs run))%nat
         /\ result_calls (trace run)
            = flat_map (fun f => match fut_result self W f with
                                 | Returned x => [x]
                                 | Raised _ => []
                                 end)
                (firstn k (as_completed (completion W) (futs run)))
         /\ faults (trace run)
            = flat_map (fun f => match fut_result self W f with
                                 | Returned _ => []
                                 | Raised _ => [LogWorkerFailure]
                                 end)
                (firstn k (as_completed (completion W) (futs run)))
         /\ (List.length (result_calls (trace run))
             + List.length (faults (trace run)))%nat = k.
Proof.
  intros Hw Hck.
  destruct (scan_anatomy self tgts ports do_tcp do_udp true true W Hw Hck)
    as (run & s' & Hrun & _ & _ & _ & _ & _ & _ & _ & _ & Hdone & Hprog
        & Hres & _).
  destruct (scan_stores self tgts ports do_tcp do_udp true true W Hw Hck)
    as (run' & k & Hrun' & Hk & Hs & Hf & _).
  rewrite Hrun in Hrun'. inversion Hrun'; subst run'; clear Hrun'.
  exists run. split; [exact Hrun|]. split; [exact Hres|].
  split; [now rewrite Hres, Hdone|].
  split.
  { rewrite Hprog, Hdone. unfold counting.
    now rewrite length_map, length_seq. }
  exists k. split; [exact Hk|].
  split; [rewrite Hres; exact Hs|]. split; [exact Hf|].
  rewrite Hres, Hs, Hf, one_per_future, length_firstn.
  apply Nat.min_l.
  rewrite (Permutation_length (as_completed_perm (completion W) (futs run))).
  exact Hk.
Qed.

Lemma callbacks_once_per_store_witness :
  exists run,
    scan scanner0 ["h"] [80; 443; 8080] true false true true
         second_probe_faults = Returned run
    /\ List.length (result_calls (trace run)) = 2%nat
    /\ List.length (faults (trace run)) = 1%nat.
Proof.
  destruct (callbacks_once_per_store scanner0 ["h"] [80; 443; 8080]
              true false second_probe_faults eq_refl (conj eq_refl eq_refl))
    as (run & Hrun & _ & _ & _ & _).
  exists run. split; [exact Hrun|].
  vm_compute in Hrun. inversion Hrun; subst run. split; reflexivity.
Defined.


(** The hosts of a run, in [results] and in [summaries]. *)
Lemma run_hosts self tgts ports do_tcp do_udp onr onp W :
  0 < max_workers self ->
  clock_ok W ->
  exists run,
    scan self tgts ports do_tcp do_udp onr onp W = Returned run
    /\ keys (results (doc run)) = first_occurrences String.eqb tgts
    /\ map host (summaries (doc run)) = first_occurrences String.eqb tgts.
Proof.
  intros Hw Hck.
  destruct (scan_anatomy self tgts ports do_tcp do_udp onr onp W Hw Hck)
    as (run & s' & Hrun & _ & Hsum & _ & _ & _ & _ & (n & Hunits) & Hres
        & _ & _ & _ & _ & Hst).
  exists run. split; [exact Hrun|].
  assert (Hkeys : keys (results (doc run)) = first_occurrences String.eqb tgts).
  { rewrite Hres, keys_replay, keys_init_results.
    apply (fold_see_present String.eqb string_eqb_eq).
    intros x Hx. apply (first_occurrences_In String.eqb string_eqb_eq).
    eapply ScanClaims.stores_hosts_in_targets; eauto. }
  split; [exact Hkeys|].
  now rewrite Hsum, ScanClaims.map_host_summaries.
Qed.

End ScanMore.

(* ================================================================== *)
(** * parse_hosts and validate_host *)
(* ================================================================== *)

Module HostProofs.
Import Py Common PortLists Hosts PyFacts Observations ScanProofs CommonProofs.

(** ** [strip] *)

Lemma lstrip_fixed t :
  match t with [] => True | c :: _ => isspace c = false end -> lstrip t = t.
Proof. destruct t as [|c t]; [reflexivity|]. simpl. now intros ->. Qed.

Lemma lstrip_head t :
  match lstrip t with [] => True | c :: _ => isspace c = false end.
Proof.
  induction t as [|c t IH]; simpl; [exact I|].
  destruct (isspace c) eqn:E; [exact IH | exact E].
Qed.

Lemma lstrip_suffix t : exists pre, t = pre ++ lstrip t.
Proof.
  induction t as [|c t [pre IH]]; simpl; [now exists []|].
  destruct (isspace c).
  - exists (c :: pre). simpl. now rewrite <- IH.
  - now exists [].
Qed.

Lemma lstrip_lstrip t : lstrip (lstrip t) = lstrip t.
Proof. apply lstrip_fixed, lstrip_head. Qed.

Lemma strip_trimmed t : trimmed (strip t).
Proof.
  unfold strip, rstrip, trimmed.
  set (u := lstrip t). set (v := lstrip (rev u)).
  split.
  - apply lstrip_fixed. destruct (rev v) as [|c w] eqn:E; [exact I|].
    destruct (lstrip_suffix (rev u)) as [pre Hpre]. fold v in Hpre.
    assert (Hu : u = rev v ++ rev pre).
    { rewrite <- (rev_involutive u), Hpre, rev_app_distr. reflexivity. }
    rewrite E in Hu. pose proof (lstrip_head t) as Hh. fold u in Hh.
    rewrite Hu in Hh. exact Hh.
  - rewrite rev_involutive. unfold v. apply lstrip_lstrip.
Qed.

Lemma strip_of_trimmed t : trimmed t -> strip t = t.
Proof.
  intros [H1 H2]. unfold strip, rstrip. rewrite H1, H2.
  apply rev_involutive.
Qed.

Lemma strip_strip t : strip (strip t) = strip t.
Proof. apply strip_of_trimmed, strip_trimmed. Qed.

Lemma lstrip_incl t c : In c (lstrip t) -> In c t.
Proof.
  destruct (lstrip_suffix t) as [pre H]. intros Hc. rewrite H.
  apply in_or_app. now right.
Qed.

Lemma strip_incl t c : In c (strip t) -> In c t.
Proof.
  unfold strip, rstrip. intros H. apply in_rev in H.
  apply lstrip_incl in H. apply in_rev in H. now apply lstrip_incl in H.
Qed.

Lemma nonblank_strip t : nonblank t = true -> strip t <> [].
Proof. unfold nonblank. destruct (strip t); congruence. Qed.

(** ** [split] *)

Lemma split_nonempty sep s : split sep s <> [].
Proof.
  destruct s as [|c s]; simpl; [discriminate|].
  destruct (chr_eqb c sep); [discriminate|].
  destruct (split sep s); discriminate.
Qed.

Lemma split_pieces sep s :
  Forall (fun piece => ~ In sep piece) (split sep s).
Proof.
  induction s as [|c s IH]; simpl.
  - constructor; [intros []|constructor].
  - destruct (chr_eqb c sep) eqn:E.
    + constructor; [intros []|exact IH].
    + destruct (split sep s) as [|t ts]; [repeat constructor|].
      * intros [H|[]]. subst. unfold chr_eqb in E.
        rewrite Ascii.eqb_refl in E. discriminate.
      * inversion IH as [|? ? Ht Hts]; subst. constructor; [|exact Hts].
        intros [H|H]; [|now apply Ht]. subst. unfold chr_eqb in E.
        rewrite Ascii.eqb_refl in E. discriminate.
Qed.

(** ** [parse_hosts] *)

Lemma keys_fromkeys_from l : forall d : dict string unit,
  keys (fold_left (fun d x => set String.eqb d x tt) l d)
  = fold_left (see String.eqb) l (keys d).
Proof.
  induction l as [|x l IH]; intros d; cbn [fold_left]; [reflexivity|].
  now rewrite IH, (keys_set String.eqb string_eqb_eq).
Qed.

Lemma parse_hosts_first_occurrences s :
  parse_hosts s = first_occurrences String.eqb (host_items s).
Proof. apply keys_fromkeys_from. Qed.

Lemma host_items_clean s h :
  In h (host_items s) ->
  h <> ""
  /\ trimmed (list_ascii_of_string h)
  /\ ~ In ","%char (list_ascii_of_string h).
Proof.
  unfold host_items. intros H. apply in_map_iff in H as (piece & <- & Hp).
  apply filter_In in Hp as [Hp Hnb].
  rewrite list_ascii_of_string_of_list_ascii. split; [|split].
  - intros E. apply nonblank_strip in Hnb. apply Hnb.
    rewrite <- (list_ascii_of_string_of_list_ascii (strip piece)), E.
    reflexivity.
  - apply strip_trimmed.
  - intros Hc. apply strip_incl in Hc.
    pose proof (split_pieces ","%char (list_ascii_of_string s)) as Hall.
    rewrite Forall_forall in Hall. exact (Hall _ Hp Hc).
Qed.

(** What [parse_hosts] returns: the hosts named in the text, each once, in
    the order in which they first occur; none of them is empty, has a blank
    at either end or holds a comma. *)
Theorem parse_hosts_distinct_and_trimmed (s : string) :
  NoDup (parse_hosts s)
  /\ parse_hosts s = first_occurrences String.eqb (host_items s)
  /\ (forall h, In h (parse_hosts s) <-> In h (host_items s))
  /\ forall h, In h (parse_hosts s) ->
       h <> ""
       /\ strip (list_ascii_of_string h) = list_ascii_of_string h
       /\ ~ In ","%char (list_ascii_of_string h).
Proof.
  rewrite parse_hosts_first_occurrences.
  split; [apply (first_occurrences_NoDup String.eqb string_eqb_eq)|].
  split; [reflexivity|].
  split; [intros h; apply (first_occurrences_In String.eqb string_eqb_eq)|].
  intros h Hh. apply -> (first_occurrences_In String.eqb string_eqb_eq) in Hh.
  destruct (host_items_clean s h Hh) as (H1 & H2 & H3).
  split; [exact H1|]. split; [now apply strip_of_trimmed | exact H3].
Qed.

Lemma parse_hosts_distinct_and_trimmed_witness :
  "b" <> ""
  /\ strip (list_ascii_of_string "b") = list_ascii_of_string "b"
  /\ ~ In ","%char (list_ascii_of_string "b").
Proof.
  apply (parse_hosts_distinct_and_trimmed " a, b ,,a").
  vm_compute. auto.
Defined.

Lemma host_items_written hs :
  Forall (fun h => h <> "" /\ Forall plain (list_ascii_of_string h)) hs ->
  host_items (write_hosts hs) = hs.
Proof.
  intros Hall. unfold host_items, write_hosts.
  rewrite list_ascii_of_string_of_list_ascii.
  destruct hs as [|h hs]; [reflexivity|].
  assert (Hplain : Forall (Forall plain)
                     (map list_ascii_of_string (h :: hs))).
  { apply Forall_forall. intros t Ht. apply in_map_iff in Ht as (x & <- & Hx).
    rewrite Forall_forall in Hall. now apply Hall. }
  assert (Hne : forall t, In t (map list_ascii_of_string (h :: hs)) -> t <> []).
  { intros t Ht. apply in_map_iff in Ht as (x & <- & Hx).
    rewrite Forall_forall in Hall. destruct (Hall _ Hx) as [Hx' _].
    intros E. apply Hx'.
    rewrite <- (string_of_list_ascii_of_string x), E. reflexivity. }
  rewrite split_join by (assumption || discriminate).
  assert (Hfilter : filter nonblank (map list_ascii_of_string (h :: hs))
                    = map list_ascii_of_string (h :: hs)).
  { apply forallb_filter_id. apply forallb_forall. intros t Ht.
    rewrite Forall_forall in Hplain. apply nonblank_plain; auto. }
  rewrite Hfilter, map_map.
  rewrite <- (map_id (h :: hs)) at 2. apply map_ext_in. intros x Hx.
  rewrite strip_plain.
  - apply string_of_list_ascii_of_string.
  - rewrite Forall_forall in Hall. now apply Hall.
Qed.

(** Writing and reading back.  A list of hosts made of ASCII characters
    other than blanks and commas, written with commas between them, is
    read back by [parse_hosts] as the hosts in the order of their first
    occurrence: as the list itself when no host is repeated. *)
Theorem parse_hosts_reads_back (hs : list string) :
  Forall (fun h => h <> ""
                   /\ Forall (fun c => (nat_of_ascii c < 128)%nat /\ plain c)
                             (list_ascii_of_string h)) hs ->
  parse_hosts (write_hosts hs) = first_occurrences String.eqb hs
  /\ (NoDup hs -> parse_hosts (write_hosts hs) = hs).
Proof.
  intros Hall.
  assert (Hall' : Forall (fun h => h <> ""
                                   /\ Forall plain (list_ascii_of_string h))
                         hs).
  { eapply Forall_impl; [|exact Hall]. intros h [Hne Hc].
    split; [exact Hne|]. eapply Forall_impl; [|exact Hc].
    intros c [_ Hp]. exact Hp. }
  rewrite parse_hosts_first_occurrences, host_items_written by assumption.
  split; [reflexivity|].
  apply (first_occurrences_distinct String.eqb string_eqb_eq).
Qed.

Lemma parse_hosts_reads_back_witness :
  parse_hosts "a.example,10.0.0.1" = ["a.example"; "10.0.0.1"].
Proof.
  apply (parse_hosts_reads_back ["a.example"; "10.0.0.1"]).
  - repeat constructor; try discriminate;
      repeat (constructor; [split; [vm_compute; lia | repeat split]|]);
      constructor.
  - repeat constructor; simpl; intuition discriminate.
Defined.


(** ** The pattern of [validate_host] *)

Lemma matches_upto_S n a s k :
  matches (Upto (S n) a) s k
  = matches a s (fun s' => matches (Upto n a) s' k) || k s.
Proof. reflexivity. Qed.

(** [[f]{0,n}] takes at most [n] characters of the class. *)
Lemma matches_upto_cls f n : forall s k,
  matches (Upto n (Cls f)) s k = true
  <-> exists pre post,
        s = pre ++ post /\ (List.length pre <= n)%nat
        /\ Forall (fun c => f c = true) pre /\ k post = true.
Proof.
  induction n as [|n IH]; intros s k.
  - change (matches (Upto 0 (Cls f)) s k) with (k s). split.
    + intros H. exists [], s. repeat split; auto.
    + intros (pre & post & -> & Hlen & _ & Hk).
      destruct pre; [exact Hk | simpl in Hlen; lia].
  - rewrite matches_upto_S, orb_true_iff. cbn [matches]. split.
    + intros [H|H].
      * destruct s as [|c s']; [discriminate|].
        apply andb_true_iff in H as [Hc H]. apply IH in H.
        destruct H as (pre & post & -> & Hlen & Hall & Hk).
        exists (c :: pre), post. repeat split; simpl; auto; lia.
      * exists [], s. repeat split; auto. simpl; lia.
    + intros (pre & post & -> & Hlen & Hall & Hk).
      destruct pre as [|c pre]; [now right|]. left.
      inversion Hall as [|? ? Hc Hall']; subst. cbn [app].
      rewrite Hc. cbn [andb]. apply IH.
      exists pre, post. repeat split; auto. simpl in Hlen; lia.
Qed.

Lemma fullmatch_host_cons c s :
  fullmatch HOST_RE (c :: s)
  = alnum c
    && (matches (Upto 253 (Cls host_chr)) s
          (fun s' => matches (Cls alnum) s' at_end)
        || at_end s).
Proof. reflexivity. Qed.

Lemma fullmatch_host_shaped t : fullmatch HOST_RE t = true <-> host_shaped t.
Proof.
  destruct t as [|c s].
  { split; [discriminate|].
    intros [(c & E & _)|(c & mid & l & E & _)]; discriminate. }
  rewrite fullmatch_host_cons, andb_true_iff, orb_true_iff.
  rewrite matches_upto_cls. split.
  - intros [Hc [H|H]].
    + destruct H as (mid & post & -> & Hlen & Hall & Hk). right.
      cbn [matches] in Hk. destruct post as [|l post]; [discriminate|].
      apply andb_true_iff in Hk as [Hl Hp].
      destruct post; [|discriminate].
      exists c, mid, l. repeat split; auto.
    + left. destruct s; [|discriminate]. exists c. auto.
  - intros [(c' & E & Hc)|(c' & mid & l & E & Hc & Hl & Hall & Hlen)];
      inversion E; subst.
    + split; [exact Hc | now right].
    + split; [exact Hc|]. left. exists mid, [l]. repeat split; auto.
      cbn [matches]. now rewrite Hl.
Qed.

Lemma alnum_plain c : alnum c = true -> plain c.
Proof.
  destruct c as [[] [] [] [] [] [] [] []]; vm_compute; intros H;
    try discriminate H; repeat split.
Qed.

Lemma host_chr_plain c : host_chr c = true -> plain c.
Proof.
  destruct c as [[] [] [] [] [] [] [] []]; vm_compute; intros H;
    try discriminate H; repeat split.
Qed.

Lemma host_shaped_plain t :
  host_shaped t ->
  t <> [] /\ (List.length t <= 255)%nat /\ Forall plain t.
Proof.
  intros [(c & -> & Hc)|(c & mid & l & -> & Hc & Hl & Hall & Hlen)].
  - split; [discriminate|]. split; [simpl; lia|].
    constructor; [now apply alnum_plain | constructor].
  - split; [discriminate|]. split.
    + simpl. rewrite length_app. simpl. lia.
    + constructor; [now apply alnum_plain|]. apply Forall_app. split.
      * eapply Forall_impl; [|exact Hall]. intros x. apply host_chr_plain.
      * constructor; [now apply alnum_plain | constructor].
Qed.

(** What [validate_host] accepts.  A host that is no IP address is
    accepted exactly when it has 1 to 255 characters, all of them letters,
    digits, dashes or dots, and begins and ends with a letter or digit.
    So an accepted host name is never empty and holds no blank and no
    comma. *)
Theorem validate_host_accepts (ip_address : string -> bool) (h : string) :
  (validate_host ip_address h = true
   <-> ip_address h = true \/ host_shaped (list_ascii_of_string h))
  /\ (ip_address h = false -> validate_host ip_address h = true ->
      h <> ""
      /\ (String.length h <= 255)%nat
      /\ Forall plain (list_ascii_of_string h)).
Proof.
  unfold validate_host. split.
  - destruct (ip_address h).
    + split; auto.
    + rewrite fullmatch_host_shaped. split; [auto|].
      intros [H|H]; [discriminate | exact H].
  - intros Hip. rewrite Hip. intros H. apply fullmatch_host_shaped in H.
    apply host_shaped_plain in H. destruct H as (Hne & Hlen & Hall).
    split; [|split; [|exact Hall]].
    + intros ->. now apply Hne.
    + rewrite <- (string_of_list_ascii_of_string h).
      clear - Hlen. revert Hlen.
      generalize (list_ascii_of_string h). intros l.
      assert (E : String.length (string_of_list_ascii l) = List.length l).
      { induction l; simpl; auto. }
      now rewrite E.
Qed.

Lemma validate_host_accepts_witness :
  "a..b" <> "" /\ (String.length "a..b" <= 255)%nat
  /\ Forall plain (list_ascii_of_string "a..b").
Proof.
  apply (validate_host_accepts (fun _ => false) "a..b"); reflexivity.
Defined.

End HostProofs.

(* ================================================================== *)
(** * The export and what the analysis reads *)
(* ================================================================== *)

Module ExportProofs.
Import Py Scanner Common Worlds Hosts Gui AiEngine.
Import PyFacts Observations ScanProofs.

(** ** [sorted(l, key=...)] *)

Lemma insert_by_perm {A : Type} (key : A -> Z) x l :
  Permutation (insert_by key x l) (x :: l).
Proof.
  induction l as [|y l IH]; cbn [insert_by]; [apply Permutation_refl|].
  destruct (key x <=? key y); [apply Permutation_refl|].
  rewrite IH. apply perm_swap.
Qed.

Lemma sorted_by_perm {A : Type} (key : A -> Z) l :
  Permutation (sorted_by key l) l.
Proof.
  unfold sorted_by. induction l as [|x l IH]; cbn [fold_right]; [constructor|].
  rewrite insert_by_perm. now constructor.
Qed.

Lemma insert_by_strict {A : Type} (key : A -> Z) x l :
  StronglySorted (fun a b => key a < key b) l ->
  ~ In (key x) (map key l) ->
  StronglySorted (fun a b => key a < key b) (insert_by key x l).
Proof.
  induction l as [|y l IH]; cbn [insert_by]; intros Hs Hx.
  - repeat constructor.
  - inversion Hs as [|? ? Hl Hy]; subst.
    destruct (Z.leb_spec (key x) (key y)) as [Hle|Hlt].
    + assert (key x < key y)
        by (assert (key y <> key x) by (simpl in Hx; tauto); lia).
      constructor; [assumption|]. constructor; [assumption|].
      eapply Forall_impl; [|exact Hy]. simpl. intros; lia.
    + constructor.
      * apply IH; [assumption|]. simpl in Hx. tauto.
      * apply Forall_forall. intros z Hz.
        apply (Permutation_in _ (insert_by_perm key x l)) in Hz.
        destruct Hz as [<-|Hz]; [lia|].
        rewrite Forall_forall in Hy. auto.
Qed.

Lemma sorted_by_strict {A : Type} (key : A -> Z) l :
  NoDup (map key l) ->
  StronglySorted (fun a b => key a < key b) (sorted_by key l).
Proof.
  unfold sorted_by. induction l as [|x l IH]; cbn [fold_right map];
    intros Hnd; [constructor|].
  inversion Hnd as [|? ? Hx Hl]; subst.
  apply insert_by_strict; [now apply IH|].
  intros Hin. apply Hx.
  eapply Permutation_in; [|exact Hin].
  apply Permutation_map. apply sorted_by_perm.
Qed.

Lemma strict_map_filter {A : Type} (key : A -> Z) (f : A -> bool) l :
  StronglySorted (fun a b => key a < key b) l ->
  StronglySorted Z.lt (map key (filter f l)).
Proof.
  induction 1 as [|x l Hl IH Hx]; cbn [filter]; [constructor|].
  destruct (f x); [|exact IH]. cbn [map]. constructor; [exact IH|].
  apply Forall_forall. intros k Hk. apply in_map_iff in Hk as (y & <- & Hy).
  apply filter_In in Hy as [Hy _]. rewrite Forall_forall in Hx. auto.
Qed.

Lemma strict_map {A : Type} (key : A -> Z) l :
  StronglySorted (fun a b => key a < key b) l ->
  StronglySorted Z.lt (map key l).
Proof.
  induction 1 as [|x l Hl IH Hx]; cbn [map]; constructor; [exact IH|].
  apply Forall_forall. intros k Hk. apply in_map_iff in Hk as (y & <- & Hy).
  rewrite Forall_forall in Hx. auto.
Qed.

(** ** One host of the export *)

Lemma entry_of_port pd : Exported.port (entry_of pd) = fst pd.
Proof. destruct pd; reflexivity. Qed.

Lemma entry_of_tcp pd : Exported.tcp (entry_of pd) = tcp_state (snd pd).
Proof.
  destruct pd as [p detail]. unfold entry_of, tcp_state. simpl.
  now destruct (get String.eqb detail "tcp").
Qed.

Lemma ports_of_entries (pm : PortMap) :
  map Exported.port (map entry_of (items pm)) = keys pm.
Proof.
  unfold items, keys. rewrite map_map. apply map_ext. apply entry_of_port.
Qed.

Lemma host_entry_sorted h (pm : PortMap) :
  NoDup (keys pm) ->
  Exported.host (host_entry_of (h, pm)) = h
  /\ StronglySorted Z.lt (map Exported.port (Exported.ports (host_entry_of (h, pm))))
  /\ Permutation (Exported.ports (host_entry_of (h, pm)))
                 (map entry_of (items pm)).
Proof.
  intros Hnd. cbn [host_entry_of Exported.host Exported.ports].
  split; [reflexivity|]. split.
  - apply strict_map. apply sorted_by_strict.
    now rewrite ports_of_entries.
  - apply sorted_by_perm.
Qed.

Lemma ctx_open_tcp_members h (pm : PortMap) p :
  In p (ctx_open_tcp (host_entry_of (h, pm)))
  <-> In p (open_tcp (summarize (h, pm))).
Proof.
  unfold ctx_open_tcp. cbn [host_entry_of Exported.ports].
  rewrite summarize_open. cbn [snd]. rewrite !in_map_iff. split.
  - intros (e & <- & He). apply filter_In in He as [He Hopen].
    apply (Permutation_in _ (sorted_by_perm Exported.port _)) in He.
    apply in_map_iff in He as (pd & <- & Hpd).
    exists pd. split; [symmetry; apply entry_of_port|].
    apply filter_In. split; [exact Hpd|].
    unfold state_is. now rewrite <- entry_of_tcp.
  - intros (pd & <- & Hpd). apply filter_In in Hpd as [Hpd Hopen].
    exists (entry_of pd). split; [apply entry_of_port|].
    apply filter_In. split.
    + apply (Permutation_in _ (Permutation_sym (sorted_by_perm _ _))).
      now apply in_map.
    + unfold state_is in Hopen. now rewrite entry_of_tcp.
Qed.

Lemma results_well_keyed self tgts ports do_tcp do_udp onr onp W :
  0 < max_workers self ->
  clock_ok W ->
  exists run,
    scan self tgts ports do_tcp do_udp onr onp W = Returned run
    /\ well_keyed (results (doc run))
    /\ summaries (doc run) = map summarize (items (results (doc run))).
Proof.
  intros Hw Hck.
  destruct (scan_anatomy self tgts ports do_tcp do_udp onr onp W Hw Hck)
    as (run & s' & Hrun & _ & Hsum & _ & _ & _ & _ & _ & Hres & _).
  exists run. split; [exact Hrun|]. split; [|exact Hsum].
  rewrite Hres. apply well_keyed_replay, well_keyed_init_results.
Qed.

(** The export is sorted.  For the document of a scan (of a scanner whose
    pool can be created: [max_workers] above 0; the readings of the clock
    being such that [int()] turns them into milliseconds),
    [_materialize_results] keeps the hosts of [results] in their order and gives each host one entry for each port
    stored for it, in ascending port order, each with the tcp state that is
    stored. *)
Theorem export_lists_ports_ascending (self : PortScanner)
    (tgts : list string) (ports : list Z) (do_tcp do_udp : bool)
    (on_result on_progress : bool) (W : scan_world) :
  0 < max_workers self ->
  clock_ok W ->
  exists run,
    scan self tgts ports do_tcp do_udp on_result on_progress W = Returned run
    /\ Forall2
         (fun (entry : string * PortMap) (hx : Exported.HostEntry) =>
            Exported.host hx = fst entry
            /\ StronglySorted Z.lt (map Exported.port (Exported.ports hx))
            /\ (forall p, In p (map Exported.port (Exported.ports hx))
                          <-> In p (keys (snd entry)))
            /\ forall e, In e (Exported.ports hx) ->
                 exists detail,
                   get Z.eqb (snd entry) (Exported.port e) = Some detail
                   /\ Exported.tcp e = tcp_state detail)
         (items (results (doc run)))
         (Exported.results (_materialize_results (doc run))).
Proof.
  intros Hw Hck.
  destruct (results_well_keyed self tgts ports do_tcp do_udp on_result
              on_progress W Hw Hck) as (run & Hrun & [_ Hwk] & _).
  exists run. split; [exact Hrun|].
  cbn [_materialize_results Exported.results].
  apply Forall2_map_r. intros [h pm] Hin.
  rewrite Forall_forall in Hwk. specialize (Hwk _ Hin). simpl in Hwk.
  destruct (host_entry_sorted h pm Hwk) as (Hh & Hs & Hp).
  cbn [fst snd]. split; [exact Hh|]. split; [exact Hs|]. split.
  - intros p. rewrite <- ports_of_entries. split; intros Hp'.
    + eapply Permutation_in; [|exact Hp']. now apply Permutation_map.
    + eapply Permutation_in; [|exact Hp'].
      apply Permutation_sym. now apply Permutation_map.
  - intros e He. apply (Permutation_in _ Hp) in He.
    apply in_map_iff in He as ([p detail] & <- & Hpd).
    exists detail. split.
    + rewrite entry_of_port. cbn [fst].
      now apply (in_items_get Z.eqb Z_eqb_eq).
    + apply (entry_of_tcp (p, detail)).
Qed.

Lemma export_lists_ports_ascending_witness :
  exists run,
    scan scanner0 ["h"] [80; 443] true false true true
         (quiet_world last_submitted_first 0) = Returned run
    /\ map open_tcp (summaries (doc run)) = [[443; 80]]
    /\ map (fun hx => map Exported.port (Exported.ports hx))
           (Exported.results (_materialize_results (doc run)))
       = [[80; 443]].
Proof.
  destruct (export_lists_ports_ascending scanner0 ["h"] [80; 443]
              true false true true (quiet_world last_submitted_first 0)
              eq_refl (conj eq_refl eq_refl)) as (run & Hrun & _).
  exists run. split; [exact Hrun|].
  vm_compute in Hrun. inversion Hrun; subst run. split; reflexivity.
Defined.

(** What the analysis reads is ascending.  After a scan (of a scanner
    whose pool can be created: [max_workers] above 0; the readings of the
    clock being such that [int()] turns them into milliseconds), for every
    host, the open ports that [LocalAI.analyze] puts into its context from the exported
    document are the open ports of the host's summary, in ascending order
    (the summary itself has them in completion order). *)
Theorem analysis_reads_open_ports_ascending (self : PortScanner)
    (tgts : list string) (ports : list Z) (do_tcp do_udp : bool)
    (on_result on_progress : bool) (W : scan_world) :
  0 < max_workers self ->
  clock_ok W ->
  exists run,
    scan self tgts ports do_tcp do_udp on_result on_progress W = Returned run
    /\ Forall2
         (fun (s : Summary) (c : string * list Z) =>
            fst c = host s
            /\ StronglySorted Z.lt (snd c)
            /\ forall p, In p (snd c) <-> In p (open_tcp s))
         (summaries (doc run))
         (ctx_results (_materialize_results (doc run))).
Proof.
  intros Hw Hck.
  destruct (results_well_keyed self tgts ports do_tcp do_udp on_result
              on_progress W Hw Hck) as (run & Hrun & [_ Hwk] & Hsum).
  exists run. split; [exact Hrun|].
  unfold ctx_results. cbn [_materialize_results Exported.results].
  rewrite Hsum, map_map. unfold items. clear Hrun Hsum. revert Hwk.
  generalize (results (doc run)) as r.
  induction r as [|[h pm] r IH]; intros Hwk; [constructor|].
  inversion Hwk as [|? ? Hpm Hr]; subst. simpl in Hpm.
  cbn [map]. constructor; [|now apply IH].
  destruct (host_entry_sorted h pm Hpm) as (Hh & Hs & _).
  cbn [fst snd]. split; [exact Hh|]. split.
  - unfold ctx_open_tcp. apply strict_map_filter.
    cbn [host_entry_of Exported.ports]. apply sorted_by_strict.
    now rewrite ports_of_entries.
  - intros p. apply ctx_open_tcp_members.
Qed.

Lemma analysis_reads_open_ports_ascending_witness :
  exists run,
    scan scanner0 ["h"] [80; 443] true false true true
         (quiet_world last_submitted_first 0) = Returned run
    /\ map open_tcp (summaries (doc run)) = [[443; 80]]
    /\ ctx_results (_materialize_results (doc run)) = [("h", [80; 443])].
Proof.
  destruct (analysis_reads_open_ports_ascending scanner0 ["h"] [80; 443]
              true false true true (quiet_world last_submitted_first 0)
              eq_refl (conj eq_refl eq_refl)) as (run & Hrun & _).
  exists run. split; [exact Hrun|].
  vm_compute in Hrun. inversion Hrun; subst run. split; reflexivity.
Defined.

End ExportProofs.

(* ================================================================== *)
(** * The window: validator and start of a scan *)
(* ================================================================== *)

Module GuiProofs.
Import Py Scanner Common PortLists Hosts Gui RunFacts Worlds.
Import PyFacts Observations ScanProofs CommonProofs HostProofs ScanMore.

Lemma invalid_on_ValueError_returns e :
  cls e = ValueError -> invalid_on_ValueError e = Returned Invalid.
Proof.
  unfold invalid_on_ValueError, isinstance. intros ->. reflexivity.
Qed.

Lemma check_tokens_returns tokens : exists st, check_tokens tokens = Returned st.
Proof.
  induction tokens as [|t ts IH]; cbn [check_tokens]; [eauto|].
  destruct t as [|c t]; [exact IH|].
  destruct (contains "-" (c :: t)).
  - destruct (split_once "-" (c :: t)) as [[a b]|].
    + destruct (int a) as [a'|ea] eqn:Ea.
      * destruct (int b) as [b'|eb] eqn:Eb.
        -- destruct (negb _); eauto.
        -- rewrite invalid_on_ValueError_returns
             by (eapply int_raises_ValueError; eauto). eauto.
      * rewrite invalid_on_ValueError_returns
          by (eapply int_raises_ValueError; eauto). eauto.
    + rewrite invalid_on_ValueError_returns by reflexivity. eauto.
  - destruct (int (c :: t)) as [n|en] eqn:En.
    + destruct (negb _); eauto.
    + rewrite invalid_on_ValueError_returns
        by (eapply int_raises_ValueError; eauto). eauto.
Qed.

(** ** What the validator accepts, [parse_ports] reads *)

Lemma invalid_on_ValueError_not_acceptable e :
  invalid_on_ValueError e <> Returned Acceptable.
Proof.
  unfold invalid_on_ValueError. destruct (isinstance e ValueError);
    discriminate.
Qed.

Lemma nonblank_by_strip piece :
  nonblank piece = match strip piece with [] => false | _ :: _ => true end.
Proof. reflexivity. Qed.

Lemma check_accept_collect pieces : forall out,
  check_tokens (map strip pieces) = Returned Acceptable ->
  Forall (fun p => 1 <= p <= 65535) out ->
  exists out',
    collect (map strip (filter nonblank pieces)) out = Returned out'
    /\ Forall (fun p => 1 <= p <= 65535) out'.
Proof.
  induction pieces as [|piece rest IH]; intros out Hc Hout.
  - exists out. auto.
  - cbn [map check_tokens filter] in *. rewrite nonblank_by_strip.
    destruct (strip piece) as [|c t] eqn:Es; [now apply IH|].
    cbn [map collect]. rewrite Es.
    destruct (contains "-" (c :: t)).
    + destruct (split_once "-" (c :: t)) as [[a b]|];
        [|now apply invalid_on_ValueError_not_acceptable in Hc].
      destruct (int a) as [a'|ea];
        [|now apply invalid_on_ValueError_not_acceptable in Hc].
      destruct (int b) as [b'|eb];
        [|now apply invalid_on_ValueError_not_acceptable in Hc].
      destruct (in_port_range a' && in_port_range b' && (a' <=? b')) eqn:Er;
        [|discriminate Hc]. cbn [negb] in Hc.
      apply andb_true_iff in Er as [Er Hab].
      apply andb_true_iff in Er as [Ha Hb].
      apply in_port_range_iff in Ha. apply in_port_range_iff in Hb.
      apply IH; [exact Hc|].
      apply Forall_forall. intros p Hp. apply set_update_In in Hp.
      destruct Hp as [Hp|Hp].
      * rewrite Forall_forall in Hout. auto.
      * apply range_In in Hp. lia.
    + destruct (int (c :: t)) as [n|en];
        [|now apply invalid_on_ValueError_not_acceptable in Hc].
      destruct (in_port_range n) eqn:Er; [|discriminate Hc]. cbn [negb] in Hc.
      apply in_port_range_iff in Er.
      apply IH; [exact Hc|].
      apply Forall_forall. intros p Hp. apply set_add_In in Hp.
      destruct Hp as [Hp| ->]; [|exact Er].
      rewrite Forall_forall in Hout. auto.
Qed.

Lemma filter_all_in_range out :
  Forall (fun p => 1 <= p <= 65535) out -> filter in_port_range out = out.
Proof.
  intros H. apply forallb_filter_id. apply forallb_forall. intros p Hp.
  rewrite Forall_forall in H. apply in_port_range_iff. auto.
Qed.

(** The validator never raises and leaves text and position as they are.
    A text it finds acceptable is read by [parse_ports] without an
    exception, in every mode; in custom mode the loop of [parse_ports]
    over the tokens of the text ends with a set [out] of ports that are
    all between 1 and 65535, so that the filter at the end leaves none of
    them out: the result is the whole of [out], sorted. *)
Theorem accepted_text_parses (input_text : string) (pos : Z)
    (mode : string) :
  (exists st, validate input_text pos = Returned (st, input_text, pos))
  /\ (validate input_text pos = Returned (Acceptable, input_text, pos) ->
      (exists l, parse_ports mode input_text = Returned l)
      /\ (~ mode_is mode "quick" -> ~ mode_is mode "full" ->
          exists out,
            collect (map strip
                       (filter nonblank
                          (split "," (list_ascii_of_string input_text)))) []
            = Returned out
            /\ Forall (fun p => 1 <= p <= 65535) out
            /\ filter in_port_range out = out
            /\ parse_ports mode input_text = Returned (sorted out))).
Proof.
  unfold validate.
  destruct (list_ascii_of_string input_text) as [|c t] eqn:Et.
  - split; [eauto|]. intros _.
    assert (Hcustom : ~ mode_is mode "quick" -> ~ mode_is mode "full" ->
                      parse_ports mode input_text = Returned (sorted [])).
    { intros Hq Hf. rewrite parse_ports_custom by assumption.
      rewrite Et. reflexivity. }
    split.
    + destruct (list_eq_dec ascii_dec (lower (list_ascii_of_string mode))
                  (list_ascii_of_string "quick")) as [Hq|Hq];
        [rewrite parse_ports_quick by exact Hq; eauto|].
      destruct (list_eq_dec ascii_dec (lower (list_ascii_of_string mode))
                  (list_ascii_of_string "full")) as [Hf|Hf];
        [rewrite parse_ports_full by exact Hf; eauto|].
      rewrite Hcustom by assumption. eauto.
    + intros Hq Hf. exists [].
      split; [reflexivity|]. split; [constructor|].
      split; [reflexivity | now apply Hcustom].
  - destruct (endswith (c :: t) "," || endswith (c :: t) "-").
    { split; [eauto|]. discriminate. }
    destruct (check_tokens_returns (map strip (split "," (c :: t))))
      as [st Hst].
    rewrite Hst. split; [eauto|]. intros H. inversion H; subst st.
    destruct (check_accept_collect (split "," (c :: t)) [] Hst)
      as (out & Hcollect & Hout); [constructor|].
    assert (Hcustom : ~ mode_is mode "quick" -> ~ mode_is mode "full" ->
                      parse_ports mode input_text = Returned (sorted out)).
    { intros Hq Hf. rewrite parse_ports_custom by assumption.
      rewrite Et, Hcollect. now rewrite filter_all_in_range. }
    split.
    + destruct (list_eq_dec ascii_dec (lower (list_ascii_of_string mode))
                  (list_ascii_of_string "quick")) as [Hq|Hq];
        [rewrite parse_ports_quick by exact Hq; eauto|].
      destruct (list_eq_dec ascii_dec (lower (list_ascii_of_string mode))
                  (list_ascii_of_string "full")) as [Hf|Hf];
        [rewrite parse_ports_full by exact Hf; eauto|].
      rewrite Hcustom by assumption. eauto.
    + intros Hq Hf. exists out.
      split; [exact Hcollect|]. split; [exact Hout|].
      split; [now apply filter_all_in_range | now apply Hcustom].
Qed.

Lemma accepted_text_parses_witness :
  exists out,
    collect (map strip
               (filter nonblank
                  (split "," (list_ascii_of_string "80, 443,1000-1002")))) []
    = Returned out
    /\ Forall (fun p => 1 <= p <= 65535) out
    /\ filter in_port_range out = out
    /\ parse_ports "Custom" "80, 443,1000-1002" = Returned (sorted out).
Proof.
  destruct (accepted_text_parses "80, 443,1000-1002" 0 "Custom")
    as [_ H].
  destruct (H eq_refl) as [_ Hc].
  apply Hc; intros E; discriminate E.
Defined.


(** ** The validator on written lists *)

Lemma endswith_snoc (t : text) c x : endswith (t ++ [c]) x = chr_eqb c x.
Proof. unfold endswith. now rewrite rev_app_distr. Qed.

Lemma decimal_ends_with_digit n :
  exists u c, decimal n = u ++ [c] /\ is_digit c = true.
Proof.
  pose proof (decimal_nonempty n) as Hne.
  pose proof (decimal_digits n) as Hd.
  destruct (exists_last Hne) as (u & c & E).
  exists u, c. split; [exact E|].
  rewrite E in Hd. apply Forall_app in Hd as [_ Hd]. now inversion Hd.
Qed.

Lemma write_item_ends_with_digit it :
  exists u c, write_item it = u ++ [c] /\ is_digit c = true.
Proof.
  destruct it as [n|a b]; cbn [write_item].
  - apply decimal_ends_with_digit.
  - destruct (decimal_ends_with_digit b) as (u & c & -> & Hc).
    exists (decimal a ++ "-"%char :: u), c. split; [|exact Hc].
    now rewrite <- app_assoc.
Qed.

Lemma join_ends_with_digit ts :
  ts <> [] ->
  Forall (fun t => exists u c, t = u ++ [c] /\ is_digit c = true) ts ->
  exists u c, join "," ts = u ++ [c] /\ is_digit c = true.
Proof.
  induction ts as [|t ts IH]; intros Hne Hall; [congruence|].
  inversion Hall as [|? ? Ht Hts]; subst.
  destruct ts as [|t' ts]; [exact Ht|].
  destruct (IH ltac:(discriminate) Hts) as (u & c & E & Hc).
  change (join "," (t :: t' :: ts))
    with (t ++ ","%char :: join "," (t' :: ts)).
  rewrite E. exists (t ++ ","%char :: u), c. split; [|exact Hc].
  now rewrite <- app_assoc.
Qed.

Lemma check_tokens_written its :
  Forall valid_item its ->
  check_tokens (map write_item its) = Returned Acceptable.
Proof.
  induction 1 as [|it its Hit _ IH]; [reflexivity|].
  cbn [map check_tokens].
  pose proof (write_item_nonempty it) as Hne.
  destruct (write_item it) as [|c t] eqn:E; [congruence|]. rewrite <- E.
  destruct it as [n|a b]; cbn [write_item valid_item] in *.
  - rewrite contains_dash_decimal, int_decimal.
    assert (Hr : in_port_range (Z.of_nat n) = true)
      by now apply in_port_range_iff.
    rewrite Hr. exact IH.
  - rewrite contains_dash_span, split_once_written, !int_decimal.
    assert (Ha : in_port_range (Z.of_nat a) = true)
      by (apply in_port_range_iff; lia).
    assert (Hb : in_port_range (Z.of_nat b) = true)
      by (apply in_port_range_iff; lia).
    assert (Hab : (Z.of_nat a <=? Z.of_nat b) = true)
      by (apply Z.leb_le; lia).
    rewrite Ha, Hb, Hab. exact IH.
Qed.

(** The validator accepts every written list of ports from 1 to 65535 and
    of ranges within them whose ends are in order. *)
Theorem written_list_is_acceptable (its : list item) (pos : Z) :
  Forall valid_item its ->
  validate (write its) pos = Returned (Acceptable, write its, pos).
Proof.
  intros Hall. unfold validate, write.
  rewrite list_ascii_of_string_of_list_ascii.
  destruct its as [|it its]; [reflexivity|].
  assert (Hends : exists u c, join "," (map write_item (it :: its)) = u ++ [c]
                              /\ is_digit c = true).
  { apply join_ends_with_digit; [discriminate|].
    apply Forall_forall. intros t Ht. apply in_map_iff in Ht as (i & <- & _).
    apply write_item_ends_with_digit. }
  destruct Hends as (u & c & E & Hc).
  assert (Htok : map strip (split "," (join "," (map write_item (it :: its))))
                 = map write_item (it :: its)).
  { assert (Hplain : Forall (Forall plain) (map write_item (it :: its))).
    { apply Forall_forall. intros t Ht. apply in_map_iff in Ht as (i & <- & _).
      apply write_item_plain. }
    rewrite split_join by (assumption || discriminate).
    rewrite <- (map_id (map write_item (it :: its))) at 2.
    apply map_ext_in. intros t Ht.
    rewrite Forall_forall in Hplain. now apply strip_plain, Hplain. }
  rewrite Htok, check_tokens_written by assumption.
  rewrite E, !endswith_snoc.
  apply digit_is_plain in Hc. destruct Hc as (_ & -> & _ & -> & _).
  destruct u; reflexivity.
Qed.

Lemma written_list_is_acceptable_witness :
  validate "80,443,1000-1002" 0
  = Returned (Acceptable, "80,443,1000-1002", 0).
Proof.
  apply (written_list_is_acceptable [Port 80; Port 443; Span 1000 1002] 0).
  repeat constructor; simpl; lia.
Defined.


(** ** A text that ends with a dash *)

Lemma split_snoc sep c :
  chr_eqb c sep = false ->
  forall s, exists init l,
    split sep s = init ++ [l] /\ split sep (s ++ [c]) = init ++ [l ++ [c]].
Proof.
  intros Hc. induction s as [|x s (init & l & E1 & E2)].
  - exists [], []. cbn [split app]. now rewrite Hc.
  - cbn [split app]. destruct (chr_eqb x sep).
    + exists ([] :: init), l. now rewrite E1, E2.
    + rewrite E1, E2. destruct init as [|t ts].
      * exists [], (x :: l). split; reflexivity.
      * exists ((x :: t) :: ts), l. split; reflexivity.
Qed.

Lemma lstrip_snoc c : isspace c = false ->
  forall l, exists l', lstrip (l ++ [c]) = l' ++ [c].
Proof.
  intros Hc. induction l as [|x l [l' IH]].
  - exists []. cbn [lstrip app]. now rewrite Hc.
  - cbn [lstrip app]. destruct (isspace x).
    + now exists l'.
    + now exists (x :: l).
Qed.

Lemma strip_snoc c l : isspace c = false ->
  exists l', strip (l ++ [c]) = l' ++ [c].
Proof.
  intros Hc. destruct (lstrip_snoc c Hc l) as [l' E].
  exists l'. unfold strip, rstrip. rewrite E, rev_app_distr.
  cbn [rev app lstrip]. rewrite Hc.
  change (rev (c :: rev l')) with (rev (rev l') ++ [c]).
  now rewrite rev_involutive.
Qed.

Lemma digits_dash_end s : forall acc b, digits acc b (s ++ ["-"%char]) = None.
Proof.
  induction s as [|x s IH]; intros acc b; cbn [digits app].
  - reflexivity.
  - destruct (digit x); [apply IH|].
    destruct (chr_eqb x "_" && b); [apply IH | reflexivity].
Qed.

Lemma int_dash_end l : exists e, int (l ++ ["-"%char]) = Raised e.
Proof.
  unfold int, int_literal.
  destruct (strip_snoc "-"%char l eq_refl) as [l' ->].
  destruct l' as [|c l'].
  - cbn. eauto.
  - cbn [app]. destruct (chr_eqb c "-").
    + rewrite digits_dash_end. cbn. eauto.
    + destruct (chr_eqb c "+").
      * rewrite digits_dash_end. eauto.
      * change (c :: l' ++ ["-"%char]) with ((c :: l') ++ ["-"%char]).
        rewrite digits_dash_end. eauto.
Qed.

Lemma int_empty : exists e, int [] = Raised e.
Proof. cbn. eauto. Qed.

Lemma split_once_dash_end t :
  exists a b, split_once "-" (t ++ ["-"%char]) = Some (a, b)
              /\ (b = [] \/ exists b', b = b' ++ ["-"%char]).
Proof.
  induction t as [|x t (a & b & E & Hb)]; cbn [split_once app].
  - exists [], []. auto.
  - destruct (chr_eqb x "-").
    + exists [], (t ++ ["-"%char]). split; [reflexivity|]. right. eauto.
    + rewrite E. exists (x :: a), b. auto.
Qed.

Lemma contains_dash_end t : contains "-" (t ++ ["-"%char]) = true.
Proof.
  unfold contains. rewrite existsb_app. cbn. apply orb_true_r.
Qed.

Lemma collect_dash_end t rest out :
  exists e, collect ((t ++ ["-"%char]) :: rest) out = Raised e.
Proof.
  cbn [collect]. rewrite contains_dash_end.
  destruct (split_once_dash_end t) as (a & b & -> & Hb).
  destruct (int a) as [a'|ea]; [|eauto].
  destruct Hb as [->|[b' ->]].
  - destruct int_empty as [e ->]. eauto.
  - destruct (int_dash_end b') as [e ->]. eauto.
Qed.

Lemma collect_app ts1 ts2 : forall out,
  collect (ts1 ++ ts2) out
  = match collect ts1 out with
    | Raised e => Raised e
    | Returned out' => collect ts2 out'
    end.
Proof.
  induction ts1 as [|t ts1 IH]; intros out; cbn [collect app]; [reflexivity|].
  destruct (contains "-" t).
  - destruct (split_once "-" t) as [[a b]|]; [|reflexivity].
    destruct (int a); [|reflexivity]. destruct (int b); [apply IH|reflexivity].
  - destruct (int t); [apply IH | reflexivity].
Qed.

(** A text that ends with a dash.  The validator finds such a text
    intermediate, so the field keeps it; [parse_ports] in custom mode then
    raises [ValueError] on it. *)
Theorem text_ending_with_dash (input_text : string) (pos : Z)
    (mode : string) :
  endswith (list_ascii_of_string input_text) "-" = true ->
  validate input_text pos = Returned (Intermediate, input_text, pos)
  /\ (~ mode_is mode "quick" -> ~ mode_is mode "full" ->
      exists e, parse_ports mode input_text = Raised e
                /\ cls e = ValueError).
Proof.
  intros Hend.
  assert (Hs : exists u, list_ascii_of_string input_text = u ++ ["-"%char]).
  { unfold endswith in Hend.
    destruct (rev (list_ascii_of_string input_text)) as [|x r] eqn:E;
      [discriminate|].
    unfold chr_eqb in Hend. apply Ascii.eqb_eq in Hend. subst x.
    exists (rev r). rewrite <- (rev_involutive (list_ascii_of_string _)), E.
    reflexivity. }
  destruct Hs as [u Hu]. split.
  - unfold validate. rewrite Hend, orb_true_r.
    destruct (list_ascii_of_string input_text); [|reflexivity].
    destruct u; discriminate.
  - intros Hq Hf. rewrite parse_ports_custom by assumption. rewrite Hu.
    destruct (split_snoc ","%char "-"%char eq_refl u) as (init & l & _ & ->).
    destruct (strip_snoc "-"%char l eq_refl) as [l' El].
    assert (Hnb : nonblank (l ++ ["-"%char]) = true).
    { rewrite nonblank_by_strip, El. now destruct l'. }
    rewrite filter_app. cbn [filter]. rewrite Hnb, map_app. cbn [map].
    rewrite El, collect_app.
    destruct (collect (map strip (filter nonblank init)) []) as [out|e] eqn:E.
    + destruct (collect_dash_end l' [] out) as [e He].
      pose proof (collect_raises_ValueError _ _ _ He) as Hcls.
      exists e. split; [|exact Hcls].
      assert (Hm : forall r : result (list Z),
                 r = Raised e ->
                 match r with
                 | Returned out0 =>
                     Returned (sorted (filter in_port_range out0))
                 | Raised e1 => Raised e1
                 end = Raised e) by (intros r ->; reflexivity).
      exact (Hm _ He).
    + pose proof (collect_raises_ValueError _ _ _ E) as Hcls. eauto.
Qed.

Lemma text_ending_with_dash_witness :
  validate "80,1000-" 0 = Returned (Intermediate, "80,1000-", 0)
  /\ exists e, parse_ports "Custom" "80,1000-" = Raised e
               /\ cls e = ValueError.
Proof.
  destruct (text_ending_with_dash "80,1000-" 0 "Custom" eq_refl) as [Hv Hp].
  split; [exact Hv|]. apply Hp; intros E; discriminate E.
Defined.


(** ** [start_scan] *)

Lemma filter_nil_all {A : Type} (f : A -> bool) l :
  filter f l = [] -> Forall (fun x => f x = false) l.
Proof.
  induction l as [|x l IH]; cbn [filter]; intros H; [constructor|].
  destruct (f x) eqn:E; [discriminate|]. constructor; auto.
Qed.

(** The one path of [start_scan] that ends with a worker. *)
Lemma started_worker (ip_address : string -> bool)
    (form : Form) (params : Params) :
  start_scan ip_address form = Returned (Worker params) ->
  worker_running form = false
  /\ filter (fun h => negb (validate_host ip_address h))
            (parse_hosts (hosts_edit form)) = []
  /\ parse_hosts (hosts_edit form) <> []
  /\ exists mode ports,
       parse_ports mode (custom_ports form) = Returned ports
       /\ ports <> []
       /\ params = {| p_targets := parse_hosts (hosts_edit form);
                      p_ports := ports;
                      p_timeout_ms := timeout_spin form;
                      p_threads := threads_slider form |}.
Proof.
  unfold start_scan. destruct (worker_running form); [discriminate|].
  destruct (filter (fun h => negb (validate_host ip_address h))
              (parse_hosts (hosts_edit form))) as [|b bad] eqn:Ebad;
    [|discriminate].
  destruct (parse_hosts (hosts_edit form)) as [|h hs] eqn:Eh; [discriminate|].
  match goal with
  | |- context [parse_ports ?m (custom_ports form)] =>
      destruct (parse_ports m (custom_ports form)) as [ports|e] eqn:Ep;
        [|discriminate];
      destruct ports as [|p ports]; [discriminate|];
      intros H; inversion H; subst params; clear H;
      split; [reflexivity|]; split; [reflexivity|];
      split; [discriminate|];
      exists m, (p :: ports);
      split; [exact Ep|]; split; [discriminate | reflexivity]
  end.
Qed.

(** A started worker has distinct hosts and distinct ports, at least one
    of each. *)
Lemma started_worker_distinct (ip_address : string -> bool)
    (form : Form) (params : Params) :
  start_scan ip_address form = Returned (Worker params) ->
  p_targets params = parse_hosts (hosts_edit form)
  /\ p_targets params <> []
  /\ NoDup (p_targets params)
  /\ p_ports params <> []
  /\ NoDup (p_ports params)
  /\ max_workers (__init__ (p_timeout_ms params) (p_threads params))
     = threads_slider form.
Proof.
  intros H. apply started_worker in H.
  destruct H as (_ & _ & Hne & mode & ports & Ep & Hpne & ->).
  cbn [p_targets p_ports p_threads __init__ max_workers].
  split; [reflexivity|]. split; [exact Hne|]. split.
  { rewrite parse_hosts_first_occurrences.
    apply (first_occurrences_NoDup String.eqb string_eqb_eq). }
  split; [exact Hpne|]. split; [|reflexivity].
  apply parse_ports_sound in Ep. destruct Ep as [Hs _].
  clear -Hs. induction Hs as [|p l _ IH Hall]; constructor; auto.
  intros Hin. rewrite Forall_forall in Hall. apply Hall in Hin. lia.
Qed.

(** What [start_scan] hands to a worker.  A worker is started only when no
    worker is running, with the hosts [parse_hosts] reads from the field,
    all of which [validate_host] accepts, and with the ports [parse_ports]
    returns: the list of targets is non-empty and without repetition, the
    list of ports is non-empty, ascending and within 1 to 65535. *)
Theorem start_scan_checks_its_inputs (ip_address : string -> bool)
    (form : Form) (params : Params) :
  start_scan ip_address form = Returned (Worker params) ->
  worker_running form = false
  /\ p_targets params = parse_hosts (hosts_edit form)
  /\ p_targets params <> []
  /\ NoDup (p_targets params)
  /\ Forall (fun h => validate_host ip_address h = true) (p_targets params)
  /\ p_ports params <> []
  /\ StronglySorted Z.lt (p_ports params)
  /\ Forall (fun p => 1 <= p <= 65535) (p_ports params)
  /\ p_timeout_ms params = timeout_spin form
  /\ p_threads params = threads_slider form.
Proof.
  intros H. apply started_worker in H.
  destruct H as (Hidle & Ebad & Hne & mode & ports & Ep & Hpne & ->).
  cbn [p_targets p_ports p_timeout_ms p_threads].
  apply parse_ports_sound in Ep. destruct Ep as [Hs Hr].
  split; [exact Hidle|]. split; [reflexivity|]. split; [exact Hne|].
  split.
  { rewrite parse_hosts_first_occurrences.
    apply (first_occurrences_NoDup String.eqb string_eqb_eq). }
  split.
  { apply filter_nil_all in Ebad. eapply Forall_impl; [|exact Ebad].
    intros x Hx. simpl in Hx. now apply negb_false_iff in Hx. }
  split; [exact Hpne|]. split; [exact Hs|]. split; [exact Hr|].
  split; reflexivity.
Qed.

Lemma start_scan_checks_its_inputs_witness :
  p_targets {| p_targets := ["a"; "b"]; p_ports := [80; 443];
               p_timeout_ms := 800; p_threads := 150 |}
  = parse_hosts "a, b".
Proof.
  apply (start_scan_checks_its_inputs (fun _ => false)
           {| worker_running := false; hosts_edit := "a, b";
              rb_quick := false; rb_full := false;
              custom_ports := "80,443";
              timeout_spin := 800; threads_slider := 150 |}).
  reflexivity.
Defined.

(** A scan started from the window, whose slider keeps the number of
    threads between 5 and 400, the clock giving readings that [scan] can
    turn into milliseconds.  The worker's scan has one summary for each
    host of the field, in the order of the field; [total] is the number of
    hosts times the number of ports, at least 1; and when nobody presses
    Stop every host and port is probed and ends either counted in [done]
    or logged as a worker failure, so that [done] and the failures add up
    to [total]. *)
Theorem started_scan_covers_the_form (ip_address : string -> bool)
    (form : Form) (params : Params) (W : scan_world) :
  start_scan ip_address form = Returned (Worker params) ->
  5 <= threads_slider form <= 400 ->
  clock_ok W ->
  exists run,
    worker_run params W = Returned run
    /\ map host (summaries (doc run)) = parse_hosts (hosts_edit form)
    /\ total run
       = Z.of_nat (List.length (p_targets params))
         * Z.of_nat (List.length (p_ports params))
    /\ 1 <= total run
    /\ ((forall i, stop_calls W i = false) ->
        map snd (futs run) = list_prod (p_targets params) (p_ports params)
        /\ done run + Z.of_nat (List.length (faults (trace run)))
           = total run).
Proof.
  intros Hstart Hslider Hck. apply started_worker_distinct in Hstart.
  destruct Hstart as (Ht & Htne & Hnd & Hpne & _ & Hthreads).
  assert (Hw : 0 < max_workers (__init__ (p_timeout_ms params)
                                         (p_threads params)))
    by (rewrite Hthreads; lia).
  unfold worker_run.
  destruct (run_hosts (__init__ (p_timeout_ms params) (p_threads params))
              (p_targets params) (p_ports params) true false true true W Hw Hck)
    as (run & Hrun & _ & Hhosts).
  destruct (scan_stores (__init__ (p_timeout_ms params) (p_threads params))
              (p_targets params) (p_ports params) true false true true W Hw Hck)
    as (run' & k & Hrun' & _ & _ & _ & _ & _ & Htotal & _).
  rewrite Hrun in Hrun'. inversion Hrun'; subst run'; clear Hrun'.
  exists run. split; [exact Hrun|].
  assert (Hpos : 1 <= Z.of_nat (List.length (p_targets params))
                      * Z.of_nat (List.length (p_ports params))).
  { destruct (p_targets params); [congruence|].
    destruct (p_ports params); [congruence|]. simpl List.length. lia. }
  assert (Ht' : total run
                = Z.of_nat (List.length (p_targets params))
                  * Z.of_nat (List.length (p_ports params)))
    by (rewrite Htotal; lia).
  split.
  { rewrite Hhosts, <- Ht.
    now apply (first_occurrences_distinct String.eqb string_eqb_eq). }
  split; [exact Ht'|]. split; [lia|].
  intros Hcalls.
  destruct (uncancelled_scan_counts
              (__init__ (p_timeout_ms params) (p_threads params))
              (p_targets params) (p_ports params) false true true W
              Hw Hck eq_refl Hcalls) as (run' & Hrun' & Hu & Hd).
  rewrite Hrun in Hrun'. inversion Hrun'; subst run'; clear Hrun'.
  split; [exact Hu|]. now rewrite Ht'.
Qed.

Lemma started_scan_covers_the_form_witness :
  exists run,
    worker_run {| p_targets := ["a"; "b"]; p_ports := [80; 443];
                  p_timeout_ms := 800; p_threads := 150 |}
               second_probe_faults = Returned run
    /\ done run + Z.of_nat (List.length (faults (trace run))) = total run.
Proof.
  destruct (started_scan_covers_the_form (fun _ => false)
              {| worker_running := false; hosts_edit := "a, b";
                 rb_quick := false; rb_full := false;
                 custom_ports := "80,443";
                 timeout_spin := 800; threads_slider := 150 |}
              {| p_targets := ["a"; "b"]; p_ports := [80; 443];
                 p_timeout_ms := 800; p_threads := 150 |}
              second_probe_faults eq_refl
              (conj (Zle_bool_imp_le 5 150 eq_refl)
                    (Zle_bool_imp_le 150 400 eq_refl))
              (conj eq_refl eq_refl))
    as (run & Hrun & _ & _ & _ & Hall).
  exists run. split; [exact Hrun|]. apply Hall. reflexivity.
Defined.

End GuiProofs.

(* ================================================================== *)
(** * The table of results and the progress bar *)
(* ================================================================== *)

Module TableProofs.
Import Py Scanner Common PortLists Hosts Gui GuiTable RunFacts Worlds.
Import PyFacts Observations ScanProofs CommonProofs HostProofs ScanMore.
Import GuiProofs.

(** ** [str] of an int *)

Lemma decimal_inj a b : decimal a = decimal b -> a = b.
Proof.
  intros H. pose proof (digits_decimal a) as Ha.
  rewrite H, digits_decimal in Ha. injection Ha. lia.
Qed.

Lemma decimal_no_sign n rest : decimal n <> "-"%char :: rest.
Proof.
  intros H. pose proof (decimal_digits n) as Hd. rewrite H in Hd.
  inversion Hd as [|? ? Hc _]. vm_compute in Hc. discriminate.
Qed.

Lemma string_of_list_ascii_inj (s t : list ascii) :
  string_of_list_ascii s = string_of_list_ascii t -> s = t.
Proof.
  intros H. apply (f_equal list_ascii_of_string) in H.
  now rewrite !list_ascii_of_string_of_list_ascii in H.
Qed.

Lemma str_int_inj a b : str_int a = str_int b -> a = b.
Proof.
  unfold str_int. intros H. apply string_of_list_ascii_inj in H.
  destruct (Z.ltb_spec a 0), (Z.ltb_spec b 0).
  - injection H as H. apply decimal_inj in H. lia.
  - symmetry in H. now apply decimal_no_sign in H.
  - now apply decimal_no_sign in H.
  - apply decimal_inj in H. lia.
Qed.

(** ** Rows and their keys *)

Lemma fill_row_key port data row :
  c_host (fill_row port data row) = c_host row
  /\ c_port (fill_row port data row) = c_port row.
Proof. split; reflexivity. Qed.

Lemma find_row_from_None r rows host port :
  (forall row, In row rows ->
     ~ (c_host row = host /\ c_port row = str_int port)) ->
  find_row_from r rows host port = None.
Proof.
  revert r. induction rows as [|row rows IH]; intros r H; [reflexivity|].
  cbn [find_row_from].
  destruct (String.eqb (c_host row) host
            && String.eqb (c_port row) (str_int port)) eqn:E.
  - apply andb_true_iff in E as [E1 E2].
    apply String.eqb_eq in E1, E2.
    exfalso. apply (H row); [now left | now split].
  - apply IH. intros row' Hin. apply H. now right.
Qed.

Lemma find_row_from_Some r rows host port k :
  find_row_from r rows host port = Some k ->
  exists j row, k = (r + j)%nat /\ nth_error rows j = Some row
                /\ c_host row = host /\ c_port row = str_int port.
Proof.
  revert r. induction rows as [|row rows IH]; intros r H; [discriminate|].
  cbn [find_row_from] in H.
  destruct (String.eqb (c_host row) host
            && String.eqb (c_port row) (str_int port)) eqn:E.
  - injection H as <-. apply andb_true_iff in E as [E1 E2].
    apply String.eqb_eq in E1, E2.
    exists 0%nat, row. split; [lia|]. split; [reflexivity|]. now split.
  - apply IH in H as (j & row' & -> & Hn & Hh & Hp).
    exists (S j), row'. split; [lia|]. split; [exact Hn|]. now split.
Qed.

Lemma update_row_keys (f : TableRow -> TableRow) :
  (forall row, c_host (f row) = c_host row /\ c_port (f row) = c_port row) ->
  forall table r,
    map row_key (update_row table r f)
    = map row_key table.
Proof.
  intros Hf. induction table as [|row rest IH]; intros r; [reflexivity|].
  destruct r as [|r]; cbn [update_row map].
  - unfold row_key at 1. destruct (Hf row) as [-> ->]. reflexivity.
  - now rewrite IH.
Qed.

(** One call of [_on_result]: the rows keep their hosts and ports, and a
    row for this host and port is added at the end unless there is one. *)
Lemma on_result_keys table host port data :
  (In (host, str_int port) (map row_key table)
   /\ map row_key (_on_result table host port data) = map row_key table)
  \/ (~ In (host, str_int port) (map row_key table)
      /\ map row_key (_on_result table host port data)
         = map row_key table ++ [(host, str_int port)]).
Proof.
  unfold _on_result, _find_row.
  destruct (find_row_from 0 table host port) as [k|] eqn:E.
  - left. apply find_row_from_Some in E as (j & row & _ & Hn & Hh & Hp).
    split.
    + apply nth_error_In in Hn.
      apply in_map_iff. exists row. split; [|exact Hn].
      unfold row_key. now rewrite Hh, Hp.
    + apply update_row_keys. intros row'. apply fill_row_key.
  - right. split.
    + intros Hin. apply in_map_iff in Hin as (row & Hk & Hin).
      unfold row_key in Hk. injection Hk as Hh Hp.
      assert (Hsome : exists k, find_row_from 0 table host port = Some k).
      { clear E. generalize 0%nat as r. induction table as [|row' rest IH];
          intros r; [contradiction|]. cbn [find_row_from].
        destruct Hin as [->|Hin].
        - rewrite Hh, Hp, !String.eqb_refl. simpl. eauto.
        - destruct (String.eqb (c_host row') host
                    && String.eqb (c_port row') (str_int port)); eauto. }
      destruct Hsome as [k Hk]. congruence.
    + rewrite map_app. reflexivity.
Qed.

Lemma on_result_fresh table host port data :
  ~ In (host, str_int port) (map row_key table) ->
  _on_result table host port data
  = table ++ [fill_row port data (blank_row host port)].
Proof.
  intros H. unfold _on_result, _find_row.
  rewrite find_row_from_None; [reflexivity|].
  intros row Hin [Hh Hp]. apply H. apply in_map_iff.
  exists row. split; [|exact Hin]. unfold row_key. now rewrite Hh, Hp.
Qed.

(** Results for distinct hosts and ports, none of them in the table, add
    their rows at the end, in their order. *)
Lemma deliver_fresh (calls : list (string * Z * Info)) :
  NoDup (map fst calls) ->
  forall table,
    (forall c, In c calls ->
       ~ In (fst (fst c), str_int (snd (fst c)))
            (map row_key table)) ->
    deliver_results calls table = table ++ map row_of calls.
Proof.
  induction calls as [|c calls IH]; intros Hnd table Hfresh.
  - simpl. now rewrite app_nil_r.
  - inversion Hnd as [|? ? Hnotin Hnd']; subst.
    unfold deliver_results. cbn [fold_left].
    fold (deliver_results calls
            (_on_result table (fst (fst c)) (snd (fst c)) [("tcp", snd c)])).
    rewrite on_result_fresh by (apply Hfresh; now left).
    fold (row_of c). rewrite (IH Hnd').
    + now rewrite <- app_assoc.
    + intros c' Hc' Hin. rewrite map_app in Hin.
      apply in_app_or in Hin as [Hin|Hin].
      * apply (Hfresh c'); [now right | exact Hin].
      * cbn [map In] in Hin. destruct Hin as [Hin|[]].
        destruct (fill_row_key (snd (fst c)) [("tcp", snd c)]
                    (blank_row (fst (fst c)) (snd (fst c)))) as [Hh Hp].
        unfold row_of, row_key in Hin. rewrite Hh, Hp in Hin.
        cbn [blank_row c_host c_port] in Hin.
        injection Hin as Hh' Hp'. apply str_int_inj in Hp'.
        apply Hnotin. apply in_map_iff. exists c'. split; [|exact Hc'].
        destruct c as [[h p] i], c' as [[h' p'] i']. simpl in *. congruence.
Qed.

(** ** The stores of a scan of distinct hosts and ports *)

Lemma NoDup_firstn {A : Type} n (l : list A) : NoDup l -> NoDup (firstn n l).
Proof.
  intros H. rewrite <- (firstn_skipn n l) in H.
  now apply NoDup_app_remove_r in H.
Qed.

Lemma NoDup_list_prod {A B : Type} (l : list A) (l' : list B) :
  NoDup l -> NoDup l' -> NoDup (list_prod l l').
Proof.
  intros Hl Hl'. induction Hl as [|a l Ha Hl IH]; [constructor|].
  cbn [list_prod]. apply NoDup_app.
  - apply NoDup_map_NoDup_ForallPairs; [|exact Hl'].
    intros x y _ _ E. congruence.
  - exact IH.
  - intros [x y] Hin Hin'. apply in_map_iff in Hin as (y' & E & _).
    injection E as <- <-. apply in_prod_iff in Hin' as [Hin' _]. contradiction.
Qed.

Lemma stored_of_unit self W (f : future) x :
  In x (stored_of self W f) -> fst x = snd f.
Proof.
  unfold stored_of. destruct (fut_result self W f) as [y|e] eqn:E;
    [|contradiction].
  intros [->|[]]. destruct x as [[h p] i]. simpl.
  exact (fut_result_unit _ _ _ _ _ _ E).
Qed.

Lemma stored_distinct self W (l : list future) :
  NoDup (map snd l) -> NoDup (map fst (flat_map (stored_of self W) l)).
Proof.
  induction l as [|f l IH]; intros H; [constructor|].
  cbn [map] in H. inversion H as [|? ? Hnotin Hnd]; subst.
  cbn [flat_map]. rewrite map_app. apply NoDup_app.
  - unfold stored_of. destruct (fut_result self W f); simpl; repeat constructor.
    intros [].
  - now apply IH.
  - intros u Hu Hu'. apply in_map_iff in Hu as (x & <- & Hx).
    apply stored_of_unit in Hx.
    apply in_map_iff in Hu' as (x' & E' & Hx').
    apply in_flat_map in Hx' as (f' & Hf' & Hx').
    apply stored_of_unit in Hx'.
    apply Hnotin. rewrite <- Hx, <- E', Hx'.
    exact (in_map snd _ _ Hf').
Qed.

Lemma stores_distinct self tgts ports do_tcp do_udp onr onp W :
  0 < max_workers self ->
  clock_ok W ->
  NoDup tgts -> NoDup ports ->
  exists run,
    scan self tgts ports do_tcp do_udp onr onp W = Returned run
    /\ NoDup (map fst (stores (trace run))).
Proof.
  intros Hw Hck. intros Ht Hp.
  destruct (scan_stores self tgts ports do_tcp do_udp onr onp W Hw Hck)
    as (run & k & Hrun & _ & Hs & _ & _ & _ & _ & (n & Hn) & _).
  exists run. split; [exact Hrun|]. rewrite Hs.
  apply stored_distinct. rewrite <- firstn_map. apply NoDup_firstn.
  apply (Permutation_NoDup
           (Permutation_sym
              (Permutation_map snd
                 (as_completed_perm (completion W) (futs run))))).
  rewrite Hn. apply NoDup_firstn. now apply NoDup_list_prod.
Qed.

Lemma deliver_progress_counting total n bar :
  value (deliver_progress (counting 0 total n) bar)
  = (if (n =? 0)%nat then value bar else Z.of_nat n)
  /\ maximum (deliver_progress (counting 0 total n) bar)
     = (if (n =? 0)%nat then maximum bar else Z.max 1 total).
Proof.
  unfold counting, deliver_progress.
  destruct n as [|n]; [split; reflexivity|].
  rewrite seq_S, map_app, fold_left_app. cbn [map fold_left _on_progress fst snd
    value maximum Nat.eqb]. split; [lia | reflexivity].
Qed.

(** A table keeps one row for each host and port.  Whatever results are
    delivered to an empty table, no two of its rows have the same host and
    port, every delivered result has its row, and the table has no more
    rows than results were delivered. *)
Theorem table_has_one_row_per_unit (calls : list (string * Z * Info)) :
  let table := deliver_results calls [] in
  NoDup (map row_key table)
  /\ (forall c, In c calls ->
        exists row, In row table /\ c_host row = fst (fst c)
                    /\ c_port row = str_int (snd (fst c)))
  /\ (List.length table <= List.length calls)%nat.
Proof.
  assert (H : forall calls table,
    NoDup (map row_key table) ->
    NoDup (map row_key (deliver_results calls table))
    /\ (forall k, In k (map row_key table) ->
                  In k (map row_key (deliver_results calls table)))
    /\ (forall c, In c calls ->
          In (fst (fst c), str_int (snd (fst c)))
             (map row_key (deliver_results calls table)))
    /\ (List.length (map row_key (deliver_results calls table))
        <= List.length (map row_key table) + List.length calls)%nat).
  { clear calls. induction calls as [|c calls IH]; intros table Hnd.
    - simpl. repeat split; auto; [intros c []|lia].
    - unfold deliver_results. cbn [fold_left].
      set (t1 := _on_result table (fst (fst c)) (snd (fst c)) [("tcp", snd c)]).
      fold (deliver_results calls t1).
      assert (Ht1 : NoDup (map row_key t1)
                    /\ (forall k, In k (map row_key table)
                                  -> In k (map row_key t1))
                    /\ In (fst (fst c), str_int (snd (fst c)))
                          (map row_key t1)
                    /\ (List.length (map row_key t1)
                        <= S (List.length (map row_key table)))%nat).
      { destruct (on_result_keys table (fst (fst c)) (snd (fst c))
                    [("tcp", snd c)]) as [[Hin E]|[Hnotin E]];
          fold t1 in E; rewrite E.
        - repeat split; auto.
        - split; [|split; [|split]].
          + apply NoDup_app; auto.
            * repeat constructor. intros [].
            * intros a Ha [<-|[]]. contradiction.
          + intros k Hk. apply in_or_app. now left.
          + apply in_or_app. right. now left.
          + rewrite length_app. simpl. lia. }
      destruct Ht1 as (Hnd1 & Hkeep1 & Hin1 & Hlen1).
      destruct (IH t1 Hnd1) as (Hnd2 & Hkeep2 & Hin2 & Hlen2).
      split; [exact Hnd2|]. split; [auto|]. split.
      + intros c' [<-|Hc']; auto.
      + simpl List.length. lia. }
  destruct (H calls [] (NoDup_nil _)) as (Hnd & _ & Hin & Hlen).
  cbv zeta. split; [exact Hnd|]. split.
  - intros c Hc. apply Hin in Hc. apply in_map_iff in Hc as (row & E & Hrow).
    unfold row_key in E. injection E as Hh Hp. exists row. auto.
  - rewrite length_map in Hlen. simpl in Hlen. exact Hlen.
Qed.

(** The window after a scan it started, the slider keeping the number of
    threads between 5 and 400 and the clock giving readings that [scan]
    can turn into milliseconds.  On the table that [start_scan] cleared,
    the results of the worker's scan fill one new row each: the table is the list of the rows of the stored results, in the order in
    which they were stored, so it has [done] rows; and the progress bar
    ends at the value [done], with the maximum [total] once a result has
    come. *)
Theorem started_scan_fills_the_table (ip_address : string -> bool)
    (form : Form) (params : Params) (W : scan_world) :
  start_scan ip_address form = Returned (Worker params) ->
  5 <= threads_slider form <= 400 ->
  clock_ok W ->
  exists run,
    worker_run params W = Returned run
    /\ table_after run = map row_of (stores (trace run))
    /\ Z.of_nat (List.length (table_after run)) = done run
    /\ forall bar,
         value (bar_after bar run) = done run
         /\ (0 < done run -> maximum (bar_after bar run) = total run).
Proof.
  intros Hstart Hslider Hck. apply started_worker_distinct in Hstart.
  destruct Hstart as (_ & Htne & Hnd & Hpne & Hndp & Hthreads).
  assert (Hw : 0 < max_workers (__init__ (p_timeout_ms params)
                                         (p_threads params)))
    by (rewrite Hthreads; lia).
  unfold worker_run.
  destruct (stores_distinct (__init__ (p_timeout_ms params) (p_threads params))
              (p_targets params) (p_ports params) true false true true W
              Hw Hck Hnd Hndp) as (run & Hrun & Hdistinct).
  destruct (scan_anatomy (__init__ (p_timeout_ms params) (p_threads params))
              (p_targets params) (p_ports params) true false true true W Hw Hck)
    as (run' & s' & Hrun' & _ & _ & Htotal & _ & _ & _ & _ & _ & Hdone & Hprog
        & Hres & _).
  rewrite Hrun in Hrun'. inversion Hrun'; subst run'; clear Hrun'.
  exists run. split; [exact Hrun|].
  assert (Htable : table_after run = map row_of (stores (trace run))).
  { unfold table_after. rewrite Hres.
    rewrite (deliver_fresh _ Hdistinct []); [reflexivity|].
    intros c _ []. }
  split; [exact Htable|]. split.
  { now rewrite Htable, length_map, Hdone. }
  intros bar. unfold bar_after. rewrite Hprog.
  destruct (deliver_progress_counting (total run)
              (List.length (stores (trace run)))
              {| maximum := maximum bar; value := 0 |}) as [Hv Hm].
  rewrite Hv, Hm, Hdone.
  destruct (List.length (stores (trace run))) as [|n] eqn:En;
    cbn [Nat.eqb value maximum].
  - split; [reflexivity | lia].
  - split; [reflexivity|]. intros _. rewrite Htotal. lia.
Qed.

Lemma started_scan_fills_the_table_witness :
  exists run,
    worker_run {| p_targets := ["a"; "b"]; p_ports := [80; 443];
                  p_timeout_ms := 800; p_threads := 150 |}
               second_probe_faults = Returned run
    /\ Z.of_nat (List.length (table_after run)) = done run.
Proof.
  destruct (started_scan_fills_the_table (fun _ => false)
              {| worker_running := false; hosts_edit := "a, b";
                 rb_quick := false; rb_full := false;
                 custom_ports := "80,443";
                 timeout_spin := 800; threads_slider := 150 |}
              {| p_targets := ["a"; "b"]; p_ports := [80; 443];
                 p_timeout_ms := 800; p_threads := 150 |}
              second_probe_faults eq_refl
              (conj (Zle_bool_imp_le 5 150 eq_refl)
                    (Zle_bool_imp_le 150 400 eq_refl))
              (conj eq_refl eq_refl))
    as (run & Hrun & _ & Hlen & _).
  exists run. split; [exact Hrun | exact Hlen].
Defined.

End TableProofs.
